(** * Spotify2YT: the resumable migration engine of [new.py]

    A shallow embedding of the asynchronous core of [new.py]: the two request
    clients with their retry ladders ([async_search_youtube],
    [async_add_to_playlist]), the per-song worker ([process_song_worker]), the
    progress ledger ([load_progress], [save_progress]) and the orchestration
    in [main].

    Coroutines are modelled as resumable state machines.  A coroutine runs
    without interruption from one suspension point to the next (asyncio is
    cooperative and single threaded), so one step of the model is the code
    between two [await]s; the scheduler of the pool interleaves these steps.
    The module-level flag [quota_exceeded] and a journal of the remote
    requests and sleeps are threaded through a small state monad. *)

From Stdlib Require Import ZArith String Ascii List Bool Lia.
From stdpp Require Import base option list gmap sets strings sorting pretty.

Set Warnings "-register-all".

Local Open Scope string_scope.
Local Open Scope list_scope.
Local Open Scope Z_scope.

(** ** Configuration (new.py, lines 19-24) *)

Definition PROGRESS_FILE : string := "progress.json".
Definition CREDENTIALS_FILE : string := "youtube_credentials.pickle".
Definition RETRY_ATTEMPTS : nat := 3.
Definition RETRY_DELAY : Z := 5.
Definition CONCURRENT_REQUESTS : nat := 10.

(** ** The remote service as the code sees it *)

(** One entry of the [items] array of a search response: the code reads
    [item["snippet"]["title"]] and [item["id"]["videoId"]]. *)
Record item := Item { title : string; videoId : string }.

(** What awaiting a request gives back: a response with its status (and, for
    a search, the [items] of its body), an [aiohttp.ClientError], or any other
    exception (a body that is not the expected JSON, a timeout), which neither
    client catches. *)
Inductive reply :=
| Reply (status : Z) (items : list item)
| RaisesClientError
| RaisesOther.

Inductive endpoint := Search | Insert.

(** What a coroutine does that the rest of the world can observe. *)
Inductive event :=
| Request (e : endpoint) (attempt : nat)
| Sleep (seconds : Z).

(** ** Shared state and the monad of coroutine steps *)

Record shared := Shared { quota_exceeded : bool; journal : list event }.

Definition Co (A : Type) : Type := shared -> A * shared.

Definition ret {A} (a : A) : Co A := fun s => (a, s).
Definition bind {A B} (m : Co A) (k : A -> Co B) : Co B :=
  fun s => let (a, s') := m s in k a s'.
Definition read_quota : Co bool := fun s => (quota_exceeded s, s).
Definition trip : Co unit :=
  fun s => (tt, {| quota_exceeded := true; journal := journal s |}).
Definition emit (e : event) : Co unit :=
  fun s => (tt, {| quota_exceeded := quota_exceeded s; journal := journal s ++ [e] |}).

Declare Scope co_scope.
Delimit Scope co_scope with co.
Notation "x <- m ;; k" := (bind m (fun x => k))
  (at level 100, m at next level, right associativity) : co_scope.
Notation "m ;; k" := (bind m (fun _ => k))
  (at level 100, right associativity) : co_scope.
Local Open Scope co_scope.

(** A client call is suspended either on the response of the request of
    [attempt], or in the [asyncio.sleep] that follows a failed [attempt]. *)
Inductive suspended :=
| AwaitingReply (attempt : nat)
| Sleeping (attempt : nat).

(** What resumes a suspended coroutine: the semaphore, the response of the
    pending request, or the end of the sleep. *)
Inductive input :=
| Acquired
| Got (r : reply)
| Woken.

(** Running a coroutine up to its next suspension point. *)
Inductive progress (A : Type) :=
| Suspend (s : suspended)
| Return (a : A)
| Raise.
Arguments Suspend {A} s.
Arguments Return {A} a.
Arguments Raise {A}.

(** ** Choice of the best search result (lines 158-164) *)

(** [str.lower] on the UTF-8 bytes of a title: the ASCII capitals are
    lowered; the bytes of other characters stay, none of them lowering to a
    run of letters in which "live" could appear or disappear. *)
Definition lower_ascii (c : ascii) : ascii :=
  let n := nat_of_ascii c in
  if ((65 <=? n) && (n <=? 90))%nat then ascii_of_nat (n + 32) else c.

Fixpoint lower (s : string) : string :=
  match s with
  | EmptyString => EmptyString
  | String c s' => String (lower_ascii c) (lower s')
  end.

(** [needle in hay] on Python strings. *)
Fixpoint contains (needle hay : string) : bool :=
  String.prefix needle hay ||
  match hay with
  | EmptyString => false
  | String _ hay' => contains needle hay'
  end.

(** The key of the [max]: 0 for a title with "live" in it, 1 otherwise. *)
Definition score (it : item) : nat :=
  if contains "live" (lower (title it)) then 0%nat else 1%nat.

(** Python's [max(items, key=...)]: the first item whose key is maximal. *)
Fixpoint max_by_score (best : item) (rest : list item) : item :=
  match rest with
  | [] => best
  | x :: rest' =>
      max_by_score (if (score best <? score x)%nat then x else best) rest'
  end.

(** ** [async_search_youtube] (lines 136-186) *)

(** Head of the [for attempt in range(RETRY_ATTEMPTS)] loop: send the request
    of this attempt, or fall out of the loop to the final [return None]. *)
Definition search_attempt (attempt : nat) : Co (progress (option string)) :=
  if (attempt <? RETRY_ATTEMPTS)%nat
  then emit (Request Search attempt) ;; ret (Suspend (AwaitingReply attempt))
  else ret (Return None).

Definition async_search_youtube : Co (progress (option string)) :=
  q <- read_quota ;;
  if q then ret (Return None) else search_attempt 0.

(** The body of the loop once the response of [attempt] is there.  Reading
    the body ([await response.json()], [await response.text()]) is taken
    together with the arrival of the response: nothing is done to the shared
    state in between. *)
Definition search_on_reply (attempt : nat) (r : reply)
  : Co (progress (option string)) :=
  match r with
  | Reply status items =>
      if status =? 200 then
        match items with
        | [] => ret (Return None)
        | x :: rest => ret (Return (Some (videoId (max_by_score x rest))))
        end
      else if (status =? 403) || (status =? 429) then
        if (attempt =? RETRY_ATTEMPTS - 1)%nat then
          trip ;; ret (Return None)
        else
          emit (Sleep (RETRY_DELAY * 2 ^ Z.of_nat attempt)) ;;
          ret (Suspend (Sleeping attempt))
      else ret (Return None)
  | RaisesClientError =>
      if (attempt <? RETRY_ATTEMPTS - 1)%nat then
        emit (Sleep RETRY_DELAY) ;; ret (Suspend (Sleeping attempt))
      else search_attempt (S attempt)
  | RaisesOther => ret Raise
  end.

(** The search call resumed at its suspension point. *)
Definition resume_search (su : suspended) (i : input)
  : option (Co (progress (option string))) :=
  match su, i with
  | AwaitingReply k, Got r => Some (search_on_reply k r)
  | Sleeping k, Woken => Some (search_attempt (S k))
  | _, _ => None
  end.

(** ** [async_add_to_playlist] (lines 189-239) *)

Definition add_attempt (attempt : nat) : Co (progress bool) :=
  if (attempt <? RETRY_ATTEMPTS)%nat
  then emit (Request Insert attempt) ;; ret (Suspend (AwaitingReply attempt))
  else ret (Return false).

Definition async_add_to_playlist : Co (progress bool) :=
  q <- read_quota ;;
  if q then ret (Return false) else add_attempt 0.

Definition add_on_reply (attempt : nat) (r : reply) : Co (progress bool) :=
  match r with
  | Reply status _ =>
      if status =? 200 then ret (Return true)
      else if status =? 409 then ret (Return true)
      else if (status =? 403) || (status =? 429) then
        if (attempt =? RETRY_ATTEMPTS - 1)%nat then
          trip ;; ret (Return false)
        else
          emit (Sleep (RETRY_DELAY * 2 ^ Z.of_nat attempt)) ;;
          ret (Suspend (Sleeping attempt))
      else ret (Return false)
  | RaisesClientError =>
      if (attempt <? RETRY_ATTEMPTS - 1)%nat then
        emit (Sleep RETRY_DELAY) ;; ret (Suspend (Sleeping attempt))
      else add_attempt (S attempt)
  | RaisesOther => ret Raise
  end.

Definition resume_add (su : suspended) (i : input)
  : option (Co (progress bool)) :=
  match su, i with
  | AwaitingReply k, Got r => Some (add_on_reply k r)
  | Sleeping k, Woken => Some (add_attempt (S k))
  | _, _ => None
  end.

(** A client call driven to the end of a list of inputs, on its own. *)
Fixpoint feed {A} (resume : suspended -> input -> option (Co (progress A)))
    (inputs : list input) (p : progress A) (s : shared)
  : option (progress A * shared) :=
  match inputs with
  | [] => Some (p, s)
  | i :: rest =>
      match p with
      | Suspend su =>
          match resume su i with
          | Some c => let (p', s') := c s in feed resume rest p' s'
          | None => None
          end
      | _ => None
      end
  end.

Definition search_call (inputs : list input) (s : shared)
  : option (progress (option string) * shared) :=
  let (p, s') := async_search_youtube s in feed resume_search inputs p s'.

Definition add_call (inputs : list input) (s : shared)
  : option (progress bool * shared) :=
  let (p, s') := async_add_to_playlist s in feed resume_add inputs p s'.

(** ** [process_song_worker] (lines 242-284) *)

(** The dictionary built in [main] for a song still to process. *)
Record song := Song { id : Z; total : Z; query : string }.

Inductive status := Added | NotFound | FailedToAdd | QuotaExceeded.

(** The dictionary after [song.update({"status": .., "video_id": ..})]. *)
Record outcome := Outcome {
  song_of : song;
  status_of : status;
  video_id_of : option string
}.

(** What [asyncio.gather(..., return_exceptions=True)] collects for a task. *)
Inductive result :=
| Returned (o : outcome)
| Raised.

Inductive wstate :=
| Waiting
| InSearch (s : suspended)
| InInsert (video_id : string) (s : suspended)
| Finished (r : result).

Definition finish (sg : song) (st : status) (v : option string) : Co wstate :=
  ret (Finished (Returned (Outcome sg st v))).

(** Lines 268-276: the worker once [async_add_to_playlist] has returned. *)
Definition after_add (sg : song) (video_id : string) (ok : bool) : Co wstate :=
  if ok then finish sg Added (Some video_id)
  else
    q <- read_quota ;;
    if q then finish sg QuotaExceeded (Some video_id)
    else finish sg FailedToAdd (Some video_id).

Definition continue_add (sg : song) (video_id : string) (p : progress bool)
  : Co wstate :=
  match p with
  | Suspend s => ret (InInsert video_id s)
  | Return ok => after_add sg video_id ok
  | Raise => ret (Finished Raised)
  end.

(** [if video_id:] is false for [None] and for the empty string. *)
Definition truthy (video_id : option string) : option string :=
  match video_id with
  | Some EmptyString => None
  | Some v => Some v
  | None => None
  end.

(** Lines 263-282: the worker once [async_search_youtube] has returned. *)
Definition after_search (sg : song) (video_id : option string) : Co wstate :=
  q <- read_quota ;;
  if q then finish sg QuotaExceeded None
  else
    match truthy video_id with
    | Some v =>
        p <- async_add_to_playlist ;;
        continue_add sg v p
    | None =>
        q' <- read_quota ;;
        if q' then finish sg QuotaExceeded None
        else finish sg NotFound None
    end.

Definition continue_search (sg : song) (p : progress (option string))
  : Co wstate :=
  match p with
  | Suspend s => ret (InSearch s)
  | Return v => after_search sg v
  | Raise => ret (Finished Raised)
  end.

(** Lines 252-261: the worker from the moment it holds the semaphore. *)
Definition worker_entry (sg : song) : Co wstate :=
  q <- read_quota ;;
  if q then finish sg QuotaExceeded None
  else
    p <- async_search_youtube ;;
    continue_search sg p.

(** One step of a worker: from a suspension point to the next one.  [None]
    when the input is not what the worker is waiting for. *)
Definition worker_step (sg : song) (st : wstate) (i : input)
  : option (Co wstate) :=
  match st with
  | Waiting =>
      match i with
      | Acquired => Some (worker_entry sg)
      | _ => None
      end
  | InSearch su =>
      match resume_search su i with
      | Some c => Some (p <- c ;; continue_search sg p)
      | None => None
      end
  | InInsert v su =>
      match resume_add su i with
      | Some c => Some (p <- c ;; continue_add sg v p)
      | None => None
      end
  | Finished _ => None
  end.

(** A worker on its own, from state [st], through a list of inputs. *)
Fixpoint worker_run (sg : song) (inputs : list input) (st : wstate)
    (s : shared) : option (wstate * shared) :=
  match inputs with
  | [] => Some (st, s)
  | i :: rest =>
      match worker_step sg st i with
      | Some c => let (st', s') := c s in worker_run sg rest st' s'
      | None => None
      end
  end.

(** ** The tasks run by [asyncio.gather] (lines 354-368) *)

(** The state of a batch: the module-level flag, every task with the song it
    was created for, and the journal of all tasks, each event tagged with the
    position of its task. *)
Record pool := Pool {
  flag : bool;
  tasks : list (song * wstate);
  log : list (nat * event)
}.

(** A task holds the semaphore from its entry until it finishes. *)
Definition holds_semaphore (t : song * wstate) : bool :=
  match snd t with
  | InSearch _ | InInsert _ _ => true
  | Waiting | Finished _ => false
  end.

Definition in_flight (ts : list (song * wstate)) : nat :=
  length (List.filter holds_semaphore ts).

(** [async with semaphore]: a waiting task enters only while fewer than
    [CONCURRENT_REQUESTS] tasks are inside.  (asyncio lets the waiting tasks
    in in the order of their arrival; every order it can produce is a
    schedule below.) *)
Definition may_run (ts : list (song * wstate)) (st : wstate) : bool :=
  match st with
  | Waiting => (in_flight ts <? CONCURRENT_REQUESTS)%nat
  | _ => true
  end.

(** The event loop resumes task [i] with input [inp]. *)
Definition pool_step (i : nat) (inp : input) (p : pool) : option pool :=
  match tasks p !! i with
  | None => None
  | Some (sg, st) =>
      if may_run (tasks p) st then
        match worker_step sg st inp with
        | None => None
        | Some c =>
            let (st', s') := c (Shared (flag p) []) in
            Some {| flag := quota_exceeded s';
                    tasks := <[i := (sg, st')]> (tasks p);
                    log := log p ++ map (pair i) (journal s') |}
        end
      else None
  end.

(** A schedule: which task is resumed with what, in order. *)
Fixpoint pool_exec (schedule : list (nat * input)) (p : pool) : option pool :=
  match schedule with
  | [] => Some p
  | (i, inp) :: rest =>
      match pool_step i inp p with
      | None => None
      | Some p' => pool_exec rest p'
      end
  end.

(** The batch as [gather] starts it. *)
Definition gather_start (q : bool) (created : list song) : pool :=
  {| flag := q; tasks := map (fun sg => (sg, Waiting)) created; log := [] |}.

(** The list [gather] returns, in the order of the tasks, once all are done. *)
Fixpoint gather_results (ts : list (song * wstate)) : option (list result) :=
  match ts with
  | [] => Some []
  | (_, Finished r) :: rest =>
      match gather_results rest with
      | Some rs => Some (r :: rs)
      | None => None
      end
  | _ :: _ => None
  end.

Definition is_request (e : event) : bool :=
  match e with Request _ _ => true | Sleep _ => false end.

Definition is_first_request (e : event) : bool :=
  match e with Request _ O => true | _ => false end.


(** ** JSON values and their text

    The ledger is read with [json.load] and written with
    [json.dump(..., indent=4)].  [Json.load] and [Json.dumps] model the two.
    A Python string is held as the string of its UTF-8 bytes; the text of a
    file is the string of its bytes.  A number with a fraction or an exponent
    is kept as its literal. *)

Inductive json :=
| JNull
| JBool (b : bool)
| JInt (n : Z)
| JFloat (literal : string)
| JStr (s : string)
| JList (l : list json)
| JDict (d : list (string * json)).

Module Json.

Definition code (c : ascii) : N := N_of_ascii c.

Definition hex_digit (n : N) : ascii :=
  ascii_of_N (if (n <? 10)%N then 48 + n else 87 + n)%N.

(** [\uXXXX] for a code point below 65536. *)
Definition u_escape16 (cp : N) : string :=
  String "\" (String "u"
    (String (hex_digit (cp / 4096)) (String (hex_digit ((cp / 256) mod 16))
      (String (hex_digit ((cp / 16) mod 16))
        (String (hex_digit (cp mod 16)) EmptyString)))))%N.

(** The escape of a code point: above 65535 it is a surrogate pair. *)
Definition u_escape (cp : N) : string :=
  if (cp <? 65536)%N then u_escape16 cp
  else u_escape16 (55296 + (cp - 65536) / 1024)%N
       +:+ u_escape16 (56320 + (cp - 65536) mod 1024)%N.

(** [ensure_ascii] escaping of one ASCII character. *)
Definition escape (c : ascii) : string :=
  let n := code c in
  if (n =? 34)%N then String "\" (String c EmptyString)
  else if (n =? 92)%N then "\\"
  else if (n =? 10)%N then "\n"
  else if (n =? 13)%N then "\r"
  else if (n =? 9)%N then "\t"
  else if (n =? 8)%N then "\b"
  else if (n =? 12)%N then "\f"
  else if ((32 <=? n) && (n <=? 126))%N then String c EmptyString
  else u_escape n.

(** The escaped text of a string, decoding its UTF-8 on the way: [acc] is the
    code point read so far and [need] the number of bytes it still lacks.  (A
    byte out of place, which the UTF-8 of a Python string does not have, is
    taken as the code point of its value.) *)
Fixpoint escape_all (acc : N) (need : nat) (s : string) : string :=
  match s with
  | EmptyString => EmptyString
  | String c rest =>
      let n := code c in
      match need with
      | O =>
          if (n <? 128)%N then escape c +:+ escape_all 0 0 rest
          else if (n <? 192)%N then u_escape n +:+ escape_all 0 0 rest
          else if (n <? 224)%N then escape_all (n - 192) 1 rest
          else if (n <? 240)%N then escape_all (n - 224) 2 rest
          else escape_all (n - 240) 3 rest
      | S k =>
          let acc' := (acc * 64 + n mod 64)%N in
          match k with
          | O => u_escape acc' +:+ escape_all 0 0 rest
          | S _ => escape_all acc' k rest
          end
      end
  end.

Definition dquote : ascii := ascii_of_nat 34.

Definition quote (s : string) : string :=
  String dquote (escape_all 0 0 s +:+ String dquote EmptyString).

Fixpoint spaces (n : nat) : string :=
  match n with
  | O => EmptyString
  | S n' => String " " (spaces n')
  end.

(** A line break followed by the indentation of nesting level [lvl]. *)
Definition newline_indent (lvl : nat) : string :=
  String (ascii_of_nat 10) (spaces (4 * lvl)).

Fixpoint encode (lvl : nat) (v : json) {struct v} : string :=
  match v with
  | JNull => "null"
  | JBool true => "true"
  | JBool false => "false"
  | JInt n => pretty n
  | JFloat literal => literal
  | JStr s => quote s
  | JList [] => "[]"
  | JList (x :: xs) =>
      "[" +:+ newline_indent (S lvl) +:+ encode (S lvl) x
      +:+ (fix more (l : list json) : string :=
             match l with
             | [] => EmptyString
             | y :: l' =>
                 "," +:+ newline_indent (S lvl) +:+ encode (S lvl) y +:+ more l'
             end) xs
      +:+ newline_indent lvl +:+ "]"
  | JDict [] => "{}"
  | JDict ((k, x) :: xs) =>
      "{" +:+ newline_indent (S lvl) +:+ quote k +:+ ": " +:+ encode (S lvl) x
      +:+ (fix more (l : list (string * json)) : string :=
             match l with
             | [] => EmptyString
             | (k', y) :: l' =>
                 "," +:+ newline_indent (S lvl) +:+ quote k' +:+ ": "
                 +:+ encode (S lvl) y +:+ more l'
             end) xs
      +:+ newline_indent lvl +:+ "}"
  end.

Definition dumps (v : json) : string := encode 0 v.

(** *** Reading *)

Definition is_ws (c : ascii) : bool :=
  let n := nat_of_ascii c in
  ((n =? 32) || (n =? 9) || (n =? 10) || (n =? 13))%nat.

Fixpoint skip_ws (s : string) : string :=
  match s with
  | String c s' => if is_ws c then skip_ws s' else s
  | EmptyString => s
  end.

Definition is_digit (c : ascii) : bool :=
  let n := nat_of_ascii c in ((48 <=? n) && (n <=? 57))%nat.

Definition hex_value (c : ascii) : option N :=
  let n := code c in
  if ((48 <=? n) && (n <=? 57))%N then Some (n - 48)%N
  else if ((97 <=? n) && (n <=? 102))%N then Some (n - 87)%N
  else if ((65 <=? n) && (n <=? 70))%N then Some (n - 55)%N
  else None.

(** The value of four hexadecimal digits. *)
Definition hex4 (a b c d : ascii) : option N :=
  match hex_value a, hex_value b, hex_value c, hex_value d with
  | Some x, Some y, Some z, Some w => Some (((x * 16 + y) * 16 + z) * 16 + w)%N
  | _, _, _, _ => None
  end.

(** The UTF-8 bytes of a code point (a surrogate is written like any other
    code point of three bytes). *)
Definition utf8_encode (cp : N) : string :=
  if (cp <? 128)%N then String (ascii_of_N cp) EmptyString
  else if (cp <? 2048)%N then
    String (ascii_of_N (192 + cp / 64))
      (String (ascii_of_N (128 + cp mod 64)) EmptyString)
  else if (cp <? 65536)%N then
    String (ascii_of_N (224 + cp / 4096))
      (String (ascii_of_N (128 + (cp / 64) mod 64))
        (String (ascii_of_N (128 + cp mod 64)) EmptyString))
  else
    String (ascii_of_N (240 + cp / 262144))
      (String (ascii_of_N (128 + (cp / 4096) mod 64))
        (String (ascii_of_N (128 + (cp / 64) mod 64))
          (String (ascii_of_N (128 + cp mod 64)) EmptyString))).

Definition is_high_surrogate (cp : N) : bool :=
  ((55296 <=? cp) && (cp <=? 56319))%N.

Definition is_low_surrogate (cp : N) : bool :=
  ((56320 <=? cp) && (cp <=? 57343))%N.

Definition join_surrogates (hi lo : N) : N :=
  (65536 + (hi - 55296) * 1024 + (lo - 56320))%N.

(** The character an escape letter stands for. *)
Definition unescape (e : ascii) : option ascii :=
  if Ascii.eqb e dquote then Some dquote
  else if Ascii.eqb e "\" then Some "\"%char
  else if Ascii.eqb e "/" then Some "/"%char
  else if Ascii.eqb e "b" then Some (ascii_of_nat 8)
  else if Ascii.eqb e "f" then Some (ascii_of_nat 12)
  else if Ascii.eqb e "n" then Some (ascii_of_nat 10)
  else if Ascii.eqb e "r" then Some (ascii_of_nat 13)
  else if Ascii.eqb e "t" then Some (ascii_of_nat 9)
  else None.

(** The characters of a string literal after its opening quote, and the text
    after its closing quote.  [pending] tells that the previous character was
    the backslash of an escape.  A [\u] escape of a high surrogate that is
    followed by the [\u] escape of a low surrogate is read with it as one
    code point. *)
Fixpoint read_string (pending : bool) (s : string) : option (string * string) :=
  match s with
  | EmptyString => None
  | String c rest =>
      if pending then
        if Ascii.eqb c "u" then
          match rest with
          | String a (String b (String h (String l rest1))) =>
              match hex4 a b h l with
              | None => None
              | Some cp =>
                  match rest1 with
                  | String "\" (String "u"
                      (String a2 (String b2 (String h2 (String l2 rest2))))) =>
                      if is_high_surrogate cp then
                        match hex4 a2 b2 h2 l2 with
                        | None => None
                        | Some cp2 =>
                            if is_low_surrogate cp2 then
                              match read_string false rest2 with
                              | Some (t, r) =>
                                  Some (utf8_encode (join_surrogates cp cp2)
                                        +:+ t, r)
                              | None => None
                              end
                            else
                              match read_string false rest1 with
                              | Some (t, r) => Some (utf8_encode cp +:+ t, r)
                              | None => None
                              end
                        end
                      else
                        match read_string false rest1 with
                        | Some (t, r) => Some (utf8_encode cp +:+ t, r)
                        | None => None
                        end
                  | _ =>
                      match read_string false rest1 with
                      | Some (t, r) => Some (utf8_encode cp +:+ t, r)
                      | None => None
                      end
                  end
              end
          | _ => None
          end
        else
          match unescape c with
          | Some c' =>
              match read_string false rest with
              | Some (t, r) => Some (String c' t, r)
              | None => None
              end
          | None => None
          end
      else if Ascii.eqb c dquote then Some (EmptyString, rest)
      else if Ascii.eqb c "\" then read_string true rest
      else if (code c <? 32)%N then None
      else
        match read_string false rest with
        | Some (t, r) => Some (String c t, r)
        | None => None
        end
  end.

Fixpoint span_digits (s : string) : string * string :=
  match s with
  | String c rest =>
      if is_digit c then
        let (ds, r) := span_digits rest in (String c ds, r)
      else (EmptyString, s)
  | EmptyString => (EmptyString, s)
  end.

Fixpoint digits_value (acc : Z) (ds : string) : Z :=
  match ds with
  | EmptyString => acc
  | String c rest => digits_value (10 * acc + Z.of_nat (nat_of_ascii c - 48)) rest
  end.

Definition is_empty (s : string) : bool :=
  match s with EmptyString => true | String _ _ => false end.

(** [0], or a non-zero digit followed by digits. *)
Definition read_int_part (s : string) : option (string * string) :=
  match s with
  | String c rest =>
      if Ascii.eqb c "0" then Some ("0", rest)
      else if is_digit c then
        let (ds, r) := span_digits rest in Some (String c ds, r)
      else None
  | EmptyString => None
  end.

Definition read_frac (s : string) : string * string :=
  match s with
  | String "." rest =>
      let (ds, r) := span_digits rest in
      if is_empty ds then (EmptyString, s) else (String "." ds, r)
  | _ => (EmptyString, s)
  end.

Definition read_exp (s : string) : string * string :=
  match s with
  | String e rest =>
      if Ascii.eqb e "e" || Ascii.eqb e "E" then
        let (sign, rest1) :=
          match rest with
          | String g r' =>
              if Ascii.eqb g "+" || Ascii.eqb g "-"
              then (String g EmptyString, r')
              else (EmptyString, rest)
          | EmptyString => (EmptyString, rest)
          end in
        let (ds, r) := span_digits rest1 in
        if is_empty ds then (EmptyString, s) else (String e (sign +:+ ds), r)
      else (EmptyString, s)
  | EmptyString => (EmptyString, s)
  end.

Definition read_number (s : string) : option (json * string) :=
  let (neg, s1) :=
    match s with
    | String "-" r => (true, r)
    | _ => (false, s)
    end in
  match read_int_part s1 with
  | None => None
  | Some (ip, s2) =>
      let (fr, s3) := read_frac s2 in
      let (ex, s4) := read_exp s3 in
      if is_empty fr && is_empty ex then
        let v := digits_value 0 ip in
        Some (JInt (if neg then - v else v), s4)
      else
        Some (JFloat ((if neg then "-" else EmptyString) +:+ ip +:+ fr +:+ ex), s4)
  end.

Fixpoint strip_prefix (p s : string) : option string :=
  match p, s with
  | EmptyString, _ => Some s
  | String a p', String b s' => if Ascii.eqb a b then strip_prefix p' s' else None
  | String _ _, EmptyString => None
  end.

Definition read_literal (s : string) : option (json * string) :=
  match strip_prefix "null" s with
  | Some r => Some (JNull, r)
  | None =>
  match strip_prefix "true" s with
  | Some r => Some (JBool true, r)
  | None =>
  match strip_prefix "false" s with
  | Some r => Some (JBool false, r)
  | None =>
  match read_number s with
  | Some res => Some res
  | None =>
  match strip_prefix "NaN" s with
  | Some r => Some (JFloat "NaN", r)
  | None =>
  match strip_prefix "Infinity" s with
  | Some r => Some (JFloat "Infinity", r)
  | None =>
  match strip_prefix "-Infinity" s with
  | Some r => Some (JFloat "-Infinity", r)
  | None => None
  end end end end end end end.

(** [d[k] = v] on the members read so far: a key read again keeps its place
    and takes the new value. *)
Fixpoint dict_set (k : string) (v : json) (d : list (string * json))
  : list (string * json) :=
  match d with
  | [] => [(k, v)]
  | (k', v') :: d' =>
      if String.eqb k k' then (k, v) :: d' else (k', v') :: dict_set k v d'
  end.

Definition dict_of_members (kvs : list (string * json)) : list (string * json) :=
  fold_left (fun d kv => dict_set (fst kv) (snd kv) d) kvs [].

Section Containers.
Variable read : string -> option (json * string).

(** The values of an array after its first one is due at [s]. *)
Fixpoint read_elements (n : nat) (s : string) : option (list json * string) :=
  match n with
  | O => None
  | S n' =>
      match read s with
      | None => None
      | Some (v, s1) =>
          match skip_ws s1 with
          | String "," s2 =>
              match read_elements n' (skip_ws s2) with
              | Some (vs, r) => Some (v :: vs, r)
              | None => None
              end
          | String "]" r => Some ([v], r)
          | _ => None
          end
      end
  end.

Fixpoint read_members (n : nat) (s : string)
  : option (list (string * json) * string) :=
  match n with
  | O => None
  | S n' =>
      match s with
      | String c s0 =>
          if Ascii.eqb c dquote then
            match read_string false s0 with
            | None => None
            | Some (k, s1) =>
                match skip_ws s1 with
                | String ":" s2 =>
                    match read (skip_ws s2) with
                    | None => None
                    | Some (v, s3) =>
                        match skip_ws s3 with
                        | String "," s4 =>
                            match read_members n' (skip_ws s4) with
                            | Some (kvs, r) => Some ((k, v) :: kvs, r)
                            | None => None
                            end
                        | String "}" r => Some ([(k, v)], r)
                        | _ => None
                        end
                    end
                | _ => None
                end
            end
          else None
      | EmptyString => None
      end
  end.
End Containers.

Fixpoint read_value (fuel : nat) (s : string) : option (json * string) :=
  match fuel with
  | O => None
  | S fuel' =>
      match s with
      | EmptyString => None
      | String c rest =>
          if Ascii.eqb c dquote then
            match read_string false rest with
            | Some (t, r) => Some (JStr t, r)
            | None => None
            end
          else if Ascii.eqb c "{" then
            match skip_ws rest with
            | String "}" r => Some (JDict [], r)
            | s1 =>
                match read_members (read_value fuel') (String.length s1) s1 with
                | Some (kvs, r) => Some (JDict (dict_of_members kvs), r)
                | None => None
                end
            end
          else if Ascii.eqb c "[" then
            match skip_ws rest with
            | String "]" r => Some (JList [], r)
            | s1 =>
                match read_elements (read_value fuel') (String.length s1) s1 with
                | Some (vs, r) => Some (JList vs, r)
                | None => None
                end
            end
          else read_literal s
      end
  end.

(** [json.loads]: [None] when it raises. *)
Definition loads (text : string) : option json :=
  match read_value (S (String.length text)) (skip_ws text) with
  | Some (v, r) => if is_empty (skip_ws r) then Some v else None
  | None => None
  end.

(** Whether bytes are well-formed UTF-8: [need] bytes of the current
    character are still due, the next of them between [lo] and [hi]. *)
Fixpoint utf8_valid (lo hi : N) (need : nat) (s : string) : bool :=
  match s with
  | EmptyString => match need with O => true | S _ => false end
  | String c rest =>
      let n := code c in
      match need with
      | O =>
          if (n <? 128)%N then utf8_valid 128 191 0 rest
          else if ((194 <=? n) && (n <=? 223))%N then utf8_valid 128 191 1 rest
          else if (n =? 224)%N then utf8_valid 160 191 2 rest
          else if (n =? 237)%N then utf8_valid 128 159 2 rest
          else if ((225 <=? n) && (n <=? 239))%N then utf8_valid 128 191 2 rest
          else if (n =? 240)%N then utf8_valid 144 191 3 rest
          else if ((241 <=? n) && (n <=? 243))%N then utf8_valid 128 191 3 rest
          else if (n =? 244)%N then utf8_valid 128 143 3 rest
          else false
      | S k =>
          if ((lo <=? n) && (n <=? hi))%N then utf8_valid 128 191 k rest
          else false
      end
  end.

(** [json.load] on a file opened for reading as text: the bytes are decoded
    as UTF-8 and the text is parsed; [None] when either raises. *)
Definition load (bytes : string) : option json :=
  if utf8_valid 128 191 0 bytes then loads bytes else None.

End Json.

(** ** Files *)

(** The files of the working directory: path to text. *)
Abbreviation files := (gmap string string).

(** [open(path, "w")] creates the file or empties it in place. *)
Definition open_w (path : string) (fs : files) : files :=
  <[path := EmptyString]> fs.

(** Writing to the open file appends at its end. *)
Definition write (path data : string) (fs : files) : files :=
  alter (fun text => text +:+ data) path fs.

(** ** The progress ledger (lines 290-317) *)

(** The dictionary [json.load] builds from the members of an object: a key
    read twice keeps its last value. *)
Definition dict_of (d : list (string * json)) : gmap string json :=
  list_to_map (reverse d).

Definition str (i : Z) : string := pretty i.

Definition status_str (st : status) : string :=
  match st with
  | Added => "added"
  | NotFound => "not_found"
  | FailedToAdd => "failed_to_add"
  | QuotaExceeded => "quota_exceeded"
  end.

(** The song dictionary of a finished worker, as a JSON value. *)
Definition outcome_json (o : outcome) : json :=
  JDict [("id", JInt (id (song_of o)));
         ("total", JInt (total (song_of o)));
         ("query", JStr (query (song_of o)));
         ("status", JStr (status_str (status_of o)));
         ("video_id", match video_id_of o with
                      | Some v => JStr v
                      | None => JNull
                      end)].

(** The value [set(x)] of a loaded JSON value [x], as far as the declared
    type [Set[int]] goes. *)
Inductive converted (A : Type) :=
| Value (a : A)
| TypeError
| OutsideType.
Arguments Value {A} a.
Arguments TypeError {A}.
Arguments OutsideType {A}.

Definition unhashable (v : json) : bool :=
  match v with
  | JList _ | JDict _ => true
  | _ => false
  end.

Fixpoint as_ints (l : list json) : option (list Z) :=
  match l with
  | [] => Some []
  | JInt n :: l' =>
      match as_ints l' with
      | Some ns => Some (n :: ns)
      | None => None
      end
  | _ :: _ => None
  end.

(** [set] raises [TypeError] on a value that is not iterable and on a list
    with a list or an object in it; of a list of integers it is their set; a
    set with strings, booleans, [null] or floats in it is no [Set[int]]. *)
Definition set_of (v : json) : converted (gset Z) :=
  match v with
  | JList l =>
      if existsb unhashable l then TypeError
      else match as_ints l with
           | Some ns => Value (list_to_set ns)
           | None => OutsideType
           end
  | JStr s => if Json.is_empty s then Value ∅ else OutsideType
  | JDict [] => Value ∅
  | JDict (_ :: _) => OutsideType
  | JNull | JBool _ | JInt _ | JFloat _ => TypeError
  end.

(** [load_progress]: the processed indices and the song data.  Every
    exception gives the empty state.  The result is [None] where the file
    makes the function return something outside its declared type
    [Tuple[Set[int], dict]], which this development does not follow
    further. *)
Definition load_progress (fs : files) : option (gset Z * gmap string json) :=
  match fs !! PROGRESS_FILE with
  | None => Some (∅, ∅)
  | Some text =>
      match Json.load text with
      | Some (JDict data) =>
          match set_of (default (JList []) (dict_of data !! "processed_indices")) with
          | Value processed =>
              match default (JDict []) (dict_of data !! "songs") with
              | JDict songs => Some (processed, dict_of songs)
              | _ => None
              end
          | TypeError => Some (∅, ∅)
          | OutsideType => None
          end
      | Some _ => Some (∅, ∅)
      | None => Some (∅, ∅)
      end
  end.

(** The object handed to [json.dump].  The entries of ["songs"] come in the
    order of the map, where the Python dictionary keeps the order of
    insertion; nothing below depends on their order. *)
Definition ledger_document (now : string) (processed_indices : gset Z)
    (song_data : gmap string json) : json :=
  JDict [("last_updated", JStr now);
         ("processed_indices",
          JList (JInt <$> merge_sort Z.le (elements processed_indices)));
         ("songs", JDict (map_to_list song_data))].

Definition ledger_text (now : string) (processed_indices : gset Z)
    (song_data : gmap string json) : string :=
  Json.dumps (ledger_document now processed_indices song_data).

(** How far a save got: not as far as opening the file, or the file opened
    and the first [n] characters of the text written to it. *)
Inductive save_point :=
| NotOpened
| Written (n : nat).

(** The files when [save_progress] has got as far as [pt]. *)
Definition during_save (pt : save_point) (now : string)
    (processed_indices : gset Z) (song_data : gmap string json) (fs : files)
  : files :=
  match pt with
  | NotOpened => fs
  | Written n =>
      write PROGRESS_FILE
        (substring 0 n (ledger_text now processed_indices song_data))
        (open_w PROGRESS_FILE fs)
  end.

(** What the disk does to a save: it goes through, or [open] raises, or a
    write raises after [n] characters. *)
Inductive disk :=
| Completes
| OpenRaises
| WriteRaises (n : nat).

(** [save_progress]: an exception is logged and the function returns. *)
Definition save_progress (io : disk) (now : string)
    (processed_indices : gset Z) (song_data : gmap string json) (fs : files)
  : files :=
  let stop :=
    match io with
    | Completes =>
        Written (String.length (ledger_text now processed_indices song_data))
    | OpenRaises => NotOpened
    | WriteRaises n => Written n
    end in
  during_save stop now processed_indices song_data fs.

(** ** [main] (lines 320-390) *)

(** Lines 340-345: the songs whose index is not in the processed set. *)
Fixpoint pending_from (total : Z) (i : Z) (queries : list string)
    (processed_indices : gset Z) : list song :=
  match queries with
  | [] => []
  | q :: rest =>
      if decide (i ∈ processed_indices)
      then pending_from total (i + 1) rest processed_indices
      else Song i total q :: pending_from total (i + 1) rest processed_indices
  end.

Definition songs_to_process (spotify_songs : list string)
    (processed_indices : gset Z) : list song :=
  pending_from (Z.of_nat (length spotify_songs)) 1 spotify_songs
    processed_indices.

(** Lines 357-364: one task per song, until the flag is seen set. *)
Fixpoint create_tasks (q : bool) (todo : list song) : list song :=
  match todo with
  | [] => []
  | sg :: rest => if q then [] else sg :: create_tasks q rest
  end.

(** Lines 371-376: results that are exceptions are skipped, the others enter
    the processed set and the song data. *)
Definition merge_result (ledger : gset Z * gmap string json) (res : result)
  : gset Z * gmap string json :=
  match res with
  | Raised => ledger
  | Returned o =>
      ({[ id (song_of o) ]} ∪ ledger.1,
       <[ str (id (song_of o)) := outcome_json o ]> (ledger.2))
  end.

Definition merge_results (results : list result)
    (ledger : gset Z * gmap string json) : gset Z * gmap string json :=
  foldl merge_result ledger results.

(** The collaborators called before the batch: [get_youtube_credentials]
    may write the credentials file, and it or
    [get_or_create_youtube_playlist] may raise. *)
Record setup := Setup {
  credentials_written : option string;
  setup_returns : bool
}.

Definition after_setup (su : setup) (fs : files) : files :=
  match credentials_written su with
  | Some pickled => <[CREDENTIALS_FILE := pickled]> fs
  | None => fs
  end.

(** What a run leaves behind: the files, the songs tasks were created for,
    the batch at its end, and the ledger handed to [save_progress] ([None]
    when the run returned without calling it). *)
Record report := Report {
  files_after : files;
  created : list song;
  batch : option pool;
  saved : option (gset Z * gmap string json)
}.

(** [main].  The schedule is the order in which the event loop resumes the
    tasks of the batch; the result is [None] when the schedule does not bring
    every task to its end (then [gather] has not returned) or when the ledger
    file is outside the declared types. *)
Definition main (spotify_songs : list string) (su : setup) (io : disk)
    (now : string) (schedule : list (nat * input)) (fs : files)
  : option report :=
  let q := false in
  match spotify_songs with
  | [] => Some (Report fs [] None None)
  | _ :: _ =>
      let fs1 := after_setup su fs in
      if negb (setup_returns su) then Some (Report fs1 [] None None)
      else
        match load_progress fs1 with
        | None => None
        | Some (processed_indices, song_data) =>
            match songs_to_process spotify_songs processed_indices with
            | [] => Some (Report fs1 [] None None)
            | todo =>
                match create_tasks q todo with
                | [] => Some (Report fs1 [] None None)
                | tasks0 =>
                    match pool_exec schedule (gather_start q tasks0) with
                    | None => None
                    | Some p =>
                        match gather_results (tasks p) with
                        | None => None
                        | Some results =>
                            let (pi', sd') :=
                              merge_results results
                                (processed_indices, song_data) in
                            Some (Report (save_progress io now pi' sd' fs1)
                                    tasks0 (Some p) (Some (pi', sd')))
                        end
                    end
                end
            end
        end
  end.

(** ** [get_spotify_liked_tracks] (lines 47-80) *)

(** A track object and a saved-track object of the Spotify Web API, as far
    as the function reads them: [item.get("track")], and in the track
    ["name"] and the names of its ["artists"].  [None] stands for a key
    that is missing or [null].  A track is taken to have its list of
    artists, each with a name, as the API documents them; where one is
    missing the function raises, which is not followed here. *)
Record track_object := TrackObject {
  name : option string;
  artists : list string
}.

Record saved_track_object := SavedTrackObject {
  track : option track_object
}.

(** [sp.current_user_saved_tracks(limit=50, offset=offset)], for every
    offset: the ["items"] of the page, or [None] when the call or the
    reading of ["items"] raises. *)
Definition spotify := nat -> option (list saved_track_object).

(** The loop of lines 61-71.  It has no bound of its own: [fuel] counts the
    iterations, and the result is [None] when they do not suffice. *)
Fixpoint fetch_saved_tracks (fuel : nat) (sp : spotify) (offset : nat)
    (results : list saved_track_object) : option (list saved_track_object) :=
  match fuel with
  | O => None
  | S fuel' =>
      match sp offset with
      | None => Some results
      | Some [] => Some results
      | Some items =>
          fetch_saved_tracks fuel' sp (offset + 50) (results ++ items)
      end
  end.

(** Lines 75-79: the query of a saved track, [None] when it is skipped. *)
Definition song_query (item : saved_track_object) : option string :=
  match track item with
  | Some t =>
      match name t with
      | Some n =>
          if Json.is_empty n then None
          else Some (n +:+ " " +:+ String.concat " " (artists t))
      | None => None
      end
  | None => None
  end.

Definition get_spotify_liked_tracks (fuel : nat) (sp : spotify)
  : option (list string) :=
  match fetch_saved_tracks fuel sp 0 [] with
  | Some results => Some (omap song_query results)
  | None => None
  end.

(** ** [get_or_create_youtube_playlist] (lines 106-130) *)

(** A playlist of the account as the function reads it, [item["id"]] and
    [item["snippet"]["title"]], both taken to be there, and a page of the
    listing: its ["items"], none when the key is missing, and its
    ["nextPageToken"]. *)
Record playlist := Playlist {
  playlist_id : string;
  snippet_title : string
}.

Record playlists_page := PlaylistsPage {
  page_items : list playlist;
  nextPageToken : option string
}.

(** The synchronous client: [playlists().list(..., pageToken=t).execute()]
    and [playlists().insert(...).execute()["id"]] for a title, [None] when
    they raise. *)
Record youtube := Youtube {
  playlists_list : option string -> option playlists_page;
  playlists_insert : string -> option string
}.

(** The requests the function sends. *)
Inductive call :=
| ListCall (pageToken : option string)
| InsertCall (title : string).

Inductive scan :=
| Existing (playlist : string)
| NoSuchPlaylist
| ListRaised.

Section Playlists.
(** [s.strip().lower()], the key two titles are compared by. *)
Variable normalize : string -> string.

Definition same_title (title : string) (item : playlist) : bool :=
  String.eqb (normalize (snippet_title item)) (normalize title).

(** The loop of lines 110-122, with the requests it sends.  [fuel] counts
    the pages; the result is [None] when they do not suffice. *)
Fixpoint scan_playlists (fuel : nat) (yt : youtube) (title : string)
    (next_page_token : option string) : option (scan * list call) :=
  match fuel with
  | O => None
  | S fuel' =>
      match playlists_list yt next_page_token with
      | None => Some (ListRaised, [ListCall next_page_token])
      | Some response =>
          match List.find (same_title title) (page_items response) with
          | Some item =>
              Some (Existing (playlist_id item), [ListCall next_page_token])
          | None =>
              match truthy (nextPageToken response) with
              | Some token =>
                  match scan_playlists fuel' yt title (Some token) with
                  | Some (r, calls) =>
                      Some (r, ListCall next_page_token :: calls)
                  | None => None
                  end
              | None => Some (NoSuchPlaylist, [ListCall next_page_token])
              end
          end
      end
  end.

(** The id the function returns ([None] when it raises) and the requests it
    has sent. *)
Definition get_or_create_youtube_playlist (fuel : nat) (yt : youtube)
    (title : string) : option (option string * list call) :=
  match scan_playlists fuel yt title None with
  | None => None
  | Some (Existing playlist, calls) => Some (Some playlist, calls)
  | Some (ListRaised, calls) => Some (None, calls)
  | Some (NoSuchPlaylist, calls) =>
      Some (playlists_insert yt title, calls ++ [InsertCall title])
  end.
End Playlists.

(** * Vocabulary of the properties *)

(** A response with status 403 or 429. *)
Definition rate_limited (r : reply) : bool :=
  match r with
  | Reply st _ => (st =? 403) || (st =? 429)
  | _ => false
  end.

(** A rate-limit response to the last allowed attempt. *)
Definition exhausts (attempt : nat) (r : reply) : bool :=
  rate_limited r && (attempt =? RETRY_ATTEMPTS - 1)%nat.

(** The inputs of a call whose attempts all get the replies [rs] and sleep. *)
Fixpoint retries (rs : list reply) : list input :=
  match rs with
  | [] => []
  | r :: rs' => Got r :: Woken :: retries rs'
  end.

(** The journal of [n] failed attempts from [attempt] on, with the request
    that follows the last sleep: each attempt is a request and a sleep of
    [RETRY_DELAY * 2 ^ attempt]. *)
Fixpoint ladder_journal (e : endpoint) (attempt n : nat) : list event :=
  match n with
  | O => [Request e attempt]
  | S n' =>
      Request e attempt :: Sleep (RETRY_DELAY * 2 ^ Z.of_nat attempt)
      :: ladder_journal e (S attempt) n'
  end.

(** A response that [async_add_to_playlist] takes as success. *)
Definition accepted (r : reply) : bool :=
  match r with
  | Reply st _ => (st =? 200) || (st =? 409)
  | _ => false
  end.

(** Whether resuming a worker in state [st] with input [i] is a client
    receiving a rate-limit response to its last attempt. *)
Definition client_exhausted (st : wstate) (i : input) : bool :=
  match st, i with
  | InSearch (AwaitingReply k), Got r => exhausts k r
  | InInsert _ (AwaitingReply k), Got r => exhausts k r
  | _, _ => false
  end.

(** A song to run a worker on. *)
Definition example_song : song := Song 1 1 "Song Artist".

(** The events of task [i] in a journal of the pool. *)
Definition events_of (i : nat) (l : list (nat * event)) : list event :=
  map snd (List.filter (fun ie => (fst ie =? i)%nat) l).

(** An event a call may still produce once the flag is set: a sleep, or a
    further attempt (not the first) at endpoint [e]. *)
Definition retry_of (e : endpoint) (ev : event) : Prop :=
  match ev with
  | Request e' (S _) => e' = e
  | Request _ O => False
  | Sleep _ => True
  end.

(** What may become, while the flag is set, of a task in state [st]: its
    later state [st'] and the events [evs] it produced in between. *)
Definition after_trip (sg : song) (st st' : wstate) (evs : list event) : Prop :=
  match st with
  | Waiting =>
      evs = []
      /\ (st' = Waiting
          \/ st' = Finished (Returned (Outcome sg QuotaExceeded None)))
  | InSearch _ =>
      Forall (retry_of Search) evs
      /\ match st' with
         | InSearch _ => True
         | Finished Raised => True
         | Finished (Returned o) => o = Outcome sg QuotaExceeded None
         | _ => False
         end
  | InInsert v _ =>
      Forall (retry_of Insert) evs
      /\ match st' with
         | InInsert v' _ => v' = v
         | Finished Raised => True
         | Finished (Returned o) =>
             o = Outcome sg Added (Some v)
             \/ o = Outcome sg QuotaExceeded (Some v)
         | _ => False
         end
  | Finished _ => evs = [] /\ st' = st
  end.

(** The requests of a call that made [n] attempts. *)
Definition ladder (e : endpoint) (n : nat) : list event :=
  map (Request e) (seq 0 n).

(** The requests among the events of a journal. *)
Definition requests (evs : list event) : list event :=
  List.filter is_request evs.

(** How the outcome of a finished worker goes with the number of attempts
    [a] of its search call and [b] of its insert call. *)
Definition calls_match (res : result) (a b : nat) : Prop :=
  match res with
  | Raised => (1 <= a)%nat
  | Returned o =>
      match status_of o, video_id_of o with
      | QuotaExceeded, None => b = 0%nat
      | NotFound, None => (1 <= a)%nat /\ b = 0%nat
      | (Added | FailedToAdd | QuotaExceeded), Some _ =>
          (1 <= a)%nat /\ (1 <= b)%nat
      | _, _ => False
      end
  end.

(** The requests a worker in state [st] has made so far. *)
Definition trace_ok (st : wstate) (rq : list event) : Prop :=
  match st with
  | Waiting => rq = []
  | InSearch (AwaitingReply k) =>
      (k < RETRY_ATTEMPTS)%nat /\ rq = ladder Search (S k)
  | InSearch (Sleeping k) =>
      (S k < RETRY_ATTEMPTS)%nat /\ rq = ladder Search (S k)
  | InInsert _ (AwaitingReply k) =>
      (k < RETRY_ATTEMPTS)%nat
      /\ exists a, (1 <= a <= RETRY_ATTEMPTS)%nat
           /\ rq = ladder Search a ++ ladder Insert (S k)
  | InInsert _ (Sleeping k) =>
      (S k < RETRY_ATTEMPTS)%nat
      /\ exists a, (1 <= a <= RETRY_ATTEMPTS)%nat
           /\ rq = ladder Search a ++ ladder Insert (S k)
  | Finished res =>
      exists a b, (a <= RETRY_ATTEMPTS)%nat /\ (b <= RETRY_ATTEMPTS)%nat
        /\ rq = ladder Search a ++ ladder Insert b
        /\ calls_match res a b
  end.

(** The requests of task [i] in a journal of the pool. *)
Definition requests_of (i : nat) (l : list (nat * event)) : list event :=
  requests (events_of i l).


(** Every task of the pool has made the requests that go with its state. *)
Definition pool_traces_ok (p : pool) : Prop :=
  forall i sg st, tasks p !! i = Some (sg, st) ->
    trace_ok st (requests_of i (log p)).

(** A batch of three tasks with the flag set: one that has not entered, one
    asleep in its search ladder, one waiting on its insert. *)
Definition tripped_pool : pool :=
  {| flag := true;
     tasks := [(Song 1 3 "a", Waiting);
               (Song 2 3 "b", InSearch (Sleeping 0));
               (Song 3 3 "c", InInsert "v3" (AwaitingReply 0))];
     log := [(1%nat, Request Search 0); (2%nat, Request Search 0);
             (1%nat, Sleep 5); (2%nat, Request Insert 0)] |}.

Definition tripped_schedule : list (nat * input) :=
  [(0%nat, Acquired); (1%nat, Woken); (2%nat, Got (Reply 200 []));
   (1%nat, Got (Reply 200 [Item "b" "v2"]))].

Definition tripped_pool_end : pool :=
  {| flag := true;
     tasks := [(Song 1 3 "a",
                Finished (Returned (Outcome (Song 1 3 "a") QuotaExceeded None)));
               (Song 2 3 "b",
                Finished (Returned (Outcome (Song 2 3 "b") QuotaExceeded None)));
               (Song 3 3 "c",
                Finished (Returned (Outcome (Song 3 3 "c") Added (Some "v3"))))];
     log := log tripped_pool ++ [(1%nat, Request Search 1)] |}.

(** Two songs whose searches are both rate limited.  The first response to
    the second song is slow: it arrives, and the second task goes to sleep,
    just before the first task uses up its third attempt. *)
Definition two_songs : list song := [Song 1 2 "a"; Song 2 2 "b"].

Definition trip_schedule : list (nat * input) :=
  [(0%nat, Acquired); (1%nat, Acquired);
   (0%nat, Got (Reply 429 [])); (0%nat, Woken);
   (0%nat, Got (Reply 429 [])); (0%nat, Woken);
   (1%nat, Got (Reply 429 []));
   (0%nat, Got (Reply 429 []))].

Definition pool_at_trip : pool :=
  {| flag := true;
     tasks := [(Song 1 2 "a",
                Finished (Returned (Outcome (Song 1 2 "a") QuotaExceeded None)));
               (Song 2 2 "b", InSearch (Sleeping 0))];
     log := [(0%nat, Request Search 0); (1%nat, Request Search 0);
             (0%nat, Sleep 5); (0%nat, Request Search 1);
             (0%nat, Sleep 10); (0%nat, Request Search 2);
             (1%nat, Sleep 5)] |}.

(** Three songs: a match that is added, a search without result, and a
    search rate limited three times. *)
Definition three_songs : list song :=
  [Song 1 3 "a"; Song 2 3 "b"; Song 3 3 "c"].

Definition three_schedule : list (nat * input) :=
  [(0%nat, Acquired); (1%nat, Acquired); (2%nat, Acquired);
   (0%nat, Got (Reply 200 [Item "a" "v1"])); (1%nat, Got (Reply 200 []));
   (0%nat, Got (Reply 200 []));
   (2%nat, Got (Reply 403 [])); (2%nat, Woken);
   (2%nat, Got (Reply 403 [])); (2%nat, Woken);
   (2%nat, Got (Reply 403 []))].

Definition three_pool_end : pool :=
  {| flag := true;
     tasks := [(Song 1 3 "a",
                Finished (Returned (Outcome (Song 1 3 "a") Added (Some "v1"))));
               (Song 2 3 "b",
                Finished (Returned (Outcome (Song 2 3 "b") NotFound None)));
               (Song 3 3 "c",
                Finished (Returned (Outcome (Song 3 3 "c") QuotaExceeded None)))];
     log := [(0%nat, Request Search 0); (1%nat, Request Search 0);
             (2%nat, Request Search 0); (0%nat, Request Insert 0);
             (2%nat, Sleep 5); (2%nat, Request Search 1);
             (2%nat, Sleep 10); (2%nat, Request Search 2)] |}.

(** Five liked songs, the first two of them in the ledger of an earlier
    run. *)
Definition five_songs : list string :=
  ["one a"; "two b"; "three c"; "four d"; "five e"].

Definition ledger_1_2 : gset Z * gmap string json :=
  merge_results
    [Returned (Outcome (Song 1 5 "one a") Added (Some "v1"));
     Returned (Outcome (Song 2 5 "two b") NotFound None)] (∅, ∅).

Definition files_1_2 : files :=
  {[ PROGRESS_FILE := ledger_text "2026-01-01 10:00:00" ledger_1_2.1 ledger_1_2.2 ]}.

Definition resume_schedule : list (nat * input) :=
  [(0%nat, Acquired); (1%nat, Acquired); (2%nat, Acquired);
   (0%nat, Got (Reply 200 [Item "three" "v3"])); (0%nat, Got (Reply 200 []));
   (1%nat, Got (Reply 200 [])); (2%nat, Got (Reply 500 []))].

(** The processed indices are the keys of the song data, an index [i] being
    the key [str i]. *)
Definition ledger_consistent (ledger : gset Z * gmap string json) : Prop :=
  dom ledger.2 = set_map str ledger.1.

(** A ledger file with an index in its processed list and no ["songs"]
    member, for which [load_progress] has its default. *)
Definition lone_index_file : files :=
  {[ PROGRESS_FILE :=
       Json.dumps (JDict [("last_updated", JStr "2026-01-01 10:00:00");
                          ("processed_indices", JList [JInt 1])]) ]}.

(** The ledger file lists index [i] as processed. *)
Definition recorded (i : Z) (fs : files) : Prop :=
  exists pi sd, load_progress fs = Some (pi, sd) /\ i ∈ pi.

(** The save of a run, if it made one, went through, and the file reads back
    as the document that was written. *)
Definition save_reads_back (now : string) (r : report) : Prop :=
  match saved r with
  | None => True
  | Some (pi, sd) =>
      files_after r !! PROGRESS_FILE = Some (ledger_text now pi sd)
      /\ Json.load (ledger_text now pi sd) = Some (ledger_document now pi sd)
  end.

(** Runs that follow one another on the same files, each with a save that
    reads back. *)
Inductive later_runs : files -> list report -> Prop :=
| later_none fs : later_runs fs []
| later_run fs songs su io now schedule r rest :
    main songs su io now schedule fs = Some r ->
    save_reads_back now r ->
    later_runs (files_after r) rest ->
    later_runs fs (r :: rest).

(** The three songs left of [five_songs]: an insert refused with status 500,
    a search without result, and a search rate limited three times. *)
Definition mixed_schedule : list (nat * input) :=
  [(0%nat, Acquired); (1%nat, Acquired); (2%nat, Acquired);
   (0%nat, Got (Reply 200 [Item "three" "v3"])); (0%nat, Got (Reply 500 []));
   (1%nat, Got (Reply 200 []));
   (2%nat, Got (Reply 429 [])); (2%nat, Woken);
   (2%nat, Got (Reply 429 [])); (2%nat, Woken);
   (2%nat, Got (Reply 429 []))].

(** The ledger of [files_1_2] with the third song added to it. *)
Definition ledger_1_2_3 : gset Z * gmap string json :=
  merge_results
    [Returned (Outcome (Song 3 5 "three c") Added (Some "v3"))] ledger_1_2.

(** A schedule for all five of [five_songs], one after the other, each
    search without result. *)
Definition five_schedule : list (nat * input) :=
  [(0%nat, Acquired); (0%nat, Got (Reply 200 []));
   (1%nat, Acquired); (1%nat, Got (Reply 200 []));
   (2%nat, Acquired); (2%nat, Got (Reply 200 []));
   (3%nat, Acquired); (3%nat, Got (Reply 200 []));
   (4%nat, Acquired); (4%nat, Got (Reply 200 []))].

(** * Vocabulary of the further properties *)

(** A reply after which a client tries again, when it has attempts left: a
    rate-limit status or a network error. *)
Definition retryable (r : reply) : bool :=
  rate_limited r ||
  match r with
  | RaisesClientError => true
  | _ => false
  end.

(** The sleep that follows reply [r] to [attempt]: doubling for a rate-limit
    status, fixed for a network error. *)
Definition backoff (attempt : nat) (r : reply) : Z :=
  if rate_limited r then RETRY_DELAY * 2 ^ Z.of_nat attempt else RETRY_DELAY.

(** The journal of a call whose attempts from [attempt] on got the replies
    [rs], with the request that follows the last sleep. *)
Fixpoint backoff_journal (e : endpoint) (attempt : nat) (rs : list reply)
  : list event :=
  match rs with
  | [] => [Request e attempt]
  | r :: rs' =>
      Request e attempt :: Sleep (backoff attempt r)
      :: backoff_journal e (S attempt) rs'
  end.

(** A reply to search attempt [k] that ends the search without a usable match
    and without touching the flag: an empty result, a match without id, a
    status other than 200, 403 and 429, or a network error on the last
    attempt. *)
Definition search_gives_up (k : nat) (r : reply) : bool :=
  match r with
  | Reply st items =>
      if st =? 200 then
        match items with
        | [] => true
        | x :: rest => Json.is_empty (videoId (max_by_score x rest))
        end
      else negb ((st =? 403) || (st =? 429))
  | RaisesClientError => (k =? RETRY_ATTEMPTS - 1)%nat
  | RaisesOther => false
  end.

(** A reply to insert attempt [k] that ends the insert as a failure without
    touching the flag. *)
Definition insert_gives_up (k : nat) (r : reply) : bool :=
  match r with
  | Reply st _ =>
      negb ((st =? 200) || (st =? 409) || (st =? 403) || (st =? 429))
  | RaisesClientError => (k =? RETRY_ATTEMPTS - 1)%nat
  | RaisesOther => false
  end.

(** Whether the title of an item has "live" in it, whatever the case. *)
Definition is_live (it : item) : bool := contains "live" (lower (title it)).

(** The inputs a suspended client call can still take, at most: a reply and
    a wake-up for each attempt left but the last, a reply for the last. *)
Definition client_budget (su : suspended) : nat :=
  match su with
  | AwaitingReply k =>
      if (k <? RETRY_ATTEMPTS)%nat then 2 * (RETRY_ATTEMPTS - k) - 1 else 2
  | Sleeping k =>
      if (S k <? RETRY_ATTEMPTS)%nat then 2 * (RETRY_ATTEMPTS - k) - 2 else 1
  end%nat.

(** The inputs a task can still take, at most. *)
Definition task_budget (st : wstate) : nat :=
  match st with
  | Waiting => 4 * RETRY_ATTEMPTS - 1
  | InSearch su => client_budget su + (2 * RETRY_ATTEMPTS - 1)
  | InInsert _ su => client_budget su
  | Finished _ => 0
  end%nat.

Definition batch_budget (ts : list (song * wstate)) : nat :=
  sum_list_with (fun t => task_budget t.2) ts.

(** The steps of a schedule that resume task [i]. *)
Definition steps_of (i : nat) (schedule : list (nat * input))
  : list (nat * input) :=
  List.filter (fun step => (step.1 =? i)%nat) schedule.

(** What the dictionary a worker returns looks like, for the song [sg] the
    task was created with. *)
Definition outcome_shape (sg : song) (o : outcome) : Prop :=
  song_of o = sg
  /\ match status_of o with
     | Added | FailedToAdd =>
         exists v, video_id_of o = Some v /\ v <> EmptyString
     | NotFound => video_id_of o = None
     | QuotaExceeded => True
     end.

(** Twelve songs, and the schedule that lets the first ten of them in. *)
Definition twelve_songs : list song :=
  (fun i => Song i 12 "s") <$> seqZ 1 12.

Definition ten_enter : list (nat * input) :=
  (fun i => (i, Acquired)) <$> seq 0 10.

(** The input a task in state [st] is waiting for. *)
Definition expects (st : wstate) (inp : input) : bool :=
  match st, inp with
  | Waiting, Acquired => true
  | InSearch (AwaitingReply _), Got _ => true
  | InInsert _ (AwaitingReply _), Got _ => true
  | InSearch (Sleeping _), Woken => true
  | InInsert _ (Sleeping _), Woken => true
  | _, _ => false
  end.

Definition unfinished (st : wstate) : bool :=
  match st with
  | Finished _ => false
  | _ => true
  end.

(** What holds of a task of a batch whose flag is [f]. *)
Definition task_ok (f : bool) (sg : song) (st : wstate) : Prop :=
  match st with
  | InInsert v _ => v <> EmptyString
  | Finished (Returned o) =>
      outcome_shape sg o /\ (status_of o = QuotaExceeded -> f = true)
  | _ => True
  end.

(** The three songs left of [five_songs]: a match that is added, a worker
    that raises on its search, and a search without result; and the next
    run, whose one task finds nothing. *)
Definition raise_schedule : list (nat * input) :=
  [(0%nat, Acquired); (1%nat, Acquired); (2%nat, Acquired);
   (0%nat, Got (Reply 200 [Item "three" "v3"])); (1%nat, Got RaisesOther);
   (0%nat, Got (Reply 200 [])); (2%nat, Got (Reply 200 []))].

Definition retry_schedule : list (nat * input) :=
  [(0%nat, Acquired); (0%nat, Got (Reply 200 []))].

(** The Spotify service of a library [saved]: a page is the next fifty
    saved tracks from the offset. *)
Definition library (saved : list saved_track_object) : spotify :=
  fun offset => Some (take 50 (drop offset saved)).

(** The same service when every request from page [k] on raises. *)
Definition library_failing (k : nat) (saved : list saved_track_object)
  : spotify :=
  fun offset => if (offset <? 50 * k)%nat then library saved offset else None.

(** A library of [n] tracks, track [i] named by its number. *)
Definition numbered_library (n : nat) : list saved_track_object :=
  (fun i => SavedTrackObject (Some (TrackObject (Some (pretty i)) ["x"])))
  <$> seq 0 n.

(** The pages the listing of the playlists goes through from a page token
    on, when no request raises: each page names the next, the last none. *)
Inductive served (yt : youtube) : option string -> list playlists_page -> Prop :=
| served_last token page :
    playlists_list yt token = Some page ->
    truthy (nextPageToken page) = None ->
    served yt token [page]
| served_next token page token' rest :
    playlists_list yt token = Some page ->
    truthy (nextPageToken page) = Some token' ->
    served yt (Some token') rest ->
    served yt token (page :: rest).

Definition is_list_call (c : call) : bool :=
  match c with ListCall _ => true | InsertCall _ => false end.

(** An account of two pages, and the id the service gives a new playlist. *)
Definition two_pages : youtube :=
  {| playlists_list := fun token =>
       match token with
       | None => Some (PlaylistsPage [Playlist "p1" "Workout"] (Some "t2"))
       | Some _ =>
           Some (PlaylistsPage [Playlist "p2" "spotify liked songs";
                                Playlist "p3" "Spotify Liked Songs"] None)
       end;
     playlists_insert := fun _ => Some "new" |}.

(** The longest sleep of a retry ladder: the one before the last attempt. *)
Definition longest_sleep : Z := RETRY_DELAY * 2 ^ Z.of_nat (RETRY_ATTEMPTS - 2).

Definition sleep_within (e : event) : bool :=
  match e with
  | Sleep seconds => (RETRY_DELAY <=? seconds) && (seconds <=? longest_sleep)
  | Request _ _ => true
  end.

(** A string that is the UTF-8 of a Python string without lone
    surrogates. *)
Definition utf8 (s : string) : bool := Json.utf8_valid 128 191 0 s.

(** The JSON values [json.dump] writes and [json.load] reads back as they
    were: strings in UTF-8, no key twice in an object, and no number with
    a fraction or an exponent. *)
Fixpoint plain (v : json) : bool :=
  match v with
  | JNull | JBool _ | JInt _ => true
  | JFloat _ => false
  | JStr s => utf8 s
  | JList l => forallb plain l
  | JDict d =>
      bool_decide (NoDup d.*1)
      && forallb (fun kv => utf8 kv.1 && plain kv.2) d
  end.

Fixpoint all_digits (s : string) : bool :=
  match s with
  | EmptyString => true
  | String c rest => Json.is_digit c && all_digits rest
  end.

Fixpoint ascii_only (s : string) : bool :=
  match s with
  | EmptyString => true
  | String c rest => (Json.code c <? 128)%N && ascii_only rest
  end.

(** What follows a value in the text [json.dump] writes: the end of the
    text, a comma, or a line break. *)
Definition delimited (rest : string) : bool :=
  match rest with
  | EmptyString => true
  | String c _ => Ascii.eqb c "," || Ascii.eqb c (ascii_of_nat 10)
  end.

(** The text of the elements of an array after the first, and of the
    members of an object after the first, as [Json.encode] writes them. *)
Fixpoint more_elements (lvl : nat) (l : list json) : string :=
  match l with
  | [] => EmptyString
  | y :: l' =>
      "," +:+ Json.newline_indent (S lvl) +:+ Json.encode (S lvl) y
      +:+ more_elements lvl l'
  end.

Fixpoint more_members (lvl : nat) (l : list (string * json)) : string :=
  match l with
  | [] => EmptyString
  | (k, y) :: l' =>
      "," +:+ Json.newline_indent (S lvl) +:+ Json.quote k +:+ ": "
      +:+ Json.encode (S lvl) y +:+ more_members lvl l'
  end.

(** Song data that [json.dump] writes so that it reads back: keys and
    strings in UTF-8, plain values. *)
Definition ledger_plain (song_data : gmap string json) : Prop :=
  forall k v, song_data !! k = Some v -> utf8 k = true /\ plain v = true.

(** A value with an accented letter, a sign outside the basic plane, a
    control character and a quote in its strings. *)
Definition sample_value : json :=
  JDict [("title",
          JStr ("Caf" +:+ String (ascii_of_nat 195)
                  (String (ascii_of_nat 169) " ")
                +:+ String (ascii_of_nat 240) (String (ascii_of_nat 159)
                      (String (ascii_of_nat 142) (String (ascii_of_nat 181)
                        (String (ascii_of_nat 9)
                          (String (ascii_of_nat 34) EmptyString)))))));
         ("ids", JList [JInt 0; JInt (-12); JInt 2026]);
         ("none", JNull); ("empty", JDict []); ("flags", JList [JBool true])].

(** A character that can go on a number, and a text that begins with a
    character that cannot. *)
Definition number_char (c : ascii) : bool :=
  Json.is_digit c || Ascii.eqb c "." || Ascii.eqb c "e" || Ascii.eqb c "E"
  || Ascii.eqb c "+" || Ascii.eqb c "-".

Definition stops (rest : string) : bool :=
  match rest with
  | EmptyString => false
  | String c _ => negb (number_char c)
  end.

(** The values whose text ends with a character of its own: a quote, a
    bracket, a brace or the last letter of a literal. *)
Definition self_delimiting (v : json) : bool :=
  match v with
  | JInt _ | JFloat _ => false
  | _ => true
  end.

(** Replies whose video ids are UTF-8, and the states and outcomes that
    come of them. *)
Definition reply_utf8 (r : reply) : bool :=
  match r with
  | Reply _ items => forallb (fun it => utf8 (videoId it)) items
  | _ => true
  end.

Definition input_utf8 (inp : input) : bool :=
  match inp with
  | Got r => reply_utf8 r
  | _ => true
  end.

Definition wstate_utf8 (st : wstate) : Prop :=
  match st with
  | InInsert v _ => utf8 v = true
  | Finished (Returned o) =>
      match video_id_of o with
      | Some v => utf8 v = true
      | None => True
      end
  | _ => True
  end.

(** * Properties *)

(** ** The retry ladder of the clients *)

Lemma RETRY_ATTEMPTS_pos : (0 < RETRY_ATTEMPTS)%nat.
Proof. unfold RETRY_ATTEMPTS. lia. Qed.

Lemma rate_limited_not_ok st items :
  rate_limited (Reply st items) = true ->
  (st =? 200) = false /\ (st =? 409) = false
  /\ ((st =? 403) || (st =? 429)) = true.
Proof.
  simpl. intros H. repeat split; [| | exact H];
    apply Z.eqb_neq; intros ->; discriminate H.
Qed.

Lemma search_attempt_sends k s :
  (k < RETRY_ATTEMPTS)%nat ->
  search_attempt k s =
    (Suspend (AwaitingReply k),
     Shared (quota_exceeded s) (journal s ++ [Request Search k])).
Proof.
  intros Hk. unfold search_attempt.
  apply Nat.ltb_lt in Hk. rewrite Hk. reflexivity.
Qed.

Lemma add_attempt_sends k s :
  (k < RETRY_ATTEMPTS)%nat ->
  add_attempt k s =
    (Suspend (AwaitingReply k),
     Shared (quota_exceeded s) (journal s ++ [Request Insert k])).
Proof.
  intros Hk. unfold add_attempt.
  apply Nat.ltb_lt in Hk. rewrite Hk. reflexivity.
Qed.

Lemma search_on_rate_limit k r s :
  rate_limited r = true -> (k < RETRY_ATTEMPTS - 1)%nat ->
  search_on_reply k r s =
    (Suspend (Sleeping k),
     Shared (quota_exceeded s)
       (journal s ++ [Sleep (RETRY_DELAY * 2 ^ Z.of_nat k)])).
Proof.
  intros Hr Hk. destruct r as [st items| |]; try discriminate.
  destruct (rate_limited_not_ok _ _ Hr) as (H200 & _ & Hrl).
  unfold search_on_reply. rewrite H200, Hrl.
  assert ((k =? RETRY_ATTEMPTS - 1)%nat = false) as ->
    by (apply Nat.eqb_neq; lia).
  reflexivity.
Qed.

Lemma add_on_rate_limit k r s :
  rate_limited r = true -> (k < RETRY_ATTEMPTS - 1)%nat ->
  add_on_reply k r s =
    (Suspend (Sleeping k),
     Shared (quota_exceeded s)
       (journal s ++ [Sleep (RETRY_DELAY * 2 ^ Z.of_nat k)])).
Proof.
  intros Hr Hk. destruct r as [st items| |]; try discriminate.
  destruct (rate_limited_not_ok _ _ Hr) as (H200 & H409 & Hrl).
  unfold add_on_reply. rewrite H200, H409, Hrl.
  assert ((k =? RETRY_ATTEMPTS - 1)%nat = false) as ->
    by (apply Nat.eqb_neq; lia).
  reflexivity.
Qed.

Lemma search_on_last_rate_limit r s :
  rate_limited r = true ->
  search_on_reply (RETRY_ATTEMPTS - 1) r s =
    (Return None, Shared true (journal s)).
Proof.
  intros Hr. destruct r as [st items| |]; try discriminate.
  destruct (rate_limited_not_ok _ _ Hr) as (H200 & _ & Hrl).
  unfold search_on_reply. rewrite H200, Hrl, Nat.eqb_refl. reflexivity.
Qed.

Lemma add_on_last_rate_limit r s :
  rate_limited r = true ->
  add_on_reply (RETRY_ATTEMPTS - 1) r s =
    (Return false, Shared true (journal s)).
Proof.
  intros Hr. destruct r as [st items| |]; try discriminate.
  destruct (rate_limited_not_ok _ _ Hr) as (H200 & H409 & Hrl).
  unfold add_on_reply. rewrite H200, H409, Hrl, Nat.eqb_refl. reflexivity.
Qed.

Lemma search_entry_clear j :
  async_search_youtube (Shared false j) = search_attempt 0 (Shared false j).
Proof. reflexivity. Qed.

Lemma add_entry_clear j :
  async_add_to_playlist (Shared false j) = add_attempt 0 (Shared false j).
Proof. reflexivity. Qed.

Lemma worker_entry_clear sg j :
  worker_entry sg (Shared false j) =
    (let (p, s) := search_attempt 0 (Shared false j) in continue_search sg p s).
Proof. reflexivity. Qed.

Lemma after_search_tripped sg v j :
  after_search sg v (Shared true j) =
    (Finished (Returned (Outcome sg QuotaExceeded None)), Shared true j).
Proof. reflexivity. Qed.

Lemma after_search_found sg v w j :
  truthy v = Some w ->
  after_search sg v (Shared false j) =
    (let (p, s) := add_attempt 0 (Shared false j) in continue_add sg w p s).
Proof.
  intros Hv. unfold after_search, bind at 1, read_quota.
  cbn [quota_exceeded]. rewrite Hv. reflexivity.
Qed.

Lemma after_search_missing sg v j :
  truthy v = None ->
  after_search sg v (Shared false j) =
    (Finished (Returned (Outcome sg NotFound None)), Shared false j).
Proof.
  intros Hv. unfold after_search, bind at 1, read_quota.
  cbn [quota_exceeded]. rewrite Hv. reflexivity.
Qed.

Lemma truthy_nonempty v : v <> EmptyString -> truthy (Some v) = Some v.
Proof. destruct v; [congruence|reflexivity]. Qed.

(** [n] rate-limited attempts in a row, none of them the last allowed one:
    the call sleeps after each and is then waiting on attempt [k + n]. *)
Lemma search_ladder rs : forall k s tail,
  (k + length rs < RETRY_ATTEMPTS)%nat ->
  Forall (fun r => rate_limited r = true) rs ->
  feed resume_search (retries rs ++ tail) (Suspend (AwaitingReply k))
    (Shared (quota_exceeded s) (journal s ++ [Request Search k])) =
  feed resume_search tail (Suspend (AwaitingReply (k + length rs)))
    (Shared (quota_exceeded s)
       (journal s ++ ladder_journal Search k (length rs))).
Proof.
  induction rs as [|r rs IH]; intros k s tail Hk Hrs.
  - simpl. rewrite Nat.add_0_r. reflexivity.
  - inversion Hrs as [|? ? Hr Hrs']; subst. simpl in Hk.
    cbn [retries app feed resume_search length ladder_journal].
    rewrite search_on_rate_limit by (done || lia).
    cbn [feed resume_search].
    rewrite search_attempt_sends by lia.
    cbn [quota_exceeded journal].
    specialize (IH (S k)
      (Shared (quota_exceeded s)
         (journal s ++ [Request Search k;
                        Sleep (RETRY_DELAY * 2 ^ Z.of_nat k)])) tail).
    cbn [quota_exceeded journal] in IH.
    rewrite <- !app_assoc in *. cbn [app] in *.
    rewrite IH by (done || lia).
    replace (S k + length rs)%nat with (k + S (length rs))%nat by lia.
    reflexivity.
Qed.

Lemma add_ladder rs : forall k s tail,
  (k + length rs < RETRY_ATTEMPTS)%nat ->
  Forall (fun r => rate_limited r = true) rs ->
  feed resume_add (retries rs ++ tail) (Suspend (AwaitingReply k))
    (Shared (quota_exceeded s) (journal s ++ [Request Insert k])) =
  feed resume_add tail (Suspend (AwaitingReply (k + length rs)))
    (Shared (quota_exceeded s)
       (journal s ++ ladder_journal Insert k (length rs))).
Proof.
  induction rs as [|r rs IH]; intros k s tail Hk Hrs.
  - simpl. rewrite Nat.add_0_r. reflexivity.
  - inversion Hrs as [|? ? Hr Hrs']; subst. simpl in Hk.
    cbn [retries app feed resume_add length ladder_journal].
    rewrite add_on_rate_limit by (done || lia).
    cbn [feed resume_add].
    rewrite add_attempt_sends by lia.
    cbn [quota_exceeded journal].
    specialize (IH (S k)
      (Shared (quota_exceeded s)
         (journal s ++ [Request Insert k;
                        Sleep (RETRY_DELAY * 2 ^ Z.of_nat k)])) tail).
    cbn [quota_exceeded journal] in IH.
    rewrite <- !app_assoc in *. cbn [app] in *.
    rewrite IH by (done || lia).
    replace (S k + length rs)%nat with (k + S (length rs))%nat by lia.
    reflexivity.
Qed.

(** A worker inside its search call follows the call, and goes on from what
    the call returns. *)
Lemma worker_run_search sg inputs : forall su s p' s' tail,
  feed resume_search inputs (Suspend su) s = Some (p', s') ->
  worker_run sg (inputs ++ tail) (InSearch su) s =
    (let (st, s'') := continue_search sg p' s' in worker_run sg tail st s'').
Proof.
  induction inputs as [|i inputs IH]; intros su s p' s' tail Hfeed.
  - simpl in Hfeed. injection Hfeed as <- <-. reflexivity.
  - cbn [feed] in Hfeed. cbn [app worker_run worker_step].
    destruct (resume_search su i) as [c|]; [|discriminate].
    unfold bind at 1. destruct (c s) as [p1 s1].
    destruct p1 as [su1|v|].
    + cbn [continue_search]. unfold ret at 1. by apply IH.
    + destruct inputs; [|discriminate]. cbn [feed] in Hfeed.
      injection Hfeed as <- <-. reflexivity.
    + destruct inputs; [|discriminate]. cbn [feed] in Hfeed.
      injection Hfeed as <- <-. reflexivity.
Qed.

Lemma worker_run_add sg v inputs : forall su s p' s' tail,
  feed resume_add inputs (Suspend su) s = Some (p', s') ->
  worker_run sg (inputs ++ tail) (InInsert v su) s =
    (let (st, s'') := continue_add sg v p' s' in worker_run sg tail st s'').
Proof.
  induction inputs as [|i inputs IH]; intros su s p' s' tail Hfeed.
  - simpl in Hfeed. injection Hfeed as <- <-. reflexivity.
  - cbn [feed] in Hfeed. cbn [app worker_run worker_step].
    destruct (resume_add su i) as [c|]; [|discriminate].
    unfold bind at 1. destruct (c s) as [p1 s1].
    destruct p1 as [su1|ok|].
    + cbn [continue_add]. unfold ret at 1. by apply IH.
    + destruct inputs; [|discriminate]. cbn [feed] in Hfeed.
      injection Hfeed as <- <-. reflexivity.
    + destruct inputs; [|discriminate]. cbn [feed] in Hfeed.
      injection Hfeed as <- <-. reflexivity.
Qed.

Lemma add_on_accepted k r s :
  accepted r = true -> add_on_reply k r s = (Return true, s).
Proof.
  destruct r as [st items| |]; try discriminate. simpl.
  intros H. unfold add_on_reply.
  destruct (st =? 200); [reflexivity|].
  destruct (st =? 409); [reflexivity|discriminate].
Qed.

Lemma search_call_retries rs tail :
  length rs = (RETRY_ATTEMPTS - 1)%nat ->
  Forall (fun r => rate_limited r = true) rs ->
  search_call (retries rs ++ tail) (Shared false []) =
    feed resume_search tail (Suspend (AwaitingReply (RETRY_ATTEMPTS - 1)))
      (Shared false (ladder_journal Search 0 (RETRY_ATTEMPTS - 1))).
Proof.
  intros Hlen Hrs. pose proof RETRY_ATTEMPTS_pos as Hpos.
  unfold search_call. rewrite search_entry_clear.
  rewrite search_attempt_sends by done.
  pose proof (search_ladder rs 0 (Shared false []) tail) as H.
  cbn [quota_exceeded journal app] in *.
  rewrite H by (done || lia). rewrite Hlen. reflexivity.
Qed.

Lemma worker_entry_search sg inputs p' s' tail :
  search_call inputs (Shared false []) = Some (p', s') ->
  worker_run sg (Acquired :: inputs ++ tail) Waiting (Shared false []) =
    (let (st, s'') := continue_search sg p' s' in worker_run sg tail st s'').
Proof.
  pose proof RETRY_ATTEMPTS_pos as Hpos.
  unfold search_call. rewrite search_entry_clear.
  rewrite search_attempt_sends by done. intros Hfeed.
  cbn [worker_run worker_step]. rewrite worker_entry_clear.
  rewrite search_attempt_sends by done.
  cbn [continue_search]. unfold ret at 1.
  by apply worker_run_search.
Qed.

(** A reply that ends the first insert attempt as a failure leaves the flag
    as it is. *)
Lemma add_on_refused r s :
  insert_gives_up 0 r = true -> add_on_reply 0 r s = (Return false, s).
Proof.
  destruct r as [st items| |]; [|discriminate..].
  unfold insert_gives_up, add_on_reply. intros H.
  destruct (st =? 200); [discriminate|].
  destruct (st =? 409); [discriminate|].
  destruct ((st =? 403) || (st =? 429)) eqn:Hrl; [|reflexivity].
  cbn [orb] in H. rewrite Hrl in H. discriminate.
Qed.

(** C5. Retry ladder of the search call, for the retry budget
    [RETRY_ATTEMPTS] and the base delay [RETRY_DELAY], entered with the flag
    clear by a worker that runs on its own.  When the first
    [RETRY_ATTEMPTS - 1] attempts get a rate-limit status (403 or 429) the
    call sleeps [RETRY_DELAY * 2 ^ attempt] after each of them.  If the last
    attempt then gets status 200 with a non-empty list of items, the call
    returns the id of the best match and leaves the flag clear.  What the
    worker ends with is decided after that, by the insert call it makes for
    a non-empty id: status added when the insert is answered 200 or 409,
    status failed_to_add when the insert is refused for good, the flag still
    clear in both cases.  A worker that gets the 200 on its last attempt
    when the flag has been set in the meantime drops the match and ends with
    status quota_exceeded.  If the last attempt gets a rate-limit status
    too, the call returns failure with the flag set, and the worker ends
    with status quota_exceeded. *)
Theorem search_retry_ladder (sg : song) (rs : list reply) (x : item)
    (rest : list item) (ins last : reply) :
  length rs = (RETRY_ATTEMPTS - 1)%nat ->
  Forall (fun r => rate_limited r = true) rs ->
  rate_limited last = true ->
  let match_id := videoId (max_by_score x rest) in
  let sent := ladder_journal Search 0 (RETRY_ATTEMPTS - 1) in
  let found := (retries rs ++ [Got (Reply 200 (x :: rest))])%list in
  search_call found (Shared false [])
    = Some (Return (Some match_id), Shared false sent)
  /\ (match_id <> EmptyString -> accepted ins = true ->
      worker_run sg (Acquired :: found ++ [Got ins]) Waiting (Shared false [])
      = Some (Finished (Returned (Outcome sg Added (Some match_id))),
              Shared false (sent ++ [Request Insert 0])))
  /\ (match_id <> EmptyString -> insert_gives_up 0 ins = true ->
      worker_run sg (Acquired :: found ++ [Got ins]) Waiting (Shared false [])
      = Some (Finished (Returned (Outcome sg FailedToAdd (Some match_id))),
              Shared false (sent ++ [Request Insert 0])))
  /\ (forall j,
      worker_run sg [Got (Reply 200 (x :: rest))]
        (InSearch (AwaitingReply (RETRY_ATTEMPTS - 1))) (Shared true j)
      = Some (Finished (Returned (Outcome sg QuotaExceeded None)),
              Shared true j))
  /\ search_call (retries rs ++ [Got last]) (Shared false [])
     = Some (Return None, Shared true sent)
  /\ worker_run sg (Acquired :: retries rs ++ [Got last]) Waiting
       (Shared false [])
     = Some (Finished (Returned (Outcome sg QuotaExceeded None)),
             Shared true sent).
Proof.
  intros Hlen Hrs Hlast match_id sent found.
  pose proof RETRY_ATTEMPTS_pos as Hpos.
  assert (search_call found (Shared false [])
          = Some (Return (Some match_id), Shared false sent)) as Hfound.
  { unfold found. rewrite search_call_retries by done. reflexivity. }
  assert (search_call (retries rs ++ [Got last]) (Shared false [])
          = Some (Return None, Shared true sent)) as Hquota.
  { rewrite search_call_retries by done.
    cbn [feed resume_search]. rewrite search_on_last_rate_limit by done.
    reflexivity. }
  assert (forall ok, match_id <> EmptyString ->
            (forall s, add_on_reply 0 ins s = (Return ok, s)) ->
            worker_run sg (Acquired :: found ++ [Got ins]) Waiting
              (Shared false [])
            = (let (st, s) := after_add sg match_id ok
                 (Shared false (sent ++ [Request Insert 0])) in Some (st, s)))
    as Hinsert.
  { intros ok Hid Hreply.
    rewrite (worker_entry_search sg _ _ _ [Got ins] Hfound).
    cbn [continue_search].
    rewrite (after_search_found sg _ match_id) by by apply truthy_nonempty.
    rewrite add_attempt_sends by done.
    cbn [continue_add]. unfold ret at 1.
    cbn [worker_run worker_step resume_add]. unfold bind at 1.
    rewrite Hreply. cbn [continue_add quota_exceeded journal].
    by destruct (after_add sg match_id ok _). }
  split; [exact Hfound|].
  split; [|split; [|split; [|split; [exact Hquota|]]]].
  - intros Hid Hins. rewrite (Hinsert true Hid); [reflexivity|].
    intros s. by apply add_on_accepted.
  - intros Hid Hins. rewrite (Hinsert false Hid); [reflexivity|].
    intros s. by apply add_on_refused.
  - intros j. reflexivity.
  - rewrite <- (app_nil_r (retries rs ++ [Got last])%list).
    rewrite (worker_entry_search sg _ _ _ [] Hquota). reflexivity.
Qed.

(** The ladder with a 429 and a 403 and a match on the third attempt, the
    insert answered with the conflict status. *)
Lemma search_retry_ladder_witness :
  let rs := [Reply 429 []; Reply 403 []] in
  let x := Item "Song (Live)" "v1" in
  let rest := [Item "Song" "v2"] in
  worker_run (Song 1 1 "Song") (Acquired :: (retries rs
                ++ [Got (Reply 200 (x :: rest))]) ++ [Got (Reply 409 [])])
    Waiting (Shared false [])
  = Some (Finished (Returned (Outcome (Song 1 1 "Song") Added (Some "v2"))),
          Shared false [Request Search 0; Sleep 5; Request Search 1; Sleep 10;
                        Request Search 2; Request Insert 0]).
Proof.
  intros rs x rest.
  refine (proj1 (proj2 (search_retry_ladder (Song 1 1 "Song") rs x rest
                   (Reply 409 []) (Reply 429 []) _ _ _)) _ _);
    [reflexivity | repeat constructor | reflexivity
    | vm_compute; discriminate | reflexivity].
Defined.

(** C5, counterexample: the search is rate limited twice and finds a match
    on its third and last attempt, the flag stays clear, and the insert is
    answered with status 500: the worker ends with status failed_to_add, not
    added. *)
Lemma search_retry_then_insert_refused :
  let found :=
    (retries [Reply 429 []; Reply 403 []]
       ++ [Got (Reply 200 [Item "Song" "v1"])])%list in
  search_call found (Shared false [])
    = Some (Return (Some "v1"),
            Shared false [Request Search 0; Sleep 5; Request Search 1;
                          Sleep 10; Request Search 2])
  /\ worker_run example_song (Acquired :: found ++ [Got (Reply 500 [])])
       Waiting (Shared false [])
     = Some (Finished
               (Returned (Outcome example_song FailedToAdd (Some "v1"))),
             Shared false [Request Search 0; Sleep 5; Request Search 1;
                           Sleep 10; Request Search 2; Request Insert 0]).
Proof. split; reflexivity. Qed.

(** ** Who sets the quota flag *)

Ltac flag_done :=
  simpl; rewrite ?andb_true_r, ?andb_false_r, ?orb_true_r, ?orb_false_r;
  try done.

Lemma search_on_reply_flag k r s :
  quota_exceeded (search_on_reply k r s).2 = quota_exceeded s || exhausts k r.
Proof.
  unfold exhausts, search_on_reply, rate_limited.
  destruct r as [st items| |].
  - destruct (st =? 200) eqn:E200.
    + apply Z.eqb_eq in E200; subst. destruct items; flag_done.
    + destruct ((st =? 403) || (st =? 429));
        [destruct (k =? RETRY_ATTEMPTS - 1)%nat|]; flag_done.
  - destruct (k <? RETRY_ATTEMPTS - 1)%nat; [flag_done|].
    unfold search_attempt. destruct (S k <? RETRY_ATTEMPTS)%nat; flag_done.
  - flag_done.
Qed.

Lemma add_on_reply_flag k r s :
  quota_exceeded (add_on_reply k r s).2 = quota_exceeded s || exhausts k r.
Proof.
  unfold exhausts, add_on_reply, rate_limited.
  destruct r as [st items| |].
  - destruct (st =? 200) eqn:E200.
    { apply Z.eqb_eq in E200; subst. flag_done. }
    destruct (st =? 409) eqn:E409.
    { apply Z.eqb_eq in E409; subst. flag_done. }
    destruct ((st =? 403) || (st =? 429));
      [destruct (k =? RETRY_ATTEMPTS - 1)%nat|]; flag_done.
  - destruct (k <? RETRY_ATTEMPTS - 1)%nat; [flag_done|].
    unfold add_attempt. destruct (S k <? RETRY_ATTEMPTS)%nat; flag_done.
  - flag_done.
Qed.

Lemma search_attempt_flag k s :
  quota_exceeded (search_attempt k s).2 = quota_exceeded s.
Proof. unfold search_attempt. by destruct (k <? RETRY_ATTEMPTS)%nat. Qed.

Lemma add_attempt_flag k s :
  quota_exceeded (add_attempt k s).2 = quota_exceeded s.
Proof. unfold add_attempt. by destruct (k <? RETRY_ATTEMPTS)%nat. Qed.

Lemma async_add_to_playlist_flag s :
  quota_exceeded (async_add_to_playlist s).2 = quota_exceeded s.
Proof.
  destruct s as [[] j]; [reflexivity|].
  rewrite add_entry_clear. apply add_attempt_flag.
Qed.

Lemma async_search_youtube_flag s :
  quota_exceeded (async_search_youtube s).2 = quota_exceeded s.
Proof.
  destruct s as [[] j]; [reflexivity|].
  rewrite search_entry_clear. apply search_attempt_flag.
Qed.

Lemma after_add_flag sg v ok s :
  quota_exceeded (after_add sg v ok s).2 = quota_exceeded s.
Proof. destruct ok, s as [[] j]; reflexivity. Qed.

Lemma continue_add_flag sg v p s :
  quota_exceeded (continue_add sg v p s).2 = quota_exceeded s.
Proof. destruct p; [reflexivity|apply after_add_flag|reflexivity]. Qed.

Lemma after_search_flag sg v s :
  quota_exceeded (after_search sg v s).2 = quota_exceeded s.
Proof.
  destruct s as [[] j]; [reflexivity|].
  destruct (truthy v) as [w|] eqn:Hv.
  - rewrite (after_search_found sg v w) by done.
    destruct (add_attempt 0 (Shared false j)) as [p s] eqn:E.
    rewrite continue_add_flag.
    change (quota_exceeded s) with (quota_exceeded (p, s).2).
    rewrite <- E. apply add_attempt_flag.
  - by rewrite after_search_missing.
Qed.

Lemma continue_search_flag sg p s :
  quota_exceeded (continue_search sg p s).2 = quota_exceeded s.
Proof. destruct p; [reflexivity|apply after_search_flag|reflexivity]. Qed.

Lemma worker_entry_flag sg s :
  quota_exceeded (worker_entry sg s).2 = quota_exceeded s.
Proof.
  destruct s as [[] j]; [reflexivity|].
  rewrite worker_entry_clear.
  destruct (search_attempt 0 (Shared false j)) as [p s] eqn:E.
  rewrite continue_search_flag.
  change (quota_exceeded s) with (quota_exceeded (p, s).2).
  rewrite <- E. apply search_attempt_flag.
Qed.

Lemma worker_step_flag sg st i c s :
  worker_step sg st i = Some c ->
  quota_exceeded (c s).2 = quota_exceeded s || client_exhausted st i.
Proof.
  destruct st as [|su|v su|res]; simpl.
  - destruct i; intros [= <-]. 
    rewrite worker_entry_flag. by rewrite orb_false_r.
  - destruct su as [k|k], i as [|r|]; simpl; intros [= <-]; unfold bind.
    + destruct (search_on_reply k r s) as [p s1] eqn:E.
      rewrite continue_search_flag.
      change (quota_exceeded s1) with (quota_exceeded (p, s1).2).
      rewrite <- E. apply search_on_reply_flag.
    + destruct (search_attempt (S k) s) as [p s1] eqn:E.
      rewrite continue_search_flag, orb_false_r.
      change (quota_exceeded s1) with (quota_exceeded (p, s1).2).
      rewrite <- E. apply search_attempt_flag.
  - destruct su as [k|k], i as [|r|]; simpl; intros [= <-]; unfold bind.
    + destruct (add_on_reply k r s) as [p s1] eqn:E.
      rewrite continue_add_flag.
      change (quota_exceeded s1) with (quota_exceeded (p, s1).2).
      rewrite <- E. apply add_on_reply_flag.
    + destruct (add_attempt (S k) s) as [p s1] eqn:E.
      rewrite continue_add_flag, orb_false_r.
      change (quota_exceeded s1) with (quota_exceeded (p, s1).2).
      rewrite <- E. apply add_attempt_flag.
  - discriminate.
Qed.

Lemma pool_step_flag i inp p p' :
  pool_step i inp p = Some p' ->
  exists sg st, tasks p !! i = Some (sg, st)
    /\ flag p' = flag p || client_exhausted st inp.
Proof.
  unfold pool_step. destruct (tasks p !! i) as [[sg st]|]; [|discriminate].
  destruct (may_run (tasks p) st); [|discriminate].
  destruct (worker_step sg st inp) as [c|] eqn:Hstep; [|discriminate].
  pose proof (worker_step_flag sg st inp c (Shared (flag p) []) Hstep) as H.
  destruct (c (Shared (flag p) [])) as [st' s']. intros [= <-].
  exists sg, st. split; [done|]. exact H.
Qed.

(** C6 as the code has it: the flag is set by the client.  A search or
    insert client that gets a rate-limit status (403 or 429) in reply to its
    last allowed attempt sets [quota_exceeded] itself, and on any other reply
    leaves it as it was; sending an attempt, and entering a client, leave it
    as it was; and a step of the pool changes the flag only by such a reply
    reaching the client of the task it resumes. *)
Theorem quota_flag_set_by_client (k : nat) (r : reply) (s : shared)
    (i : nat) (inp : input) (p : pool) :
  quota_exceeded (search_on_reply k r s).2 = quota_exceeded s || exhausts k r
  /\ quota_exceeded (add_on_reply k r s).2 = quota_exceeded s || exhausts k r
  /\ quota_exceeded (search_attempt k s).2 = quota_exceeded s
  /\ quota_exceeded (add_attempt k s).2 = quota_exceeded s
  /\ quota_exceeded (async_search_youtube s).2 = quota_exceeded s
  /\ quota_exceeded (async_add_to_playlist s).2 = quota_exceeded s
  /\ match pool_step i inp p, tasks p !! i with
     | Some p', Some (_, st) => flag p' = flag p || client_exhausted st inp
     | _, _ => True
     end.
Proof.
  repeat split;
    auto using search_on_reply_flag, add_on_reply_flag, search_attempt_flag,
      add_attempt_flag, async_search_youtube_flag, async_add_to_playlist_flag.
  destruct (pool_step i inp p) as [p'|] eqn:Hstep; [|done].
  destruct (pool_step_flag _ _ _ _ Hstep) as (sg & st & -> & Hflag).
  exact Hflag.
Qed.

(** C6, counterexample: a search call and an insert call on their own, each
    getting status 429 three times.  Nothing but the client runs, and the
    flag, clear before the call, is set when the call returns. *)
Lemma client_trips_flag_itself :
  let rl := Got (Reply 429 []) in
  search_call [rl; Woken; rl; Woken; rl] (Shared false [])
    = Some (Return None,
            Shared true [Request Search 0; Sleep 5; Request Search 1;
                         Sleep 10; Request Search 2])
  /\ add_call [rl; Woken; rl; Woken; rl] (Shared false [])
    = Some (Return false,
            Shared true [Request Insert 0; Sleep 5; Request Insert 1;
                         Sleep 10; Request Insert 2]).
Proof. split; reflexivity. Qed.

(** ** What the worker makes of the reply to an insert *)

Lemma add_on_permanent_failure k st items s :
  st <> 200 -> st <> 409 -> st <> 403 -> st <> 429 ->
  add_on_reply k (Reply st items) s = (Return false, s).
Proof.
  intros H200 H409 H403 H429. unfold add_on_reply.
  apply Z.eqb_neq in H200, H409, H403, H429.
  by rewrite H200, H409, H403, H429.
Qed.

Lemma rate_limited_status st items :
  st = 403 \/ st = 429 -> rate_limited (Reply st items) = true.
Proof. by intros [-> | ->]. Qed.

(** C4 as the code has it.  A worker waiting on the reply to attempt [k] of
    its insert call, for the match [v]:
    - status 200, and the conflict status 409, give the outcome added,
      whatever the flag;
    - a status other than 200, 409, 403 and 429 (201 and the other 2xx
      statuses among them) gives failed_to_add at once, the flag being clear;
    - 403 or 429 on the last allowed attempt sets the flag and gives
      quota_exceeded; on an earlier attempt the call sleeps
      [RETRY_DELAY * 2 ^ k] and tries again;
    - 403 or 429 on every attempt of the call gives quota_exceeded. *)
Theorem insert_reply_outcome (sg : song) (v : string) (k : nat) (st : Z)
    (items : list item) (q : bool) (j : list event) (rs : list reply)
    (last : reply) :
  let reply_to_attempt :=
    worker_run sg [Got (Reply st items)] (InInsert v (AwaitingReply k)) in
  (st = 200 \/ st = 409 ->
     reply_to_attempt (Shared q j)
     = Some (Finished (Returned (Outcome sg Added (Some v))), Shared q j))
  /\ (st <> 200 -> st <> 409 -> st <> 403 -> st <> 429 ->
     reply_to_attempt (Shared false j)
     = Some (Finished (Returned (Outcome sg FailedToAdd (Some v))),
             Shared false j))
  /\ (st = 403 \/ st = 429 -> k = (RETRY_ATTEMPTS - 1)%nat ->
     reply_to_attempt (Shared q j)
     = Some (Finished (Returned (Outcome sg QuotaExceeded (Some v))),
             Shared true j))
  /\ (st = 403 \/ st = 429 -> (k < RETRY_ATTEMPTS - 1)%nat ->
     worker_run sg [Got (Reply st items); Woken]
       (InInsert v (AwaitingReply k)) (Shared q j)
     = Some (InInsert v (AwaitingReply (S k)),
             Shared q (j ++ [Sleep (RETRY_DELAY * 2 ^ Z.of_nat k);
                             Request Insert (S k)])))
  /\ (length rs = (RETRY_ATTEMPTS - 1)%nat ->
      Forall (fun r => rate_limited r = true) rs ->
      rate_limited last = true ->
      worker_run sg (retries rs ++ [Got last]) (InInsert v (AwaitingReply 0))
        (Shared false (j ++ [Request Insert 0]))
      = Some (Finished (Returned (Outcome sg QuotaExceeded (Some v))),
              Shared true (j ++ ladder_journal Insert 0 (RETRY_ATTEMPTS - 1)))).
Proof.
  intros reply_to_attempt. subst reply_to_attempt.
  pose proof RETRY_ATTEMPTS_pos as Hpos.
  split; [|split; [|split; [|split]]].
  - intros Hst. cbn [worker_run worker_step resume_add]. unfold bind at 1.
    rewrite add_on_accepted; [reflexivity|].
    destruct Hst as [-> | ->]; reflexivity.
  - intros H200 H409 H403 H429.
    cbn [worker_run worker_step resume_add]. unfold bind at 1.
    rewrite add_on_permanent_failure by done. reflexivity.
  - intros Hst ->.
    cbn [worker_run worker_step resume_add]. unfold bind at 1.
    rewrite add_on_last_rate_limit by by apply rate_limited_status.
    reflexivity.
  - intros Hst Hk.
    cbn [worker_run worker_step resume_add]. unfold bind at 1.
    rewrite add_on_rate_limit by (by apply rate_limited_status || done).
    cbn [continue_add]. unfold ret at 1.
    cbn [worker_run worker_step resume_add]. unfold bind at 1.
    rewrite add_attempt_sends by lia.
    cbn [continue_add quota_exceeded journal]. unfold ret.
    by rewrite <- app_assoc.
  - intros Hlen Hrs Hlast.
    assert (feed resume_add (retries rs ++ [Got last])
              (Suspend (AwaitingReply 0))
              (Shared false (j ++ [Request Insert 0]))
            = Some (Return false,
                    Shared true
                      (j ++ ladder_journal Insert 0 (RETRY_ATTEMPTS - 1))))
      as Hfeed.
    { pose proof (add_ladder rs 0 (Shared false j) [Got last]) as H.
      cbn [quota_exceeded journal] in H.
      rewrite H by (done || lia). rewrite Hlen. cbn [Nat.add].
      cbn [feed resume_add]. rewrite add_on_last_rate_limit by done.
      reflexivity. }
    rewrite <- (app_nil_r (retries rs ++ [Got last])%list).
    rewrite (worker_run_add sg v _ _ _ _ _ [] Hfeed). reflexivity.
Qed.

(** The conflict status on the first attempt of an insert. *)
Lemma insert_reply_outcome_witness :
  worker_run example_song [Got (Reply 409 [])]
    (InInsert "v1" (AwaitingReply 0)) (Shared false [Request Search 0; Request Insert 0])
  = Some (Finished (Returned (Outcome example_song Added (Some "v1"))),
          Shared false [Request Search 0; Request Insert 0]).
Proof.
  apply (proj1 (insert_reply_outcome example_song "v1" 0 409 [] false
                  [Request Search 0; Request Insert 0] [] (Reply 429 []))).
  right. reflexivity.
Defined.

(** C4, counterexample: the insert is answered with status 201, a 2xx
    status, and the worker reports failed_to_add. *)
Lemma insert_201_is_failed_to_add :
  worker_run example_song
    [Acquired; Got (Reply 200 [Item "Song" "v1"]); Got (Reply 201 [])]
    Waiting (Shared false [])
  = Some (Finished (Returned (Outcome example_song FailedToAdd (Some "v1"))),
          Shared false [Request Search 0; Request Insert 0]).
Proof. reflexivity. Qed.

(** ** The batch once the flag is set *)

Lemma events_of_app i l1 l2 :
  events_of i (l1 ++ l2) = events_of i l1 ++ events_of i l2.
Proof. unfold events_of. by rewrite List.filter_app, map_app. Qed.

Lemma events_of_same i evs : events_of i (map (pair i) evs) = evs.
Proof.
  unfold events_of. induction evs as [|e evs IH]; [done|].
  simpl. rewrite Nat.eqb_refl. simpl. by f_equal.
Qed.

Lemma events_of_other i j evs : i <> j -> events_of i (map (pair j) evs) = [].
Proof.
  intros Hij. unfold events_of. induction evs as [|e evs IH]; [done|].
  simpl. by assert ((j =? i)%nat = false) as -> by (apply Nat.eqb_neq; lia).
Qed.

Lemma pool_step_inv i inp p p' :
  pool_step i inp p = Some p' ->
  exists sg st c st' s',
    tasks p !! i = Some (sg, st)
    /\ may_run (tasks p) st = true
    /\ worker_step sg st inp = Some c
    /\ c (Shared (flag p) []) = (st', s')
    /\ p' = Pool (quota_exceeded s') (<[i := (sg, st')]> (tasks p))
              (log p ++ map (pair i) (journal s')).
Proof.
  unfold pool_step. destruct (tasks p !! i) as [[sg st]|]; [|discriminate].
  destruct (may_run (tasks p) st) eqn:Hrun; [|discriminate].
  destruct (worker_step sg st inp) as [c|] eqn:Hstep; [|discriminate].
  destruct (c (Shared (flag p) [])) as [st' s'] eqn:Hc. intros [= <-].
  by exists sg, st, c, st', s'.
Qed.

Lemma after_trip_refl sg st : after_trip sg st st [].
Proof. destruct st as [| | |[]]; simpl; auto. Qed.

Lemma after_trip_trans sg st1 st2 st3 evs1 evs2 :
  after_trip sg st1 st2 evs1 -> after_trip sg st2 st3 evs2 ->
  after_trip sg st1 st3 (evs1 ++ evs2).
Proof.
  destruct st1 as [|su1|v1 su1|r1]; simpl.
  - intros [-> [-> | ->]]; simpl; [done|]. by intros [-> ->]; auto.
  - intros [H1 H2]. destruct st2 as [|su2|v2 su2|[o2|]]; simpl; try done.
    + intros [H3 H4]. split; [by apply Forall_app|done].
    + intros [-> ->]. rewrite app_nil_r. by subst.
    + intros [-> ->]. by rewrite app_nil_r.
  - intros [H1 H2]. destruct st2 as [|su2|v2 su2|[o2|]]; simpl; try done.
    + subst v2. intros [H3 H4]. split; [by apply Forall_app|done].
    + intros [-> ->]. by rewrite app_nil_r.
    + intros [-> ->]. by rewrite app_nil_r.
  - intros [-> ->]. simpl. done.
Qed.

(** The ways the body of the search loop can end for a reply: the call
    returns, raises, or sleeps before a further attempt. *)
Lemma search_on_reply_cases k r s :
  (exists v q', search_on_reply k r s = (Return v, Shared q' (journal s)))
  \/ search_on_reply k r s = (Raise, s)
  \/ (((k < RETRY_ATTEMPTS)%nat -> (S k < RETRY_ATTEMPTS)%nat)
      /\ exists d, search_on_reply k r s
           = (Suspend (Sleeping k),
              Shared (quota_exceeded s) (journal s ++ [Sleep d]))).
Proof.
  destruct s as [q j]. unfold search_on_reply.
  destruct r as [code items| |].
  - destruct (code =? 200).
    { left. destruct items; eauto. }
    destruct ((code =? 403) || (code =? 429)); [|left; eauto].
    destruct (k =? RETRY_ATTEMPTS - 1)%nat eqn:Ek; [left; eauto|].
    apply Nat.eqb_neq in Ek. right; right. split; [lia|eauto].
  - destruct (k <? RETRY_ATTEMPTS - 1)%nat eqn:Ek.
    + apply Nat.ltb_lt in Ek. right; right. split; [lia|eauto].
    + apply Nat.ltb_ge in Ek. left. unfold search_attempt.
      assert ((S k <? RETRY_ATTEMPTS)%nat = false) as ->
        by (apply Nat.ltb_ge; lia).
      eauto.
  - right; left. reflexivity.
Qed.

Lemma add_on_reply_cases k r s :
  (exists ok q', add_on_reply k r s = (Return ok, Shared q' (journal s)))
  \/ add_on_reply k r s = (Raise, s)
  \/ (((k < RETRY_ATTEMPTS)%nat -> (S k < RETRY_ATTEMPTS)%nat)
      /\ exists d, add_on_reply k r s
           = (Suspend (Sleeping k),
              Shared (quota_exceeded s) (journal s ++ [Sleep d]))).
Proof.
  destruct s as [q j]. unfold add_on_reply.
  destruct r as [code items| |].
  - destruct (code =? 200); [left; eauto|].
    destruct (code =? 409); [left; eauto|].
    destruct ((code =? 403) || (code =? 429)); [|left; eauto].
    destruct (k =? RETRY_ATTEMPTS - 1)%nat eqn:Ek; [left; eauto|].
    apply Nat.eqb_neq in Ek. right; right. split; [lia|eauto].
  - destruct (k <? RETRY_ATTEMPTS - 1)%nat eqn:Ek.
    + apply Nat.ltb_lt in Ek. right; right. split; [lia|eauto].
    + apply Nat.ltb_ge in Ek. left. unfold add_attempt.
      assert ((S k <? RETRY_ATTEMPTS)%nat = false) as ->
        by (apply Nat.ltb_ge; lia).
      eauto.
  - right; left. reflexivity.
Qed.

(** The head of the loop: a request, or the end of the loop. *)
Lemma search_attempt_cases k s :
  ((k < RETRY_ATTEMPTS)%nat
   /\ search_attempt k s
      = (Suspend (AwaitingReply k),
         Shared (quota_exceeded s) (journal s ++ [Request Search k])))
  \/ ((RETRY_ATTEMPTS <= k)%nat /\ search_attempt k s = (Return None, s)).
Proof.
  unfold search_attempt. destruct (k <? RETRY_ATTEMPTS)%nat eqn:Ek.
  - apply Nat.ltb_lt in Ek. by left.
  - apply Nat.ltb_ge in Ek. by right.
Qed.

Lemma add_attempt_cases k s :
  ((k < RETRY_ATTEMPTS)%nat
   /\ add_attempt k s
      = (Suspend (AwaitingReply k),
         Shared (quota_exceeded s) (journal s ++ [Request Insert k])))
  \/ ((RETRY_ATTEMPTS <= k)%nat /\ add_attempt k s = (Return false, s)).
Proof.
  unfold add_attempt. destruct (k <? RETRY_ATTEMPTS)%nat eqn:Ek.
  - apply Nat.ltb_lt in Ek. by left.
  - apply Nat.ltb_ge in Ek. by right.
Qed.

(** What the worker does with the value its search call returned. *)
Lemma after_search_cases sg v s :
  (quota_exceeded s = true
   /\ after_search sg v s
      = (Finished (Returned (Outcome sg QuotaExceeded None)), s))
  \/ (quota_exceeded s = false /\ truthy v = None
      /\ after_search sg v s
         = (Finished (Returned (Outcome sg NotFound None)), s))
  \/ (quota_exceeded s = false
      /\ exists w, truthy v = Some w
         /\ after_search sg v s
            = (InInsert w (AwaitingReply 0),
               Shared false (journal s ++ [Request Insert 0]))).
Proof.
  pose proof RETRY_ATTEMPTS_pos as Hpos.
  destruct s as [[] j]; [by left|]. right.
  destruct (truthy v) as [w|] eqn:Hv.
  - right. split; [done|]. exists w. split; [done|].
    rewrite (after_search_found sg v w) by done.
    by rewrite add_attempt_sends.
  - left. by rewrite after_search_missing.
Qed.

Lemma after_add_cases sg v ok s :
  after_add sg v ok s =
    (Finished (Returned (Outcome sg
       (if ok then Added
        else if quota_exceeded s then QuotaExceeded else FailedToAdd)
       (Some v))), s).
Proof. destruct ok, s as [[] j]; reflexivity. Qed.

Lemma worker_step_after_trip sg st inp c st' s' :
  worker_step sg st inp = Some c ->
  c (Shared true []) = (st', s') ->
  quota_exceeded s' = true /\ after_trip sg st st' (journal s').
Proof.
  intros Hstep Hc. split.
  { pose proof (worker_step_flag sg st inp c (Shared true []) Hstep) as H.
    by rewrite Hc in H. }
  revert Hstep Hc.
  destruct st as [|[k|k]|v [k|k]|r]; simpl; destruct inp as [|r0|]; simpl;
    try discriminate; intros [= <-]; unfold bind.
  - intros [= <- <-]. simpl. auto.
  - pose proof (search_on_reply_flag k r0 (Shared true [])) as Hq.
    destruct (search_on_reply_cases k r0 (Shared true []))
      as [(v & q' & E) | [E | (_ & d & E)]]; rewrite E in *;
      cbn [continue_search continue_add snd quota_exceeded orb] in *.
    + subst q'. rewrite after_search_tripped. by intros [= <- <-].
    + by intros [= <- <-].
    + intros [= <- <-]. simpl. repeat constructor.
  - destruct (search_attempt_cases (S k) (Shared true []))
      as [(_ & E) | (_ & E)]; rewrite E;
      cbn [continue_search continue_add].
    + intros [= <- <-]. simpl. repeat constructor.
    + rewrite after_search_tripped. by intros [= <- <-].
  - pose proof (add_on_reply_flag k r0 (Shared true [])) as Hq.
    destruct (add_on_reply_cases k r0 (Shared true []))
      as [(ok & q' & E) | [E | (_ & d & E)]]; rewrite E in *;
      cbn [continue_search continue_add snd quota_exceeded orb] in *.
    + subst q'. rewrite after_add_cases. intros [= <- <-]. simpl.
      split; [constructor|]. destruct ok; auto.
    + by intros [= <- <-].
    + intros [= <- <-]. simpl. repeat constructor.
  - destruct (add_attempt_cases (S k) (Shared true []))
      as [(_ & E) | (_ & E)]; rewrite E;
      cbn [continue_search continue_add].
    + intros [= <- <-]. simpl. repeat constructor.
    + rewrite after_add_cases. intros [= <- <-]. simpl. auto.
Qed.

Lemma pool_exec_after_trip schedule : forall p p',
  flag p = true -> pool_exec schedule p = Some p' ->
  flag p' = true
  /\ exists new,
       log p' = log p ++ new
       /\ forall i sg st, tasks p !! i = Some (sg, st) ->
            exists st', tasks p' !! i = Some (sg, st')
              /\ after_trip sg st st' (events_of i new).
Proof.
  induction schedule as [|[i inp] schedule IH]; intros p p' Hflag Hexec.
  - injection Hexec as <-. split; [done|]. exists []. split.
    + by rewrite app_nil_r.
    + intros j sg st Hj. exists st. split; [done|apply after_trip_refl].
  - simpl in Hexec.
    destruct (pool_step i inp p) as [p1|] eqn:Hstep; [|discriminate].
    destruct (pool_step_inv _ _ _ _ Hstep)
      as (sg & st & c & st1 & s1 & Hi & _ & Hw & Hc & ->).
    rewrite Hflag in Hc.
    destruct (worker_step_after_trip _ _ _ _ _ _ Hw Hc) as [Hq1 Hat].
    destruct (IH _ p' (Hq1 : flag (Pool _ _ _) = true) Hexec)
      as (Hq' & new & Hlog & Htasks).
    split; [done|]. simpl in Hlog, Htasks.
    exists (map (pair i) (journal s1) ++ new). split.
    + by rewrite Hlog, app_assoc.
    + intros j sg' st' Hj. rewrite events_of_app.
      destruct (decide (j = i)) as [->|Hne].
      * rewrite Hi in Hj. injection Hj as <- <-.
        destruct (Htasks i sg st1) as (st2 & Hst2 & Hat2).
        { apply list_lookup_insert_eq. by eapply lookup_lt_Some. }
        exists st2. split; [done|]. rewrite events_of_same.
        by eapply after_trip_trans.
      * destruct (Htasks j sg' st') as (st2 & Hst2 & Hat2).
        { by rewrite list_lookup_insert_ne. }
        exists st2. split; [done|]. by rewrite events_of_other.
Qed.

Lemma after_trip_no_first_request sg st st' evs :
  after_trip sg st st' evs ->
  Forall (fun ev => is_first_request ev = false) evs.
Proof.
  assert (forall e, Forall (retry_of e) evs ->
            Forall (fun ev => is_first_request ev = false) evs) as Hretry.
  { intros e H. eapply Forall_impl; [exact H|].
    intros [e' [|n]|d]; simpl; done. }
  destruct st as [|su|v su|r]; simpl.
  - by intros [-> _].
  - intros [H _]. by eapply Hretry.
  - intros [H _]. by eapply Hretry.
  - by intros [-> _].
Qed.

Lemma pool_exec_no_first_request schedule : forall p p',
  flag p = true -> pool_exec schedule p = Some p' ->
  exists new, log p' = log p ++ new
    /\ Forall (fun ie => is_first_request ie.2 = false) new.
Proof.
  induction schedule as [|[i inp] schedule IH]; intros p p' Hflag Hexec.
  - injection Hexec as <-. exists []. by rewrite app_nil_r.
  - simpl in Hexec.
    destruct (pool_step i inp p) as [p1|] eqn:Hstep; [|discriminate].
    destruct (pool_step_inv _ _ _ _ Hstep)
      as (sg & st & c & st1 & s1 & Hi & _ & Hw & Hc & ->).
    rewrite Hflag in Hc.
    destruct (worker_step_after_trip _ _ _ _ _ _ Hw Hc) as [Hq1 Hat].
    destruct (IH _ p' (Hq1 : flag (Pool _ _ _) = true) Hexec)
      as (new & Hlog & Hnew).
    simpl in Hlog. exists (map (pair i) (journal s1) ++ new). split.
    + by rewrite Hlog, app_assoc.
    + apply Forall_app. split; [|done].
      apply Forall_fmap. eapply Forall_impl;
        [by eapply after_trip_no_first_request|done].
Qed.

(** C2 as the code has it.  From a batch whose flag is set, along any
    schedule: the flag stays set; no call is begun, every request sent is a
    further attempt of a call that was already in its retry ladder; a task
    that had not entered yet produces no event and, once it runs, ends with
    quota_exceeded; a task that was in its search call only retries and
    sleeps there, sends nothing to the insert endpoint, and ends with
    quota_exceeded when its search returns; a task that was in its insert
    call only retries and sleeps there and ends with added or
    quota_exceeded. *)
Theorem no_new_call_after_trip (schedule : list (nat * input)) (p p' : pool) :
  flag p = true ->
  pool_exec schedule p = Some p' ->
  flag p' = true
  /\ exists new,
       log p' = log p ++ new
       /\ Forall (fun ie => is_first_request ie.2 = false) new
       /\ forall i sg st, tasks p !! i = Some (sg, st) ->
            exists st', tasks p' !! i = Some (sg, st')
              /\ after_trip sg st st' (events_of i new).
Proof.
  intros Hflag Hexec.
  destruct (pool_exec_after_trip _ _ _ Hflag Hexec) as (Hq & new & Hlog & Ht).
  destruct (pool_exec_no_first_request _ _ _ Hflag Hexec)
    as (new' & Hlog' & Hnew).
  split; [done|]. exists new. split; [done|]. split; [|done].
  rewrite Hlog in Hlog'. by apply app_inv_head in Hlog' as ->.
Qed.

(** The batch [tripped_pool] run along [tripped_schedule]. *)
Lemma no_new_call_after_trip_witness :
  flag tripped_pool_end = true
  /\ exists new,
       log tripped_pool_end = log tripped_pool ++ new
       /\ Forall (fun ie => is_first_request ie.2 = false) new
       /\ forall i sg st, tasks tripped_pool !! i = Some (sg, st) ->
            exists st', tasks tripped_pool_end !! i = Some (sg, st')
              /\ after_trip sg st st' (events_of i new).
Proof.
  apply (no_new_call_after_trip tripped_schedule tripped_pool tripped_pool_end);
    reflexivity.
Defined.

(** C2, counterexample: the flag is set by the first task while the second
    one is in the sleep of its retry ladder; when the second one wakes up it
    sends a request, with the flag set. *)
Lemma retry_request_after_trip :
  pool_exec trip_schedule (gather_start false two_songs) = Some pool_at_trip
  /\ flag pool_at_trip = true
  /\ pool_step 1 Woken pool_at_trip
     = Some {| flag := true;
               tasks := [(Song 1 2 "a",
                          Finished (Returned
                            (Outcome (Song 1 2 "a") QuotaExceeded None)));
                         (Song 2 2 "b", InSearch (AwaitingReply 1))];
               log := log pool_at_trip ++ [(1%nat, Request Search 1)] |}.
Proof. repeat split; reflexivity. Qed.

(** ** The remote calls of one worker *)

Lemma ladder_S e n : ladder e (S n) = ladder e n ++ [Request e n].
Proof. unfold ladder. by rewrite seq_S, map_app. Qed.

Lemma requests_app l1 l2 : requests (l1 ++ l2) = requests l1 ++ requests l2.
Proof. apply List.filter_app. Qed.

Lemma worker_step_trace_ok sg st inp c f st' s' rq :
  worker_step sg st inp = Some c ->
  c (Shared f []) = (st', s') ->
  trace_ok st rq ->
  trace_ok st' (rq ++ requests (journal s')).
Proof.
  pose proof RETRY_ATTEMPTS_pos as Hpos.
  destruct st as [|[k|k]|v [k|k]|r]; simpl; destruct inp as [|r0|]; simpl;
    try discriminate; intros [= <-]; unfold bind.
  - (* entry *)
    destruct f.
    + intros [= <- <-] ->. simpl. exists 0%nat, 0%nat. repeat split; lia.
    + rewrite worker_entry_clear, search_attempt_sends by done.
      intros [= <- <-] ->. simpl. split; [lia|done].
  - (* reply to a search attempt *)
    intros Hc [Hk ->]. revert Hc.
    destruct (search_on_reply_cases k r0 (Shared f []))
      as [(v & q' & E) | [E | (Hk' & d & E)]]; rewrite E;
      cbn [continue_search journal].
    + destruct (after_search_cases sg v (Shared q' []))
        as [(_ & E') | [(_ & _ & E') | (_ & w & _ & E')]]; rewrite E';
        intros [= <- <-]; simpl; rewrite ?app_nil_r.
      * exists (S k), 0%nat. repeat split; try lia. by rewrite app_nil_r.
      * exists (S k), 0%nat. repeat split; try lia. by rewrite app_nil_r.
      * split; [lia|]. exists (S k). split; [lia|done].
    + intros [= <- <-]. simpl. rewrite app_nil_r.
      exists (S k), 0%nat. repeat split; try lia. by rewrite app_nil_r.
    + intros [= <- <-]. simpl. rewrite app_nil_r. split; [auto|done].
  - (* end of a sleep of the search call *)
    intros Hc [Hk ->]. revert Hc.
    destruct (search_attempt_cases (S k) (Shared f []))
      as [(_ & E) | (? & E)]; [|lia]. rewrite E. cbn [continue_search].
    intros [= <- <-]. simpl. split; [lia|]. by rewrite (ladder_S _ (S k)).
  - (* reply to an insert attempt *)
    intros Hc (Hk & a & Ha & ->). revert Hc.
    destruct (add_on_reply_cases k r0 (Shared f []))
      as [(ok & q' & E) | [E | (Hk' & d & E)]]; rewrite E;
      cbn [continue_add journal].
    + rewrite after_add_cases. intros [= <- <-]. simpl. rewrite app_nil_r.
      exists a, (S k). repeat split; try lia.
      destruct ok; [|destruct q']; simpl; lia.
    + intros [= <- <-]. simpl. rewrite app_nil_r.
      exists a, (S k). repeat split; lia.
    + intros [= <- <-]. simpl. rewrite app_nil_r. split; [auto|]. eauto.
  - (* end of a sleep of the insert call *)
    intros Hc (Hk & a & Ha & ->). revert Hc.
    destruct (add_attempt_cases (S k) (Shared f []))
      as [(_ & E) | (? & E)]; [|lia]. rewrite E. cbn [continue_add].
    intros [= <- <-]. simpl. split; [lia|]. exists a. split; [done|].
    by rewrite (ladder_S _ (S k)), app_assoc.
Qed.

Lemma gather_start_traces_ok q songs : pool_traces_ok (gather_start q songs).
Proof.
  intros i sg st. unfold gather_start. simpl. rewrite list_lookup_fmap.
  destruct (songs !! i); [|discriminate]. by intros [= <- <-].
Qed.

Lemma pool_step_traces_ok i inp p p' :
  pool_step i inp p = Some p' -> pool_traces_ok p -> pool_traces_ok p'.
Proof.
  intros Hstep Hinv.
  destruct (pool_step_inv _ _ _ _ Hstep)
    as (sg & st & c & st1 & s1 & Hi & _ & Hw & Hc & ->).
  intros j sg' st' Hj. simpl in *. unfold requests_of.
  rewrite events_of_app, requests_app.
  destruct (decide (j = i)) as [->|Hne].
  - rewrite list_lookup_insert_eq in Hj by by eapply lookup_lt_Some.
    injection Hj as <- <-. rewrite events_of_same.
    eapply worker_step_trace_ok; [done..|]. by apply Hinv with sg.
  - rewrite list_lookup_insert_ne in Hj by done.
    rewrite events_of_other, app_nil_r by done. by apply Hinv with sg'.
Qed.





Lemma requests_ladder e n : requests (ladder e n) = ladder e n.
Proof.
  unfold ladder, requests. induction (seq 0 n) as [|x l IH]; [done|].
  simpl. by rewrite IH.
Qed.





(** ** Which songs a run dispatches *)

Lemma pending_from_ids total queries processed : forall i,
  id <$> pending_from total i queries processed
  = filter (fun j => j ∉ processed) (seqZ i (Z.of_nat (length queries))).
Proof.
  induction queries as [|q queries IH]; intros i; [done|].
  cbn [length pending_from].
  rewrite seqZ_cons by lia.
  replace (Z.pred (Z.of_nat (S (length queries))))
    with (Z.of_nat (length queries)) by lia.
  replace (Z.succ i) with (i + 1) by lia.
  rewrite filter_cons. destruct (decide (i ∈ processed)) as [Hin|Hout].
  - rewrite decide_False by auto. apply IH.
  - rewrite decide_True by done. cbn [fmap list_fmap id]. f_equal. apply IH.
Qed.

Lemma pending_from_sorted total queries processed : forall i,
  StronglySorted Z.lt (id <$> pending_from total i queries processed)
  /\ Forall (fun j => i <= j) (id <$> pending_from total i queries processed).
Proof.
  induction queries as [|q queries IH]; intros i.
  - split; constructor.
  - cbn [pending_from]. destruct (IH (i + 1)) as [Hs Hb].
    assert (Forall (fun j => i < j)
              (id <$> pending_from total (i + 1) queries processed)) as Hlt.
    { eapply Forall_impl; [exact Hb|]. simpl. lia. }
    destruct (decide (i ∈ processed)).
    + split; [done|]. eapply Forall_impl; [exact Hlt|]. simpl. lia.
    + split.
      * cbn [fmap list_fmap id]. by constructor.
      * cbn [fmap list_fmap id]. constructor; [lia|].
        eapply Forall_impl; [exact Hlt|]. simpl. lia.
Qed.

Lemma pending_from_song n queries processed : forall i sg,
  sg ∈ pending_from n i queries processed ->
  total sg = n
  /\ (id sg ∉ processed)
  /\ queries !! Z.to_nat (id sg - i) = Some (query sg)
  /\ i <= id sg.
Proof.
  induction queries as [|q queries IH]; intros i sg.
  - by intros ?%elem_of_nil.
  - cbn [pending_from].
    assert (forall sg, sg ∈ pending_from n (i + 1) queries processed ->
              total sg = n /\ (id sg ∉ processed)
              /\ (q :: queries) !! Z.to_nat (id sg - i) = Some (query sg)
              /\ i <= id sg) as Hrest.
    { intros sg' Hsg'. destruct (IH _ _ Hsg') as (Ht & Hp & Hq & Hi).
      repeat split; [done..| |lia].
      replace (Z.to_nat (id sg' - i)) with (S (Z.to_nat (id sg' - (i + 1))))
        by lia. done. }
    destruct (decide (i ∈ processed)); [apply Hrest|].
    intros [->|Hsg]%elem_of_cons; [|by apply Hrest].
    simpl. rewrite Z.sub_diag. repeat split; (done || lia).
Qed.

Lemma create_tasks_clear todo : create_tasks false todo = todo.
Proof. induction todo as [|sg todo IH]; [done|]. simpl. by rewrite IH. Qed.

Lemma pool_step_songs i inp p p' :
  pool_step i inp p = Some p' -> fst <$> tasks p' = fst <$> tasks p.
Proof.
  intros Hstep.
  destruct (pool_step_inv _ _ _ _ Hstep)
    as (sg & st & c & st1 & s1 & Hi & _ & _ & _ & ->).
  simpl. rewrite list_fmap_insert. simpl.
  apply list_insert_id. by rewrite list_lookup_fmap, Hi.
Qed.

Lemma pool_exec_songs schedule : forall p p',
  pool_exec schedule p = Some p' -> fst <$> tasks p' = fst <$> tasks p.
Proof.
  induction schedule as [|[i inp] schedule IH]; intros p p' Hexec.
  - by injection Hexec as <-.
  - simpl in Hexec.
    destruct (pool_step i inp p) as [p1|] eqn:Hstep; [|discriminate].
    rewrite (IH _ _ Hexec). by eapply pool_step_songs.
Qed.

Lemma gather_start_songs q songs : fst <$> tasks (gather_start q songs) = songs.
Proof.
  unfold gather_start. simpl. rewrite <- list_fmap_compose.
  by rewrite list_fmap_id.
Qed.

(** The two ways [main] ends once the ledger is loaded. *)
Lemma main_loaded songs su io now schedule fs pi sd r :
  songs <> [] ->
  setup_returns su = true ->
  load_progress (after_setup su fs) = Some (pi, sd) ->
  main songs su io now schedule fs = Some r ->
  (songs_to_process songs pi = []
   /\ r = Report (after_setup su fs) [] None None)
  \/ (exists p results,
        songs_to_process songs pi <> []
        /\ pool_exec schedule (gather_start false (songs_to_process songs pi))
           = Some p
        /\ gather_results (tasks p) = Some results
        /\ r = Report
                 (save_progress io now (merge_results results (pi, sd)).1
                    (merge_results results (pi, sd)).2 (after_setup su fs))
                 (songs_to_process songs pi) (Some p)
                 (Some (merge_results results (pi, sd)))).
Proof.
  intros Hsongs Hsetup Hload. unfold main.
  destruct songs as [|q0 songs']; [done|].
  rewrite Hsetup, Hload. cbn [negb].
  destruct (songs_to_process (q0 :: songs') pi) as [|sg todo] eqn:Htodo.
  - intros [= <-]. by left.
  - rewrite create_tasks_clear.
    destruct (pool_exec schedule (gather_start false (sg :: todo)))
      as [p|] eqn:Hexec; [|discriminate].
    destruct (gather_results (tasks p)) as [results|] eqn:Hres; [|discriminate].
    destruct (merge_results results (pi, sd)) as [pi' sd'] eqn:Hmerge.
    intros [= <-]. right. exists p, results. by rewrite Hmerge.
Qed.

(** C7. Resume: a run that gets through its setup and loads the processed
    set [processed] creates tasks for exactly the indices of the source list
    that are not in [processed], in ascending order, each with its query;
    these are the tasks of the batch. *)
Theorem resume_dispatch (spotify_songs : list string) (su : setup) (io : disk)
    (now : string) (schedule : list (nat * input)) (fs : files)
    (processed : gset Z) (song_data : gmap string json) (r : report) :
  setup_returns su = true ->
  load_progress (after_setup su fs) = Some (processed, song_data) ->
  main spotify_songs su io now schedule fs = Some r ->
  id <$> created r
    = filter (fun i => i ∉ processed)
        (seqZ 1 (Z.of_nat (length spotify_songs)))
  /\ StronglySorted Z.lt (id <$> created r)
  /\ (forall sg, sg ∈ created r ->
       spotify_songs !! Z.to_nat (id sg - 1) = Some (query sg)
       /\ total sg = Z.of_nat (length spotify_songs))
  /\ match batch r with
     | Some p => fst <$> tasks p = created r
     | None => created r = []
     end.
Proof.
  intros Hsetup Hload Hmain.
  assert (created r = songs_to_process spotify_songs processed
          /\ match batch r with
             | Some p => fst <$> tasks p = created r
             | None => created r = []
             end) as [Hcreated Hbatch].
  { destruct (decide (spotify_songs = [])) as [->|Hsongs].
    - injection Hmain as <-. by split.
    - destruct (main_loaded _ _ _ _ _ _ _ _ _ Hsongs Hsetup Hload Hmain)
        as [[Hnone ->] | (p & results & _ & Hexec & _ & ->)]; simpl.
      + by rewrite Hnone.
      + split; [done|].
        by rewrite (pool_exec_songs _ _ _ Hexec), gather_start_songs. }
  split; [|split; [|split; [|done]]]; rewrite Hcreated;
    unfold songs_to_process.
  - apply pending_from_ids.
  - apply pending_from_sorted.
  - intros sg Hsg.
    destruct (pending_from_song _ _ _ _ _ Hsg) as (Ht & _ & Hq & _). done.
Qed.

(** Indices 1 and 2 processed out of five: tasks for 3, 4 and 5. *)
Lemma resume_dispatch_witness :
  exists r,
    main five_songs (Setup None true) Completes "2026-01-02 10:00:00"
      resume_schedule files_1_2 = Some r
    /\ id <$> created r = [3; 4; 5].
Proof.
  eexists. split; [vm_compute; reflexivity|].
  refine (proj1 (resume_dispatch five_songs (Setup None true) Completes
                   "2026-01-02 10:00:00" resume_schedule files_1_2
                   {[1; 2]} ledger_1_2.2 _ _ _ _)).
  - reflexivity.
  - vm_compute. reflexivity.
  - vm_compute. reflexivity.
Defined.

(** ** A run with nothing to do *)

Lemma pending_from_all_processed n queries processed : forall i,
  (forall j, i <= j < i + Z.of_nat (length queries) -> j ∈ processed) ->
  pending_from n i queries processed = [].
Proof.
  induction queries as [|q queries IH]; intros i Hall; [done|].
  cbn [pending_from length] in *. rewrite decide_True by (apply Hall; lia).
  apply IH. intros j Hj. apply Hall. lia.
Qed.

Lemma after_setup_progress su fs :
  after_setup su fs !! PROGRESS_FILE = fs !! PROGRESS_FILE.
Proof.
  unfold after_setup. destruct (credentials_written su); [|done].
  by rewrite lookup_insert_ne.
Qed.

(** C10. When the source list is empty, or every index of it is in the
    processed set the run loads, [main] returns without creating a task,
    without a batch (so without any request) and without calling
    [save_progress], and the ledger file is what it was. *)
Theorem nothing_to_do_leaves_ledger (spotify_songs : list string) (su : setup)
    (io : disk) (now : string) (schedule : list (nat * input)) (fs : files)
    (processed : gset Z) (song_data : gmap string json) :
  spotify_songs = []
  \/ (load_progress (after_setup su fs) = Some (processed, song_data)
      /\ forall i, 1 <= i <= Z.of_nat (length spotify_songs) -> i ∈ processed) ->
  exists r,
    main spotify_songs su io now schedule fs = Some r
    /\ created r = []
    /\ batch r = None
    /\ saved r = None
    /\ files_after r !! PROGRESS_FILE = fs !! PROGRESS_FILE.
Proof.
  intros [-> | [Hload Hall]].
  - by eexists.
  - unfold main. destruct spotify_songs as [|q0 rest] eqn:Hsongs.
    { by eexists. }
    rewrite <- Hsongs in *.
    destruct (setup_returns su); cbn [negb].
    + rewrite Hload. unfold songs_to_process.
      rewrite pending_from_all_processed by (intros j Hj; apply Hall; lia).
      eexists. repeat split. apply after_setup_progress.
    + eexists. repeat split. apply after_setup_progress.
Qed.

(** Two songs, both in the ledger. *)
Lemma nothing_to_do_leaves_ledger_witness :
  exists r,
    main ["one a"; "two b"] (Setup (Some "token") true) Completes
      "2026-01-02 10:00:00" [] files_1_2 = Some r
    /\ created r = []
    /\ batch r = None
    /\ saved r = None
    /\ files_after r !! PROGRESS_FILE = files_1_2 !! PROGRESS_FILE.
Proof.
  apply (nothing_to_do_leaves_ledger ["one a"; "two b"]
           (Setup (Some "token") true) Completes "2026-01-02 10:00:00" []
           files_1_2 {[1; 2]} ledger_1_2.2).
  right. split; [vm_compute; reflexivity|].
  intros i Hi. assert (i = 1 \/ i = 2) as [-> | ->] by (simpl in Hi; lia);
    apply elem_of_union; [left|right]; by apply elem_of_singleton.
Defined.

(** ** The ledger and its invariant *)

Lemma ledger_consistent_empty : ledger_consistent (∅, ∅).
Proof. unfold ledger_consistent. simpl. by rewrite dom_empty_L, set_map_empty. Qed.

Lemma merge_result_consistent ledger res :
  ledger_consistent ledger -> ledger_consistent (merge_result ledger res).
Proof.
  unfold ledger_consistent. destruct res as [o|]; [|done]. simpl.
  intros Hdom.
  by rewrite dom_insert_L, Hdom, set_map_union_L, set_map_singleton_L.
Qed.

Lemma merge_results_consistent results : forall ledger,
  ledger_consistent ledger -> ledger_consistent (merge_results results ledger).
Proof.
  induction results as [|res results IH]; intros ledger H; [done|].
  simpl. apply IH. by apply merge_result_consistent.
Qed.

Lemma load_progress_absent fs :
  fs !! PROGRESS_FILE = None -> load_progress fs = Some (∅, ∅).
Proof. unfold load_progress. by intros ->. Qed.

Lemma load_progress_unreadable fs text :
  fs !! PROGRESS_FILE = Some text -> Json.load text = None ->
  load_progress fs = Some (∅, ∅).
Proof. unfold load_progress. by intros -> ->. Qed.

Lemma as_ints_JInt ns : as_ints (JInt <$> ns) = Some ns.
Proof.
  induction ns as [|n ns IH]; [done|].
  rewrite fmap_cons. cbn [as_ints]. by rewrite IH.
Qed.

Lemma unhashable_JInt ns : existsb unhashable (JInt <$> ns) = false.
Proof.
  induction ns as [|n ns IH]; [done|].
  rewrite fmap_cons. cbn [existsb unhashable orb]. exact IH.
Qed.

Lemma set_of_sorted (pi : gset Z) :
  set_of (JList (JInt <$> merge_sort Z.le (elements pi))) = Value pi.
Proof.
  cbn [set_of]. rewrite unhashable_JInt, as_ints_JInt. f_equal.
  apply set_eq. intros x.
  rewrite elem_of_list_to_set, merge_sort_Permutation. apply elem_of_elements.
Qed.

Lemma dict_of_map_to_list (m : gmap string json) : dict_of (map_to_list m) = m.
Proof.
  unfold dict_of. rewrite <- (list_to_map_to_list m) at 2.
  apply list_to_map_proper.
  - rewrite fmap_reverse, reverse_Permutation. apply NoDup_fst_map_to_list.
  - apply reverse_Permutation.
Qed.

(** A file that reads as the document written for a ledger loads as that
    ledger. *)
Lemma load_progress_document fs text now pi sd :
  fs !! PROGRESS_FILE = Some text ->
  Json.load text = Some (ledger_document now pi sd) ->
  load_progress fs = Some (pi, sd).
Proof.
  unfold load_progress, ledger_document. intros -> ->.
  assert (forall v1 v2 v3,
            dict_of [("last_updated", v1); ("processed_indices", v2);
                     ("songs", v3)] !! "processed_indices" = Some v2
            /\ dict_of [("last_updated", v1); ("processed_indices", v2);
                        ("songs", v3)] !! "songs" = Some v3) as Hget.
  { intros v1 v2 v3. unfold dict_of. cbn [reverse rev_append list_to_map foldr].
    split.
    - rewrite lookup_insert_ne by done. by rewrite lookup_insert_eq.
    - by rewrite lookup_insert_eq. }
  destruct (Hget (JStr now)
              (JList (JInt <$> merge_sort Z.le (elements pi)))
              (JDict (map_to_list sd))) as [-> ->].
  unfold default, Datatypes.id. rewrite set_of_sorted.
  by rewrite dict_of_map_to_list.
Qed.

Lemma load_progress_ext fs1 fs2 :
  fs1 !! PROGRESS_FILE = fs2 !! PROGRESS_FILE ->
  load_progress fs1 = load_progress fs2.
Proof. unfold load_progress. by intros ->. Qed.

Lemma main_saved songs su io now schedule fs loaded r m :
  load_progress fs = Some loaded ->
  main songs su io now schedule fs = Some r ->
  saved r = Some m ->
  exists results, m = merge_results results loaded
    /\ files_after r = save_progress io now m.1 m.2 (after_setup su fs)
    /\ exists p, batch r = Some p /\ gather_results (tasks p) = Some results.
Proof.
  intros Hload Hmain Hsaved.
  destruct (decide (songs = [])) as [->|Hsongs].
  { injection Hmain as <-. discriminate. }
  destruct (setup_returns su) eqn:Hsetup.
  - rewrite <- (load_progress_ext (after_setup su fs)) in Hload
      by apply after_setup_progress.
    destruct loaded as [pi sd].
    destruct (main_loaded _ _ _ _ _ _ _ _ _ Hsongs Hsetup Hload Hmain)
      as [[_ ->] | (p & results & _ & _ & Hres & ->)]; [discriminate|].
    simpl in Hsaved. injection Hsaved as <-. exists results.
    split; [done|]. split; [done|]. by exists p.
  - unfold main in Hmain. destruct songs; [done|].
    rewrite Hsetup in Hmain. injection Hmain as <-. discriminate.
Qed.

(** C8 as the code has it.  [load_progress] returns a consistent ledger when
    there is no ledger file, when the file does not parse, and when the file
    reads as the document [save_progress] writes for a consistent ledger; it
    checks nothing else about the file.  The merge after the batch keeps a
    consistent ledger consistent, and the ledger a run hands to
    [save_progress] is the merged one. *)
Theorem ledger_invariant (fs : files) (now : string)
    (ledger : gset Z * gmap string json) :
  ledger_consistent ledger ->
  (fs !! PROGRESS_FILE = None
   \/ exists text, fs !! PROGRESS_FILE = Some text
        /\ (Json.load text = None
            \/ Json.load text = Some (ledger_document now ledger.1 ledger.2))) ->
  exists loaded,
    load_progress fs = Some loaded
    /\ ledger_consistent loaded
    /\ (forall results, ledger_consistent (merge_results results loaded))
    /\ (forall songs su io now' schedule r m,
          main songs su io now' schedule fs = Some r ->
          saved r = Some m ->
          ledger_consistent m
          /\ files_after r = save_progress io now' m.1 m.2 (after_setup su fs)).
Proof.
  intros Hok Hfile.
  assert (exists loaded, load_progress fs = Some loaded
            /\ ledger_consistent loaded) as (loaded & Hload & Hloaded).
  { destruct Hfile as [Hnone | (text & Htext & [Hbad | Hdoc])].
    - exists (∅, ∅). split; [by apply load_progress_absent|].
      apply ledger_consistent_empty.
    - exists (∅, ∅). split; [by eapply load_progress_unreadable|].
      apply ledger_consistent_empty.
    - exists ledger. split; [|done]. destruct ledger as [pi sd].
      by eapply load_progress_document. }
  exists loaded. split; [done|]. split; [done|]. split.
  - intros results. by apply merge_results_consistent.
  - intros songs su io now' schedule r m Hmain Hsaved.
    destruct (main_saved _ _ _ _ _ _ _ _ _ Hload Hmain Hsaved)
      as (results & -> & Hfiles & _).
    split; [by apply merge_results_consistent|done].
Qed.

(** The ledger file of [files_1_2], which reads as it was written. *)
Lemma ledger_invariant_witness :
  exists loaded,
    load_progress files_1_2 = Some loaded
    /\ ledger_consistent loaded
    /\ (forall results, ledger_consistent (merge_results results loaded))
    /\ (forall songs su io now' schedule r m,
          main songs su io now' schedule files_1_2 = Some r ->
          saved r = Some m ->
          ledger_consistent m
          /\ files_after r
             = save_progress io now' m.1 m.2 (after_setup su files_1_2)).
Proof.
  apply (ledger_invariant files_1_2 "2026-01-01 10:00:00" ledger_1_2).
  - vm_compute. reflexivity.
  - right. eexists. split; [reflexivity|]. right. vm_compute. reflexivity.
Defined.

(** C8, counterexample: [load_progress] takes the two parts of the file as
    they are, each with its own default when it is missing. *)
Lemma load_progress_unchecked :
  load_progress lone_index_file = Some ({[1]}, ∅)
  /\ ~ ledger_consistent ({[1]}, ∅).
Proof.
  split; [vm_compute; reflexivity|].
  unfold ledger_consistent. simpl.
  rewrite dom_empty_L, set_map_singleton_L. intros Hdom.
  assert (str 1 ∈ (∅ : gset string)) as Hin
    by (rewrite Hdom; by apply elem_of_singleton).
  by apply not_elem_of_empty in Hin.
Qed.

(** ** What a run records, and the runs after it *)

(** The two ways [main] returns: without a batch and without touching the
    ledger file, or with a batch over the songs left and a save of the merged
    ledger. *)
Lemma main_cases songs su io now schedule fs r :
  main songs su io now schedule fs = Some r ->
  (saved r = None /\ created r = [] /\ batch r = None
   /\ files_after r !! PROGRESS_FILE = fs !! PROGRESS_FILE)
  \/ (exists pi sd p results,
        load_progress fs = Some (pi, sd)
        /\ created r = songs_to_process songs pi
        /\ batch r = Some p
        /\ gather_results (tasks p) = Some results
        /\ saved r = Some (merge_results results (pi, sd))
        /\ files_after r
           = save_progress io now (merge_results results (pi, sd)).1
               (merge_results results (pi, sd)).2 (after_setup su fs)).
Proof.
  intros Hmain.
  destruct (decide (songs = [])) as [->|Hsongs].
  { injection Hmain as <-. by left. }
  destruct (setup_returns su) eqn:Hsetup.
  - destruct (load_progress (after_setup su fs)) as [[pi sd]|] eqn:Hload.
    + destruct (main_loaded _ _ _ _ _ _ _ _ _ Hsongs Hsetup Hload Hmain)
        as [[_ ->] | (p & results & _ & _ & Hres & ->)].
      * left. repeat split. apply after_setup_progress.
      * right. exists pi, sd, p, results.
        rewrite <- (load_progress_ext (after_setup su fs))
          by apply after_setup_progress. done.
    + unfold main in Hmain. destruct songs; [done|].
      by rewrite Hsetup, Hload in Hmain.
  - unfold main in Hmain. destruct songs; [done|].
    rewrite Hsetup in Hmain. injection Hmain as <-.
    left. repeat split. apply after_setup_progress.
Qed.

Lemma merge_result_grows ledger res i :
  i ∈ ledger.1 -> i ∈ (merge_result ledger res).1.
Proof.
  destruct res as [o|]; [|done]. simpl. intros Hi.
  apply elem_of_union. by right.
Qed.

Lemma merge_results_grows results : forall ledger i,
  i ∈ ledger.1 -> i ∈ (merge_results results ledger).1.
Proof.
  induction results as [|res results IH]; intros ledger i Hi; [done|].
  simpl. by apply IH, merge_result_grows.
Qed.

Lemma merge_results_records results o : forall ledger,
  Returned o ∈ results ->
  id (song_of o) ∈ (merge_results results ledger).1.
Proof.
  induction results as [|res results IH]; intros ledger.
  - by intros ?%elem_of_nil.
  - intros [<-|Hin]%elem_of_cons; simpl.
    + apply merge_results_grows. simpl.
      apply elem_of_union. left. by apply elem_of_singleton.
    + by apply IH.
Qed.

Lemma merge_result_keeps_key ledger res k :
  is_Some (ledger.2 !! k) -> is_Some ((merge_result ledger res).2 !! k).
Proof.
  destruct res as [o|]; [|done]. simpl. intros Hk.
  apply lookup_insert_is_Some'. by right.
Qed.

Lemma merge_results_keeps_key results : forall ledger k,
  is_Some (ledger.2 !! k) -> is_Some ((merge_results results ledger).2 !! k).
Proof.
  induction results as [|res results IH]; intros ledger k Hk; [done|].
  simpl. by apply IH, merge_result_keeps_key.
Qed.

Lemma merge_results_entry results o : forall ledger,
  Returned o ∈ results ->
  is_Some ((merge_results results ledger).2 !! str (id (song_of o))).
Proof.
  induction results as [|res results IH]; intros ledger.
  - by intros ?%elem_of_nil.
  - intros [<-|Hin]%elem_of_cons; simpl.
    + apply merge_results_keeps_key. simpl. rewrite lookup_insert_eq. eauto.
    + by apply IH.
Qed.

Lemma recorded_kept i songs su io now schedule fs r :
  recorded i fs ->
  main songs su io now schedule fs = Some r ->
  save_reads_back now r ->
  recorded i (files_after r).
Proof.
  intros (pi & sd & Hload & Hi) Hmain Hback.
  destruct (main_cases _ _ _ _ _ _ _ Hmain)
    as [(_ & _ & _ & Hsame)
       | (pi' & sd' & p & results & Hload' & _ & _ & _ & Hsaved & _)].
  - exists pi, sd. by rewrite (load_progress_ext _ fs).
  - rewrite Hload in Hload'. injection Hload' as <- <-.
    unfold save_reads_back in Hback. rewrite Hsaved in Hback.
    destruct (merge_results results (pi, sd)) as [pi2 sd2] eqn:Hm.
    destruct Hback as [Hfile Hjson].
    exists pi2, sd2. split; [by eapply load_progress_document|].
    change pi2 with (pi2, sd2).1. rewrite <- Hm.
    by apply merge_results_grows.
Qed.

Lemma recorded_not_created i songs su io now schedule fs r sg :
  recorded i fs ->
  main songs su io now schedule fs = Some r ->
  sg ∈ created r -> id sg <> i.
Proof.
  intros (pi & sd & Hload & Hi) Hmain Hsg.
  destruct (main_cases _ _ _ _ _ _ _ Hmain)
    as [(_ & Hnone & _)
       | (pi' & sd' & p & results & Hload' & Hcreated & _)].
  - rewrite Hnone in Hsg. by apply elem_of_nil in Hsg.
  - rewrite Hload in Hload'. injection Hload' as <- <-.
    rewrite Hcreated in Hsg.
    destruct (pending_from_song _ _ _ _ _ Hsg) as (_ & Hout & _).
    by intros <-.
Qed.

Lemma later_runs_skip i fs later :
  later_runs fs later -> recorded i fs ->
  forall r sg, r ∈ later -> sg ∈ created r -> id sg <> i.
Proof.
  induction 1 as [|fs songs su io now schedule r rest Hmain Hback _ IH];
    intros Hrec r' sg Hr' Hsg.
  - by apply elem_of_nil in Hr'.
  - apply elem_of_cons in Hr' as [->|Hr'].
    + by eapply recorded_not_created.
    + eapply IH; [|done..]. by eapply recorded_kept.
Qed.

(** C9. Whatever its status, the outcome a worker returned puts its index
    into the ledger handed to [save_progress], with its entry in the song
    data.  What keeps the song out of the runs that follow is the ledger
    file, not the ledger in memory: when the save of this run went through
    and the file reads back, and so for each run that follows on the same
    ledger file, none of those runs creates a task for that index. *)
Theorem processed_whatever_the_status (spotify_songs : list string)
    (su : setup) (io : disk) (now : string) (schedule : list (nat * input))
    (fs : files) (r : report) (p : pool) (results : list result)
    (o : outcome) (later : list report) :
  main spotify_songs su io now schedule fs = Some r ->
  batch r = Some p ->
  gather_results (tasks p) = Some results ->
  Returned o ∈ results ->
  (exists m, saved r = Some m
     /\ id (song_of o) ∈ m.1
     /\ m.2 !! str (id (song_of o)) <> None
     /\ files_after r = save_progress io now m.1 m.2 (after_setup su fs))
  /\ (save_reads_back now r ->
      later_runs (files_after r) later ->
      forall r' sg, r' ∈ later -> sg ∈ created r' -> id sg <> id (song_of o)).
Proof.
  intros Hmain Hbatch Hres Ho.
  destruct (main_cases _ _ _ _ _ _ _ Hmain)
    as [(_ & _ & Hnone & _)
       | (pi & sd & p' & results' & Hload & _ & Hbatch' & Hres' & Hsaved
          & Hfiles)].
  { by rewrite Hnone in Hbatch. }
  rewrite Hbatch in Hbatch'. injection Hbatch' as <-.
  rewrite Hres in Hres'. injection Hres' as <-.
  pose proof (merge_results_records results o (pi, sd) Ho) as Hin.
  pose proof (merge_results_entry results o (pi, sd) Ho) as Hkey.
  split.
  - exists (merge_results results (pi, sd)).
    split; [done|]. split; [done|]. split; [|done].
    intros E. rewrite E in Hkey. by destruct Hkey.
  - intros Hback Hlater. eapply later_runs_skip; [exact Hlater|].
    unfold save_reads_back in Hback. rewrite Hsaved in Hback.
    destruct (merge_results results (pi, sd)) as [pi2 sd2].
    destruct Hback as [Hfile Hjson]. exists pi2, sd2.
    split; [by eapply load_progress_document|done].
Qed.

(** The run over [five_songs] records song 3 as failed_to_add, and the run
    after it has nothing left to do. *)
Lemma processed_whatever_the_status_witness :
  exists r r2,
    main five_songs (Setup None true) Completes "2026-01-02 10:00:00"
      mixed_schedule files_1_2 = Some r
    /\ main five_songs (Setup None true) Completes "2026-01-03 10:00:00" []
         (files_after r) = Some r2
    /\ (exists m, saved r = Some m /\ 3 ∈ m.1 /\ m.2 !! str 3 <> None)
    /\ forall r' sg, r' ∈ [r2] -> sg ∈ created r' -> id sg <> 3.
Proof.
  eexists. eexists.
  split; [vm_compute; reflexivity|]. split; [vm_compute; reflexivity|].
  match goal with
  | |- (exists m, saved ?r = _ /\ _) /\ (forall r' sg, r' ∈ [?r2] -> _) =>
      unshelve epose proof
        (processed_whatever_the_status five_songs (Setup None true)
           Completes "2026-01-02 10:00:00" mixed_schedule files_1_2 r _ _
           (Outcome (Song 3 5 "three c") FailedToAdd (Some "v3")) [r2]
           _ _ _ _) as [(m & Hsaved & Hin & Hkey & _) Hlater];
        [shelve | shelve | vm_compute; reflexivity | reflexivity
        | vm_compute; reflexivity | apply list_elem_of_here |]
  end.
  split; [by exists m|]. apply Hlater.
  - split; vm_compute; reflexivity.
  - eapply (later_run _ five_songs (Setup None true) Completes
              "2026-01-03 10:00:00" []).
    + vm_compute. reflexivity.
    + exact I.
    + apply later_none.
Defined.

(** C9, counterexample: the run over [five_songs] has song 3, whose insert
    was refused, in the ledger it hands to [save_progress], and the write
    raises after 40 characters, which [save_progress] logs and nothing more.
    The ledger file is still there, with the first 40 characters of the
    text in it; the next run reads no ledger out of it and creates a task
    for each of the five songs, song 3 and the two songs of the earlier
    ledger among them. *)
Lemma cut_save_dispatches_again :
  exists r r2 m,
    main five_songs (Setup None true) (WriteRaises 40) "2026-01-02 10:00:00"
      mixed_schedule files_1_2 = Some r
    /\ saved r = Some m
    /\ 3 ∈ m.1
    /\ files_after r !! PROGRESS_FILE
       = Some (substring 0 40 (ledger_text "2026-01-02 10:00:00" m.1 m.2))
    /\ load_progress (files_after r) = Some (∅, ∅)
    /\ main five_songs (Setup None true) Completes "2026-01-03 10:00:00"
         five_schedule (files_after r) = Some r2
    /\ id <$> created r2 = [1; 2; 3; 4; 5].
Proof.
  eexists. eexists. eexists.
  split; [vm_compute; reflexivity|]. split; [reflexivity|].
  split; [apply (bool_decide_unpack _); vm_compute; exact I|].
  split; [vm_compute; reflexivity|]. split; [vm_compute; reflexivity|].
  split; vm_compute; reflexivity.
Qed.

(** ** How the ledger file is written *)

Lemma substring_all s : substring 0 (String.length s) s = s.
Proof. induction s as [|c s IH]; [done|]. simpl. by rewrite IH. Qed.

Lemma substring_is_prefix n : forall s,
  String.prefix (substring 0 n s) s = true.
Proof.
  induction n as [|n IH]; intros [|c s]; simpl; try done.
  rewrite IH. by destruct (Ascii.ascii_dec c c).
Qed.

Lemma during_save_ledger_file n now pi sd fs :
  during_save (Written n) now pi sd fs !! PROGRESS_FILE
  = Some (substring 0 n (ledger_text now pi sd)).
Proof.
  unfold during_save, write, open_w.
  by rewrite lookup_alter_eq, lookup_insert_eq.
Qed.

Lemma during_save_other_file pt now pi sd fs path :
  path <> PROGRESS_FILE ->
  during_save pt now pi sd fs !! path = fs !! path.
Proof.
  intros Hpath. destruct pt as [|n]; [done|].
  unfold during_save, write, open_w.
  by rewrite lookup_alter_ne, lookup_insert_ne.
Qed.

(** C1 as the code has it.  [save_progress] rewrites the ledger file in
    place: opening it empties it, and the text of the whole new ledger is
    then written into it.  A save that completes leaves exactly the new text
    in the file, and no other file is touched.  A save that stops after [n]
    characters, because a write raises or the process dies, leaves the first
    [n] characters of the new text in the file, whatever the file held
    before; only a save that stops before the file is opened leaves the files
    as they were. *)
Theorem save_progress_overwrites_in_place (now : string) (pi : gset Z)
    (sd : gmap string json) (fs : files) (n : nat) (path : string)
    (pt : save_point) :
  save_progress Completes now pi sd fs !! PROGRESS_FILE
    = Some (ledger_text now pi sd)
  /\ save_progress (WriteRaises n) now pi sd fs
     = during_save (Written n) now pi sd fs
  /\ during_save (Written n) now pi sd fs !! PROGRESS_FILE
     = Some (substring 0 n (ledger_text now pi sd))
  /\ String.prefix (substring 0 n (ledger_text now pi sd))
       (ledger_text now pi sd) = true
  /\ during_save NotOpened now pi sd fs = fs
  /\ save_progress OpenRaises now pi sd fs = fs
  /\ (path <> PROGRESS_FILE ->
      during_save pt now pi sd fs !! path = fs !! path).
Proof.
  repeat split.
  - unfold save_progress. by rewrite during_save_ledger_file, substring_all.
  - apply during_save_ledger_file.
  - apply substring_is_prefix.
  - apply during_save_other_file.
Qed.

(** C1, counterexample: the ledger file holds the first two songs, and the
    save of the ledger with three songs stops right after opening the file,
    or 40 characters into the text.  The file is then neither what it was nor
    the new text; it does not parse, and a run that starts from it loads the
    empty ledger. *)
Lemma save_progress_not_atomic :
  load_progress files_1_2 = Some ledger_1_2
  /\ during_save (Written 0) "2026-01-02 10:00:00" ledger_1_2_3.1
       ledger_1_2_3.2 files_1_2 !! PROGRESS_FILE = Some EmptyString
  /\ files_1_2 !! PROGRESS_FILE <> Some EmptyString
  /\ Json.load EmptyString = None
  /\ load_progress
       (during_save (Written 0) "2026-01-02 10:00:00" ledger_1_2_3.1
          ledger_1_2_3.2 files_1_2) = Some (∅, ∅)
  /\ during_save (Written 40) "2026-01-02 10:00:00" ledger_1_2_3.1
       ledger_1_2_3.2 files_1_2 !! PROGRESS_FILE
     = Some (substring 0 40
               (ledger_text "2026-01-02 10:00:00" ledger_1_2_3.1
                  ledger_1_2_3.2))
  /\ files_1_2 !! PROGRESS_FILE
     <> Some (substring 0 40
                (ledger_text "2026-01-02 10:00:00" ledger_1_2_3.1
                   ledger_1_2_3.2))
  /\ substring 0 40
       (ledger_text "2026-01-02 10:00:00" ledger_1_2_3.1 ledger_1_2_3.2)
     <> ledger_text "2026-01-02 10:00:00" ledger_1_2_3.1 ledger_1_2_3.2
  /\ Json.load
       (substring 0 40
          (ledger_text "2026-01-02 10:00:00" ledger_1_2_3.1 ledger_1_2_3.2))
     = None.
Proof.
  split; [vm_compute; reflexivity|]. split; [vm_compute; reflexivity|].
  split; [vm_compute; discriminate|]. split; [reflexivity|].
  split; [vm_compute; reflexivity|]. split; [apply during_save_ledger_file|].
  split; [vm_compute; discriminate|]. split; [vm_compute; discriminate|].
  vm_compute. reflexivity.
Qed.

(** * Further properties *)

(** ** The choice among the search results *)

Lemma score_live it : score it = if is_live it then 0%nat else 1%nat.
Proof. reflexivity. Qed.

Lemma max_by_score_keeps best rest :
  is_live best = false -> max_by_score best rest = best.
Proof.
  revert best. induction rest as [|x rest IH]; intros best Hbest; [done|].
  cbn [max_by_score]. rewrite !score_live, Hbest.
  destruct (is_live x); by apply IH.
Qed.

Lemma max_by_score_from_live best rest :
  is_live best = true ->
  max_by_score best rest =
    match List.find (fun it => negb (is_live it)) rest with
    | Some it => it
    | None => best
    end.
Proof.
  revert best. induction rest as [|x rest IH]; intros best Hbest; [done|].
  cbn [max_by_score List.find]. rewrite !score_live, Hbest.
  destruct (is_live x) eqn:Hx; cbn [negb Nat.ltb Nat.leb].
  - by apply IH.
  - by apply max_by_score_keeps.
Qed.

(** X1. The search takes the first result whose title has no "live" in it,
    in any case of the letters, and the first result of all when every title
    has one. *)
Theorem best_match_is_first_not_live (x : item) (rest : list item) :
  max_by_score x rest =
    match List.find (fun it => negb (is_live it)) (x :: rest) with
    | Some it => it
    | None => x
    end.
Proof.
  cbn [List.find]. destruct (is_live x) eqn:Hx; cbn [negb].
  - by apply max_by_score_from_live.
  - by apply max_by_score_keeps.
Qed.

(** ** Failures that are not quota failures *)

Lemma search_on_retryable k r s :
  retryable r = true -> (k < RETRY_ATTEMPTS - 1)%nat ->
  search_on_reply k r s =
    (Suspend (Sleeping k),
     Shared (quota_exceeded s) (journal s ++ [Sleep (backoff k r)])).
Proof.
  intros Hr Hk. unfold backoff.
  destruct (rate_limited r) eqn:Hrl; [by apply search_on_rate_limit|].
  unfold retryable in Hr. rewrite Hrl in Hr.
  destruct r as [st items| |]; try discriminate.
  unfold search_on_reply.
  by assert ((k <? RETRY_ATTEMPTS - 1)%nat = true) as ->
    by by apply Nat.ltb_lt.
Qed.

Lemma add_on_retryable k r s :
  retryable r = true -> (k < RETRY_ATTEMPTS - 1)%nat ->
  add_on_reply k r s =
    (Suspend (Sleeping k),
     Shared (quota_exceeded s) (journal s ++ [Sleep (backoff k r)])).
Proof.
  intros Hr Hk. unfold backoff.
  destruct (rate_limited r) eqn:Hrl; [by apply add_on_rate_limit|].
  unfold retryable in Hr. rewrite Hrl in Hr.
  destruct r as [st items| |]; try discriminate.
  unfold add_on_reply.
  by assert ((k <? RETRY_ATTEMPTS - 1)%nat = true) as ->
    by by apply Nat.ltb_lt.
Qed.

(** Retryable replies in a row, none of them to the last allowed attempt. *)
Lemma search_backoff_ladder rs : forall k s tail,
  (k + length rs < RETRY_ATTEMPTS)%nat ->
  Forall (fun r => retryable r = true) rs ->
  feed resume_search (retries rs ++ tail) (Suspend (AwaitingReply k))
    (Shared (quota_exceeded s) (journal s ++ [Request Search k])) =
  feed resume_search tail (Suspend (AwaitingReply (k + length rs)))
    (Shared (quota_exceeded s) (journal s ++ backoff_journal Search k rs)).
Proof.
  induction rs as [|r rs IH]; intros k s tail Hk Hrs.
  - simpl. rewrite Nat.add_0_r. reflexivity.
  - inversion Hrs as [|? ? Hr Hrs']; subst. simpl in Hk.
    cbn [retries app feed resume_search length backoff_journal].
    rewrite search_on_retryable by (done || lia).
    cbn [feed resume_search].
    rewrite search_attempt_sends by lia.
    cbn [quota_exceeded journal].
    specialize (IH (S k)
      (Shared (quota_exceeded s)
         (journal s ++ [Request Search k; Sleep (backoff k r)])) tail).
    cbn [quota_exceeded journal] in IH.
    rewrite <- !app_assoc in *. cbn [app] in *.
    rewrite IH by (done || lia).
    replace (S k + length rs)%nat with (k + S (length rs))%nat by lia.
    reflexivity.
Qed.

Lemma add_backoff_ladder rs : forall k s tail,
  (k + length rs < RETRY_ATTEMPTS)%nat ->
  Forall (fun r => retryable r = true) rs ->
  feed resume_add (retries rs ++ tail) (Suspend (AwaitingReply k))
    (Shared (quota_exceeded s) (journal s ++ [Request Insert k])) =
  feed resume_add tail (Suspend (AwaitingReply (k + length rs)))
    (Shared (quota_exceeded s) (journal s ++ backoff_journal Insert k rs)).
Proof.
  induction rs as [|r rs IH]; intros k s tail Hk Hrs.
  - simpl. rewrite Nat.add_0_r. reflexivity.
  - inversion Hrs as [|? ? Hr Hrs']; subst. simpl in Hk.
    cbn [retries app feed resume_add length backoff_journal].
    rewrite add_on_retryable by (done || lia).
    cbn [feed resume_add].
    rewrite add_attempt_sends by lia.
    cbn [quota_exceeded journal].
    specialize (IH (S k)
      (Shared (quota_exceeded s)
         (journal s ++ [Request Insert k; Sleep (backoff k r)])) tail).
    cbn [quota_exceeded journal] in IH.
    rewrite <- !app_assoc in *. cbn [app] in *.
    rewrite IH by (done || lia).
    replace (S k + length rs)%nat with (k + S (length rs))%nat by lia.
    reflexivity.
Qed.

(** What the search call returns on a reply that makes it give up. *)
Lemma search_on_give_up k r s :
  search_gives_up k r = true -> (k < RETRY_ATTEMPTS)%nat ->
  exists v, search_on_reply k r s = (Return v, s) /\ truthy v = None.
Proof.
  intros Hr Hk.
  destruct r as [st items| |]; unfold search_gives_up, insert_gives_up in Hr;
    [| |done].
  - unfold search_on_reply. destruct (st =? 200).
    + destruct items as [|x rest]; [by exists None|].
      exists (Some (videoId (max_by_score x rest))). split; [done|].
      by destruct (videoId (max_by_score x rest)).
    + apply negb_true_iff in Hr. rewrite Hr. by exists None.
  - apply Nat.eqb_eq in Hr. subst k. exists None. split; [|done].
    unfold search_on_reply, search_attempt.
    assert ((RETRY_ATTEMPTS - 1 <? RETRY_ATTEMPTS - 1)%nat = false) as ->
      by (apply Nat.ltb_ge; lia).
    by assert ((S (RETRY_ATTEMPTS - 1) <? RETRY_ATTEMPTS)%nat = false) as ->
      by (apply Nat.ltb_ge; lia).
Qed.

Lemma add_on_give_up k r s :
  insert_gives_up k r = true -> (k < RETRY_ATTEMPTS)%nat ->
  add_on_reply k r s = (Return false, s).
Proof.
  intros Hr Hk.
  destruct r as [st items| |]; unfold search_gives_up, insert_gives_up in Hr;
    [| |done].
  - unfold add_on_reply. apply negb_true_iff in Hr.
    destruct (st =? 200); [done|]. destruct (st =? 409); [done|].
    simpl in Hr. by rewrite Hr.
  - apply Nat.eqb_eq in Hr. subst k.
    unfold add_on_reply, add_attempt.
    assert ((RETRY_ATTEMPTS - 1 <? RETRY_ATTEMPTS - 1)%nat = false) as ->
      by (apply Nat.ltb_ge; lia).
    by assert ((S (RETRY_ATTEMPTS - 1) <? RETRY_ATTEMPTS)%nat = false) as ->
      by (apply Nat.ltb_ge; lia).
Qed.

(** X2. A search that fails otherwise than by quota is recorded as
    not_found.  After any number of rate-limited or network-failed attempts
    short of the budget, each followed by its sleep ([RETRY_DELAY * 2 ^
    attempt] after a rate-limit status, [RETRY_DELAY] after a network
    error), a reply with an empty result, with a status other than 200, 403
    and 429, or a network error on the last attempt, makes the worker return
    not_found, with the flag clear and without a call to the insert
    endpoint. *)
Theorem failed_search_is_not_found (sg : song) (rs : list reply)
    (last : reply) :
  (length rs < RETRY_ATTEMPTS)%nat ->
  Forall (fun r => retryable r = true) rs ->
  search_gives_up (length rs) last = true ->
  worker_run sg (Acquired :: retries rs ++ [Got last]) Waiting
    (Shared false [])
  = Some (Finished (Returned (Outcome sg NotFound None)),
          Shared false (backoff_journal Search 0 rs)).
Proof.
  intros Hlen Hrs Hlast. pose proof RETRY_ATTEMPTS_pos as Hpos.
  destruct (search_on_give_up (length rs) last
              (Shared false (backoff_journal Search 0 rs)) Hlast Hlen)
    as (v & Hv & Hnone).
  assert (search_call (retries rs ++ [Got last]) (Shared false [])
          = Some (Return v, Shared false (backoff_journal Search 0 rs)))
    as Hcall.
  { unfold search_call. rewrite search_entry_clear.
    rewrite search_attempt_sends by done.
    pose proof (search_backoff_ladder rs 0 (Shared false []) [Got last]) as H.
    cbn [quota_exceeded journal app] in *.
    rewrite H by (done || lia). cbn [Nat.add feed resume_search].
    by rewrite Hv. }
  rewrite <- (app_nil_r (retries rs ++ [Got last])).
  rewrite (worker_entry_search sg _ _ _ [] Hcall).
  cbn [continue_search]. by rewrite after_search_missing.
Qed.

Lemma failed_search_is_not_found_witness :
  worker_run example_song
    (Acquired :: retries [Reply 429 []; RaisesClientError]
       ++ [Got RaisesClientError]) Waiting (Shared false [])
  = Some (Finished (Returned (Outcome example_song NotFound None)),
          Shared false [Request Search 0; Sleep 5; Request Search 1; Sleep 5;
                        Request Search 2]).
Proof.
  apply (failed_search_is_not_found example_song
           [Reply 429 []; RaisesClientError] RaisesClientError).
  - vm_compute. lia.
  - repeat constructor.
  - reflexivity.
Defined.

(** X3. An insert that fails otherwise than by quota is recorded as
    failed_to_add, with the match id.  After any number of rate-limited or
    network-failed attempts short of the budget, each followed by its sleep,
    a reply with a status other than 200, 409, 403 and 429, or a network
    error on the last attempt, makes the worker return failed_to_add, the
    flag being clear. *)
Theorem failed_insert_is_failed_to_add (sg : song) (v : string)
    (j : list event) (rs : list reply) (last : reply) :
  (length rs < RETRY_ATTEMPTS)%nat ->
  Forall (fun r => retryable r = true) rs ->
  insert_gives_up (length rs) last = true ->
  worker_run sg (retries rs ++ [Got last]) (InInsert v (AwaitingReply 0))
    (Shared false (j ++ [Request Insert 0]))
  = Some (Finished (Returned (Outcome sg FailedToAdd (Some v))),
          Shared false (j ++ backoff_journal Insert 0 rs)).
Proof.
  intros Hlen Hrs Hlast.
  assert (feed resume_add (retries rs ++ [Got last])
            (Suspend (AwaitingReply 0))
            (Shared false (j ++ [Request Insert 0]))
          = Some (Return false, Shared false (j ++ backoff_journal Insert 0 rs)))
    as Hfeed.
  { pose proof (add_backoff_ladder rs 0 (Shared false j) [Got last]) as H.
    cbn [quota_exceeded journal] in H.
    rewrite H by (done || lia). cbn [Nat.add feed resume_add].
    by rewrite add_on_give_up. }
  rewrite <- (app_nil_r (retries rs ++ [Got last])).
  rewrite (worker_run_add sg v _ _ _ _ _ [] Hfeed). reflexivity.
Qed.

Lemma failed_insert_is_failed_to_add_witness :
  worker_run example_song
    (retries [RaisesClientError; RaisesClientError] ++ [Got RaisesClientError])
    (InInsert "v1" (AwaitingReply 0))
    (Shared false [Request Search 0; Request Insert 0])
  = Some (Finished (Returned (Outcome example_song FailedToAdd (Some "v1"))),
          Shared false [Request Search 0; Request Insert 0; Sleep 5;
                        Request Insert 1; Sleep 5; Request Insert 2]).
Proof.
  apply (failed_insert_is_failed_to_add example_song "v1" [Request Search 0]
           [RaisesClientError; RaisesClientError] RaisesClientError).
  - vm_compute. lia.
  - repeat constructor.
  - reflexivity.
Defined.

(** ** The batch under the semaphore *)

Lemma sum_list_with_insert {A} (f : A -> nat) (l : list A) : forall i x y,
  l !! i = Some x ->
  (sum_list_with f (<[i := y]> l) + f x = sum_list_with f l + f y)%nat.
Proof.
  induction l as [|a l IH]; intros [|i] x y Hx; try done.
  - injection Hx as ->. simpl. lia.
  - simpl in *. specialize (IH i x y Hx). lia.
Qed.

Lemma in_flight_sum ts :
  in_flight ts
  = sum_list_with (fun t => if holds_semaphore t then 1%nat else 0%nat) ts.
Proof.
  unfold in_flight. induction ts as [|t ts IH]; [done|].
  simpl. destruct (holds_semaphore t); simpl; lia.
Qed.

Lemma pool_step_in_flight i inp p p' :
  pool_step i inp p = Some p' ->
  (in_flight (tasks p) <= CONCURRENT_REQUESTS)%nat ->
  (in_flight (tasks p') <= CONCURRENT_REQUESTS)%nat.
Proof.
  intros Hstep Hle.
  destruct (pool_step_inv _ _ _ _ Hstep)
    as (sg & st & c & st' & s' & Hi & Hrun & Hw & Hc & ->).
  cbn [tasks]. rewrite !in_flight_sum in *.
  pose proof (sum_list_with_insert
    (fun t => if holds_semaphore t then 1%nat else 0%nat)
    (tasks p) i (sg, st) (sg, st') Hi) as Hsum.
  destruct st as [|su|v su|res]; cbn [holds_semaphore snd] in Hsum.
  - unfold may_run in Hrun. apply Nat.ltb_lt in Hrun.
    rewrite in_flight_sum in Hrun.
    destruct (holds_semaphore (sg, st')); lia.
  - destruct (holds_semaphore (sg, st')); lia.
  - destruct (holds_semaphore (sg, st')); lia.
  - done.
Qed.

(** X4. The semaphore bounds the tasks at work: at every point of every
    run of a batch at most [CONCURRENT_REQUESTS] tasks are between their
    entry and their end, however many songs the batch has. *)
Theorem semaphore_bounds_in_flight (q : bool) (songs : list song)
    (schedule : list (nat * input)) (p : pool) :
  pool_exec schedule (gather_start q songs) = Some p ->
  (in_flight (tasks p) <= CONCURRENT_REQUESTS)%nat.
Proof.
  assert (in_flight (tasks (gather_start q songs)) = 0%nat) as H0.
  { unfold in_flight, gather_start. cbn [tasks].
    induction songs as [|sg songs IH]; [done|]. exact IH. }
  assert (in_flight (tasks (gather_start q songs)) <= CONCURRENT_REQUESTS)%nat
    as Hle by (rewrite H0; lia).
  revert Hle. generalize (gather_start q songs). clear H0.
  induction schedule as [|[i inp] schedule IH]; intros p0 Hle.
  - by intros [= <-].
  - simpl. destruct (pool_step i inp p0) as [p1|] eqn:Hstep; [|done].
    intros Hexec. eapply IH; [|done]. by eapply pool_step_in_flight.
Qed.

(** Ten of twelve tasks have entered; the eleventh is not let in. *)
Lemma semaphore_bounds_in_flight_witness :
  exists p,
    pool_exec ten_enter (gather_start false twelve_songs) = Some p
    /\ (in_flight (tasks p) <= CONCURRENT_REQUESTS)%nat
    /\ in_flight (tasks p) = 10%nat
    /\ pool_step 10 Acquired p = None.
Proof.
  eexists. split; [vm_compute; reflexivity|].
  split; [|split; vm_compute; reflexivity].
  apply (semaphore_bounds_in_flight false twelve_songs ten_enter).
  vm_compute. reflexivity.
Defined.

(** ** How long a batch can run *)

Lemma search_step_budget su inp c s pr s' :
  resume_search su inp = Some c -> c s = (pr, s') ->
  match pr with
  | Suspend su' => (client_budget su' < client_budget su)%nat
  | _ => True
  end.
Proof.
  pose proof RETRY_ATTEMPTS_pos as Hpos.
  destruct su as [k|k], inp as [|r|]; try discriminate; intros [= <-] Hc.
  - destruct (search_on_reply_cases k r s)
      as [(v & q' & H) | [H | (Hk & d & H)]];
      rewrite H in Hc; injection Hc as <- _; try done.
    unfold client_budget.
    destruct (k <? RETRY_ATTEMPTS)%nat eqn:E1.
    + apply Nat.ltb_lt in E1.
      assert ((S k <? RETRY_ATTEMPTS)%nat = true) as ->
        by (apply Nat.ltb_lt; auto).
      lia.
    + apply Nat.ltb_ge in E1.
      assert ((S k <? RETRY_ATTEMPTS)%nat = false) as ->
        by (apply Nat.ltb_ge; lia).
      lia.
  - destruct (search_attempt_cases (S k) s) as [[Hk H] | [Hk H]];
      rewrite H in Hc; injection Hc as <- _; try done.
    unfold client_budget.
    assert ((S k <? RETRY_ATTEMPTS)%nat = true) as ->
      by (by apply Nat.ltb_lt).
    lia.
Qed.

Lemma add_step_budget su inp c s pr s' :
  resume_add su inp = Some c -> c s = (pr, s') ->
  match pr with
  | Suspend su' => (client_budget su' < client_budget su)%nat
  | _ => True
  end.
Proof.
  pose proof RETRY_ATTEMPTS_pos as Hpos.
  destruct su as [k|k], inp as [|r|]; try discriminate; intros [= <-] Hc.
  - destruct (add_on_reply_cases k r s)
      as [(v & q' & H) | [H | (Hk & d & H)]];
      rewrite H in Hc; injection Hc as <- _; try done.
    unfold client_budget.
    destruct (k <? RETRY_ATTEMPTS)%nat eqn:E1.
    + apply Nat.ltb_lt in E1.
      assert ((S k <? RETRY_ATTEMPTS)%nat = true) as ->
        by (apply Nat.ltb_lt; auto).
      lia.
    + apply Nat.ltb_ge in E1.
      assert ((S k <? RETRY_ATTEMPTS)%nat = false) as ->
        by (apply Nat.ltb_ge; lia).
      lia.
  - destruct (add_attempt_cases (S k) s) as [[Hk H] | [Hk H]];
      rewrite H in Hc; injection Hc as <- _; try done.
    unfold client_budget.
    assert ((S k <? RETRY_ATTEMPTS)%nat = true) as ->
      by (by apply Nat.ltb_lt).
    lia.
Qed.

Lemma client_budget_pos su : (1 <= client_budget su)%nat.
Proof.
  destruct su as [k|k]; unfold client_budget.
  - destruct (k <? RETRY_ATTEMPTS)%nat eqn:E; [apply Nat.ltb_lt in E|]; lia.
  - destruct (S k <? RETRY_ATTEMPTS)%nat eqn:E; [apply Nat.ltb_lt in E|]; lia.
Qed.

Lemma first_attempt_budget :
  client_budget (AwaitingReply 0) = (2 * RETRY_ATTEMPTS - 1)%nat.
Proof. reflexivity. Qed.

Lemma after_search_budget sg v s st' s' :
  after_search sg v s = (st', s') ->
  (task_budget st' <= 2 * RETRY_ATTEMPTS - 1)%nat.
Proof.
  destruct (after_search_cases sg v s)
    as [[_ H] | [(_ & _ & H) | (_ & w & _ & H)]];
    rewrite H; intros [= <- _]; cbn [task_budget]; try lia.
  rewrite first_attempt_budget. lia.
Qed.

(** Every step of a worker uses up some of its budget. *)
Lemma worker_step_budget sg st inp c s st' s' :
  worker_step sg st inp = Some c -> c s = (st', s') ->
  (task_budget st' < task_budget st)%nat.
Proof.
  pose proof RETRY_ATTEMPTS_pos as Hpos.
  intros Hstep Hc. destruct st as [|su|v su|res]; [| | |done].
  - destruct inp; try discriminate. injection Hstep as <-.
    destruct s as [q j]. unfold worker_entry, bind, read_quota in Hc.
    cbn [quota_exceeded] in Hc. cbn [task_budget].
    destruct q; [injection Hc as <- _; cbn [task_budget]; lia|].
    rewrite search_entry_clear in Hc.
    destruct (search_attempt_cases 0 (Shared false j)) as [[_ H] | [_ H]];
      rewrite H in Hc; cbn [continue_search] in Hc.
    + injection Hc as <- _. cbn [task_budget].
      rewrite first_attempt_budget. lia.
    + apply after_search_budget in Hc. lia.
  - simpl in Hstep. destruct (resume_search su inp) as [c0|] eqn:Hres; [|done].
    injection Hstep as <-. unfold bind in Hc.
    destruct (c0 s) as [pr s0] eqn:Hc0.
    pose proof (search_step_budget _ _ _ _ _ _ Hres Hc0) as Hb.
    pose proof (client_budget_pos su) as Hsu.
    destruct pr as [su'|v|]; cbn [continue_search] in Hc.
    + injection Hc as <- _. cbn [task_budget]. lia.
    + apply after_search_budget in Hc. cbn [task_budget]. lia.
    + injection Hc as <- _. cbn [task_budget]. lia.
  - simpl in Hstep. destruct (resume_add su inp) as [c0|] eqn:Hres; [|done].
    injection Hstep as <-. unfold bind in Hc.
    destruct (c0 s) as [pr s0] eqn:Hc0.
    pose proof (add_step_budget _ _ _ _ _ _ Hres Hc0) as Hb.
    pose proof (client_budget_pos su) as Hsu.
    destruct pr as [su'|ok|]; cbn [continue_add] in Hc.
    + injection Hc as <- _. cbn [task_budget]. lia.
    + rewrite after_add_cases in Hc. injection Hc as <- _.
      cbn [task_budget]. lia.
    + injection Hc as <- _. cbn [task_budget]. lia.
Qed.

Lemma pool_step_budget i inp p p' :
  pool_step i inp p = Some p' ->
  (batch_budget (tasks p') < batch_budget (tasks p))%nat.
Proof.
  intros Hstep.
  destruct (pool_step_inv _ _ _ _ Hstep)
    as (sg & st & c & st' & s' & Hi & _ & Hw & Hc & ->).
  cbn [tasks]. unfold batch_budget.
  pose proof (sum_list_with_insert (fun t => task_budget t.2)
    (tasks p) i (sg, st) (sg, st') Hi) as Hsum.
  pose proof (worker_step_budget _ _ _ _ _ _ _ Hw Hc) as Hlt.
  cbn [snd] in Hsum. lia.
Qed.

Lemma pool_exec_budget schedule : forall p p',
  pool_exec schedule p = Some p' ->
  (length schedule + batch_budget (tasks p') <= batch_budget (tasks p))%nat.
Proof.
  induction schedule as [|[i inp] schedule IH]; intros p p'.
  - intros [= <-]. simpl. lia.
  - simpl. destruct (pool_step i inp p) as [p1|] eqn:Hstep; [|done].
    intros Hexec. apply IH in Hexec. apply pool_step_budget in Hstep. lia.
Qed.

Lemma pool_step_task i inp p p' j sg st :
  pool_step i inp p = Some p' ->
  tasks p !! j = Some (sg, st) ->
  exists st', tasks p' !! j = Some (sg, st')
    /\ (if (i =? j)%nat then (task_budget st' < task_budget st)%nat
        else st' = st).
Proof.
  intros Hstep Hj.
  destruct (pool_step_inv _ _ _ _ Hstep)
    as (sg0 & st0 & c & st' & s' & Hi & _ & Hw & Hc & ->).
  cbn [tasks]. destruct (i =? j)%nat eqn:E.
  - apply Nat.eqb_eq in E. subst j. rewrite Hi in Hj. injection Hj as -> ->.
    exists st'. split.
    + apply list_lookup_insert_eq. by eapply lookup_lt_Some.
    + by eapply worker_step_budget.
  - apply Nat.eqb_neq in E. exists st. split; [|done].
    by rewrite list_lookup_insert_ne.
Qed.

Lemma pool_exec_task_budget schedule : forall p p' j sg st,
  pool_exec schedule p = Some p' ->
  tasks p !! j = Some (sg, st) ->
  exists st', tasks p' !! j = Some (sg, st')
    /\ (length (steps_of j schedule) + task_budget st' <= task_budget st)%nat.
Proof.
  induction schedule as [|[i inp] schedule IH]; intros p p' j sg st.
  - intros [= <-] Hj. exists st. split; [done|]. simpl. lia.
  - simpl. destruct (pool_step i inp p) as [p1|] eqn:Hstep; [|done].
    intros Hexec Hj.
    destruct (pool_step_task _ _ _ _ _ _ _ Hstep Hj) as (st1 & Hj1 & Hb).
    destruct (IH _ _ _ _ _ Hexec Hj1) as (st' & Hj' & Hle).
    exists st'. split; [done|].
    destruct (i =? j)%nat; simpl; [lia|]. subst st1. lia.
Qed.

Lemma gather_start_budget q songs :
  batch_budget (tasks (gather_start q songs))
  = ((4 * RETRY_ATTEMPTS - 1) * length songs)%nat.
Proof.
  unfold batch_budget, gather_start. cbn [tasks].
  induction songs as [|sg songs IH]; simpl in *; lia.
Qed.

(** X5. A batch ends.  In any run of a batch no task is resumed more than
    [4 * RETRY_ATTEMPTS - 1] times (its entry, and for each of its two calls
    a reply per attempt and a wake-up between two attempts), so a schedule is
    never longer than that many steps for each song. *)
Theorem batch_steps_bounded (q : bool) (songs : list song)
    (schedule : list (nat * input)) (p : pool) (i : nat) :
  pool_exec schedule (gather_start q songs) = Some p ->
  (length (steps_of i schedule) <= 4 * RETRY_ATTEMPTS - 1)%nat
  /\ (length schedule <= (4 * RETRY_ATTEMPTS - 1) * length songs)%nat.
Proof.
  intros Hexec. split.
  - destruct (tasks (gather_start q songs) !! i) as [[sg st]|] eqn:Hi.
    + destruct (pool_exec_task_budget _ _ _ _ _ _ Hexec Hi) as (st' & _ & Hle).
      unfold gather_start in Hi. cbn [tasks] in Hi.
      apply list_lookup_fmap_Some in Hi as (sg' & [= _ ->] & _).
      cbn [task_budget] in Hle. lia.
    + assert (steps_of i schedule = []) as ->; [|simpl; lia].
      revert Hexec Hi. generalize (gather_start q songs).
      induction schedule as [|[k inp] schedule IH]; intros p0; [done|].
      simpl. destruct (pool_step k inp p0) as [p1|] eqn:Hstep; [|done].
      intros Hexec Hi.
      destruct (pool_step_inv _ _ _ _ Hstep)
        as (sg0 & st0 & c & st' & s' & Hk & _ & _ & _ & Hp1).
      destruct (k =? i)%nat eqn:E.
      { apply Nat.eqb_eq in E. subst k. by rewrite Hk in Hi. }
      apply (IH p1 Hexec). subst p1. cbn [tasks].
      apply lookup_ge_None. rewrite length_insert. by apply lookup_ge_None.
  - apply pool_exec_budget in Hexec. rewrite gather_start_budget in Hexec. lia.
Qed.

(** The batch of [three_songs]: five steps for the third task, eleven in
    all. *)
Lemma batch_steps_bounded_witness :
  (length (steps_of 2 three_schedule) <= 4 * RETRY_ATTEMPTS - 1)%nat
  /\ (length three_schedule
      <= (4 * RETRY_ATTEMPTS - 1) * length three_songs)%nat.
Proof.
  apply (batch_steps_bounded false three_songs three_schedule three_pool_end 2).
  reflexivity.
Defined.

(** ** A batch is never stuck *)

Lemma worker_step_expects sg st inp :
  is_Some (worker_step sg st inp) <-> expects st inp = true.
Proof.
  destruct st as [|[k|k]|v [k|k]|res], inp as [|r|]; simpl;
    split; try done; try (by intros [? [=]]); by eauto.
Qed.

Lemma pool_step_enabled i inp p sg st :
  tasks p !! i = Some (sg, st) ->
  expects st inp = true ->
  may_run (tasks p) st = true ->
  is_Some (pool_step i inp p).
Proof.
  intros Hi Hexp Hrun. unfold pool_step. rewrite Hi, Hrun.
  apply worker_step_expects with (sg := sg) in Hexp as [c ->].
  destruct (c (Shared (flag p) [])). by eexists.
Qed.

Lemma pool_step_only_expected i inp p p' :
  pool_step i inp p = Some p' ->
  exists sg st, tasks p !! i = Some (sg, st)
    /\ expects st inp = true /\ may_run (tasks p) st = true.
Proof.
  intros Hstep.
  destruct (pool_step_inv _ _ _ _ Hstep)
    as (sg & st & c & st' & s' & Hi & Hrun & Hw & _).
  exists sg, st. repeat split; try done.
  apply (worker_step_expects sg). by eexists.
Qed.

Lemma gather_results_None ts :
  gather_results ts = None ->
  exists i sg st, ts !! i = Some (sg, st) /\ unfinished st = true.
Proof.
  induction ts as [|[sg st] ts IH]; [done|]. simpl.
  destruct st as [| | |r]; try (by intros _; exists 0%nat, sg; eauto).
  destruct (gather_results ts); [done|]. intros _.
  destruct IH as (i & sg' & st' & Hi & Hu); [done|].
  by exists (S i), sg', st'.
Qed.

Lemma gather_results_Some ts : forall results,
  gather_results ts = Some results ->
  length results = length ts
  /\ forall i r, results !! i = Some r
       <-> exists sg, ts !! i = Some (sg, Finished r).
Proof.
  induction ts as [|[sg st] ts IH]; intros results.
  - intros [= <-]. split; [done|]. intros i r.
    split; [done|]. by intros [? ?].
  - simpl. destruct st as [| | |r0]; try done.
    destruct (gather_results ts) as [rs|]; [|done].
    intros [= <-]. destruct (IH rs eq_refl) as [Hlen Hrs].
    split; [simpl; by rewrite Hlen|].
    intros [|i] r; simpl.
    + split; [intros [= ->]; by eexists|]. by intros (? & [= _ ->]).
    + apply Hrs.
Qed.

Lemma some_task_may_run ts :
  gather_results ts = None ->
  exists i sg st, ts !! i = Some (sg, st)
    /\ unfinished st = true /\ may_run ts st = true.
Proof.
  intros Hnone.
  destruct (List.filter holds_semaphore ts) as [|t l] eqn:Hf.
  - destruct (gather_results_None ts Hnone) as (i & sg & st & Hi & Hu).
    exists i, sg, st. repeat split; try done.
    destruct st as [|su|v su|r]; try done.
    unfold may_run, in_flight. by rewrite Hf.
  - assert (In t (List.filter holds_semaphore ts)) as Hin
      by (rewrite Hf; by left).
    apply filter_In in Hin as [Hin Hh].
    apply list_elem_of_In, list_elem_of_lookup in Hin as [i Hi].
    destruct t as [sg st]. exists i, sg, st.
    by destruct st.
Qed.

Lemma expected_input st :
  unfinished st = true -> exists inp, expects st inp = true.
Proof.
  destruct st as [|[k|k]|v [k|k]|r]; try done; intros _.
  - by exists Acquired.
  - by exists (Got RaisesOther).
  - by exists Woken.
  - by exists (Got RaisesOther).
  - by exists Woken.
Qed.

Lemma pool_can_finish n : forall p,
  (batch_budget (tasks p) <= n)%nat ->
  exists schedule p' results,
    pool_exec schedule p = Some p'
    /\ gather_results (tasks p') = Some results.
Proof.
  induction n as [|n IH]; intros p Hn;
    (destruct (gather_results (tasks p)) as [results|] eqn:Hres;
     [by exists [], p, results|]);
    destruct (some_task_may_run _ Hres) as (i & sg & st & Hi & Hu & Hrun);
    destruct (expected_input st Hu) as [inp Hinp];
    destruct (pool_step_enabled i inp p sg st Hi Hinp Hrun) as [p1 Hstep];
    pose proof (pool_step_budget _ _ _ _ Hstep) as Hlt; [lia|].
  destruct (IH p1) as (schedule & p' & results & Hexec & Hres'); [lia|].
  exists ((i, inp) :: schedule), p', results. simpl. by rewrite Hstep.
Qed.

(** X6. A batch is never stuck.  A step of the batch is possible exactly
    when it hands a task the input it waits for (the semaphore for a task
    that has not entered, a reply for a task that sent a request, the timer
    for a task asleep) and, for a task that has not entered, fewer than
    [CONCURRENT_REQUESTS] tasks are at work.  While a task is unfinished
    such a task exists; and from every state of the batch some schedule
    brings every task to its end, so that [gather] returns. *)
Theorem batch_never_stuck (p : pool) (i : nat) (inp : input) :
  (is_Some (pool_step i inp p)
   <-> exists sg st, tasks p !! i = Some (sg, st)
         /\ expects st inp = true /\ may_run (tasks p) st = true)
  /\ (gather_results (tasks p) = None ->
      exists j sg st, tasks p !! j = Some (sg, st)
        /\ unfinished st = true /\ may_run (tasks p) st = true)
  /\ exists schedule p' results,
       pool_exec schedule p = Some p'
       /\ gather_results (tasks p') = Some results.
Proof.
  split; [split|split].
  - intros [p' Hstep]. by eapply pool_step_only_expected.
  - intros (sg & st & Hi & Hexp & Hrun). by eapply pool_step_enabled.
  - apply some_task_may_run.
  - by eapply pool_can_finish.
Qed.

(** With ten tasks at work, the two that wait cannot enter, and the batch
    can go on all the same. *)
Lemma batch_never_stuck_witness :
  exists p,
    pool_exec ten_enter (gather_start false twelve_songs) = Some p
    /\ gather_results (tasks p) = None
    /\ exists j sg st, tasks p !! j = Some (sg, st)
         /\ unfinished st = true /\ may_run (tasks p) st = true.
Proof.
  eexists. split; [vm_compute; reflexivity|].
  split; [vm_compute; reflexivity|].
  refine (proj1 (proj2 (batch_never_stuck _ 0 Acquired)) _).
  vm_compute. reflexivity.
Defined.

(** ** What the workers return *)

Lemma after_search_ok sg v s st' s' :
  after_search sg v s = (st', s') ->
  task_ok (quota_exceeded s') sg st'.
Proof.
  destruct (after_search_cases sg v s)
    as [[Hq H] | [(_ & _ & H) | (_ & w & Hw & H)]];
    rewrite H; intros [= <- <-]; cbn [task_ok].
  - by repeat split.
  - by repeat split.
  - intros ->. by destruct v as [[|]|].
Qed.

Lemma worker_step_ok sg st inp c s st' s' :
  worker_step sg st inp = Some c -> c s = (st', s') ->
  task_ok (quota_exceeded s) sg st ->
  task_ok (quota_exceeded s') sg st'.
Proof.
  intros Hstep Hc Hok. destruct st as [|su|v su|res]; [| | |done].
  - destruct inp; try discriminate. injection Hstep as <-.
    destruct s as [q j]. unfold worker_entry, bind, read_quota in Hc.
    cbn [quota_exceeded] in Hc.
    destruct q; [injection Hc as <- <-; by repeat split|].
    rewrite search_entry_clear in Hc.
    destruct (search_attempt_cases 0 (Shared false j)) as [[_ H] | [_ H]];
      rewrite H in Hc; cbn [continue_search] in Hc.
    + by injection Hc as <- <-.
    + by eapply after_search_ok.
  - simpl in Hstep. destruct (resume_search su inp) as [c0|]; [|done].
    injection Hstep as <-. unfold bind in Hc.
    destruct (c0 s) as [pr s0].
    destruct pr as [su'|v|]; cbn [continue_search] in Hc.
    + by injection Hc as <- <-.
    + by eapply after_search_ok.
    + by injection Hc as <- <-.
  - simpl in Hstep. destruct (resume_add su inp) as [c0|]; [|done].
    injection Hstep as <-. unfold bind in Hc.
    destruct (c0 s) as [pr s0]. cbn [task_ok] in Hok.
    destruct pr as [su'|ok|]; cbn [continue_add] in Hc.
    + by injection Hc as <- <-.
    + rewrite after_add_cases in Hc. injection Hc as <- <-.
      cbn [task_ok]. unfold outcome_shape. cbn [song_of status_of video_id_of].
      split; [split; [done|]|].
      * destruct ok; [by eauto|]. destruct (quota_exceeded s0); by eauto.
      * destruct ok; [done|]. by destruct (quota_exceeded s0).
    + by injection Hc as <- <-.
Qed.

Lemma task_ok_flag f f' sg st :
  task_ok f sg st -> (f = true -> f' = true) -> task_ok f' sg st.
Proof.
  destruct st as [| | |[o|]]; try done. intros [Hs Hq] Hf.
  split; [done|]. auto.
Qed.

Lemma pool_step_ok i inp p p' :
  pool_step i inp p = Some p' ->
  (forall j sg st, tasks p !! j = Some (sg, st) -> task_ok (flag p) sg st) ->
  forall j sg st, tasks p' !! j = Some (sg, st) -> task_ok (flag p') sg st.
Proof.
  intros Hstep Hok j sg st Hj.
  destruct (pool_step_inv _ _ _ _ Hstep)
    as (sg0 & st0 & c & st' & s' & Hi & _ & Hw & Hc & ->).
  cbn [tasks flag] in *.
  pose proof (worker_step_flag sg0 st0 inp c (Shared (flag p) []) Hw) as Hf.
  rewrite Hc in Hf. cbn [snd quota_exceeded] in Hf.
  destruct (decide (i = j)) as [->|Hne].
  - rewrite list_lookup_insert_eq in Hj by (by eapply lookup_lt_Some).
    injection Hj as <- <-.
    eapply (worker_step_ok _ _ _ _ (Shared (flag p) [])); [done..|].
    by apply Hok with j.
  - rewrite list_lookup_insert_ne in Hj by done.
    eapply task_ok_flag; [by eapply Hok|].
    rewrite Hf. by intros ->.
Qed.

Lemma pool_exec_ok schedule : forall p p',
  pool_exec schedule p = Some p' ->
  (forall j sg st, tasks p !! j = Some (sg, st) -> task_ok (flag p) sg st) ->
  forall j sg st, tasks p' !! j = Some (sg, st) -> task_ok (flag p') sg st.
Proof.
  induction schedule as [|[i inp] schedule IH]; intros p p'.
  - by intros [= <-].
  - simpl. destruct (pool_step i inp p) as [p1|] eqn:Hstep; [|done].
    intros Hexec Hok. eapply IH; [done|]. by eapply pool_step_ok.
Qed.

Lemma gather_start_ok q songs j sg st :
  tasks (gather_start q songs) !! j = Some (sg, st) -> task_ok q sg st.
Proof.
  unfold gather_start. cbn [tasks]. intros Hj.
  by apply list_lookup_fmap_Some in Hj as (sg' & [= _ ->] & _).
Qed.

Lemma results_in_task_order_aux q songs schedule p results :
  pool_exec schedule (gather_start q songs) = Some p ->
  gather_results (tasks p) = Some results ->
  length results = length songs
  /\ forall i o, results !! i = Some (Returned o) ->
       songs !! i = Some (song_of o).
Proof.
  intros Hexec Hres.
  destruct (gather_results_Some _ _ Hres) as [Hlen Hrs].
  pose proof (pool_exec_songs _ _ _ Hexec) as Hsongs.
  rewrite gather_start_songs in Hsongs.
  split.
  { rewrite Hlen, <- Hsongs. by rewrite length_fmap. }
  intros i o Hi. apply Hrs in Hi as [sg Hi].
  pose proof (pool_exec_ok _ _ _ Hexec (gather_start_ok q songs) _ _ _ Hi)
    as [[Hsg _] _].
  rewrite <- Hsongs, list_lookup_fmap, Hi. simpl. by rewrite Hsg.
Qed.

(** X7. The results of a batch come in the order of its tasks, each a
    dictionary for the song of its task: result [i] carries the id, total
    and query of song [i].  Status added and failed_to_add come with a
    non-empty video id, not_found with none, and quota_exceeded is returned
    only in a batch whose flag is set. *)
Theorem results_in_task_order (q : bool) (songs : list song)
    (schedule : list (nat * input)) (p : pool) (results : list result) :
  pool_exec schedule (gather_start q songs) = Some p ->
  gather_results (tasks p) = Some results ->
  length results = length songs
  /\ forall i o, results !! i = Some (Returned o) ->
       songs !! i = Some (song_of o)
       /\ outcome_shape (song_of o) o
       /\ (status_of o = QuotaExceeded -> flag p = true).
Proof.
  intros Hexec Hres.
  destruct (gather_results_Some _ _ Hres) as [Hlen Hrs].
  pose proof (pool_exec_songs _ _ _ Hexec) as Hsongs.
  rewrite gather_start_songs in Hsongs.
  split.
  { rewrite Hlen, <- Hsongs. by rewrite length_fmap. }
  intros i o Hi. apply Hrs in Hi as [sg Hi].
  pose proof (pool_exec_ok _ _ _ Hexec (gather_start_ok q songs) _ _ _ Hi)
    as [[Hsg Hshape] Hq].
  assert (songs !! i = Some sg) as Hs.
  { rewrite <- Hsongs, list_lookup_fmap, Hi. done. }
  rewrite Hsg. repeat split; try done.
Qed.

(** The batch of [three_songs]: the third result is for the third song. *)
Lemma results_in_task_order_witness :
  three_songs !! 2%nat = Some (Song 3 3 "c")
  /\ outcome_shape (Song 3 3 "c") (Outcome (Song 3 3 "c") QuotaExceeded None)
  /\ (QuotaExceeded = QuotaExceeded -> flag three_pool_end = true).
Proof.
  refine (proj2 (results_in_task_order false three_songs three_schedule
                   three_pool_end _ _ _) 2%nat
            (Outcome (Song 3 3 "c") QuotaExceeded None) _); reflexivity.
Defined.

(** ** The ledger after a run *)

Lemma main_run songs su io now schedule fs r p :
  main songs su io now schedule fs = Some r ->
  batch r = Some p ->
  exists pi sd results,
    songs <> [] /\ setup_returns su = true
    /\ load_progress fs = Some (pi, sd)
    /\ created r = songs_to_process songs pi
    /\ pool_exec schedule (gather_start false (created r)) = Some p
    /\ gather_results (tasks p) = Some results
    /\ saved r = Some (merge_results results (pi, sd))
    /\ files_after r
       = save_progress io now (merge_results results (pi, sd)).1
           (merge_results results (pi, sd)).2 (after_setup su fs).
Proof.
  intros Hmain Hbatch.
  destruct (decide (songs = [])) as [->|Hsongs].
  { by injection Hmain as <-. }
  destruct (setup_returns su) eqn:Hsetup.
  - destruct (load_progress (after_setup su fs)) as [[pi sd]|] eqn:Hload.
    + destruct (main_loaded _ _ _ _ _ _ _ _ _ Hsongs Hsetup Hload Hmain)
        as [[_ ->] | (p' & results & _ & Hexec & Hres & ->)]; [done|].
      injection Hbatch as ->. exists pi, sd, results.
      rewrite <- (load_progress_ext (after_setup su fs))
        by apply after_setup_progress. done.
    + unfold main in Hmain. destruct songs; [done|].
      by rewrite Hsetup, Hload in Hmain.
  - unfold main in Hmain. destruct songs; [done|].
    rewrite Hsetup in Hmain. by injection Hmain as <-.
Qed.

Lemma merge_results_snoc results res ledger :
  merge_results (results ++ [res]) ledger
  = merge_result (merge_results results ledger) res.
Proof. unfold merge_results. by rewrite foldl_app. Qed.

Lemma merge_results_ids results : forall ledger i,
  i ∈ (merge_results results ledger).1
  <-> i ∈ ledger.1 \/ exists o, Returned o ∈ results /\ id (song_of o) = i.
Proof.
  induction results as [|res results IH] using rev_ind; intros ledger i.
  - split; [by left|]. intros [H | (o & Ho & _)]; [done|].
    by apply elem_of_nil in Ho.
  - rewrite merge_results_snoc. destruct res as [o|]; cbn [merge_result fst].
    + rewrite elem_of_union, elem_of_singleton, IH. split.
      * intros [-> | [H | (o' & Ho' & Hid)]]; [right|by left|right].
        -- exists o. split; [|done]. apply elem_of_app. right. by left.
        -- exists o'. split; [|done]. apply elem_of_app. by left.
      * intros [H | (o' & Ho' & Hid)]; [by right; left|].
        apply elem_of_app in Ho' as [Ho' | Ho'].
        -- right. right. by exists o'.
        -- apply list_elem_of_singleton in Ho'. injection Ho' as ->. by left.
    + rewrite IH. split.
      * intros [H | (o' & Ho' & Hid)]; [by left|right].
        exists o'. split; [|done]. apply elem_of_app. by left.
      * intros [H | (o' & Ho' & Hid)]; [by left|right].
        apply elem_of_app in Ho' as [Ho' | Ho']; [by exists o'|].
        by apply list_elem_of_singleton in Ho'.
Qed.

Lemma merge_results_other_key results : forall ledger k,
  (forall o, Returned o ∈ results -> str (id (song_of o)) <> k) ->
  (merge_results results ledger).2 !! k = ledger.2 !! k.
Proof.
  induction results as [|res results IH] using rev_ind; intros ledger k Hk;
    [done|].
  rewrite merge_results_snoc.
  assert ((merge_results results ledger).2 !! k = ledger.2 !! k) as <-.
  { apply IH. intros o Ho. apply Hk. apply elem_of_app. by left. }
  destruct res as [o|]; [|done]. cbn [merge_result snd].
  apply lookup_insert_ne. apply Hk. apply elem_of_app. right. by left.
Qed.

Lemma merge_results_own_entry results : forall ledger o,
  Returned o ∈ results ->
  (forall o', Returned o' ∈ results ->
     id (song_of o') = id (song_of o) -> o' = o) ->
  (merge_results results ledger).2 !! str (id (song_of o))
  = Some (outcome_json o).
Proof.
  induction results as [|res results IH] using rev_ind; intros ledger o Ho Huniq.
  { by apply elem_of_nil in Ho. }
  rewrite merge_results_snoc.
  destruct res as [o'|]; cbn [merge_result snd].
  - destruct (decide (id (song_of o') = id (song_of o))) as [Hid|Hid].
    + assert (o' = o) as ->.
      { apply Huniq; [|done]. apply elem_of_app. right. by left. }
      apply lookup_insert_eq.
    + rewrite lookup_insert_ne by (intros H; by apply (inj str) in H).
      apply elem_of_app in Ho as [Ho | Ho].
      * apply IH; [done|]. intros o'' Ho''. apply Huniq.
        apply elem_of_app. by left.
      * apply list_elem_of_singleton in Ho. by injection Ho as ->.
  - apply elem_of_app in Ho as [Ho | Ho].
    + apply IH; [done|]. intros o'' Ho''. apply Huniq.
      apply elem_of_app. by left.
    + by apply list_elem_of_singleton in Ho.
Qed.

Lemma StronglySorted_lt_NoDup (l : list Z) : StronglySorted Z.lt l -> NoDup l.
Proof.
  induction 1 as [|x l Hl IH Hx]; constructor; [|done].
  intros Hin. rewrite Forall_forall in Hx. specialize (Hx x Hin). lia.
Qed.

Lemma songs_to_process_distinct songs pi i j sg sg' :
  songs_to_process songs pi !! i = Some sg ->
  songs_to_process songs pi !! j = Some sg' ->
  id sg = id sg' -> i = j.
Proof.
  intros Hi Hj Hid.
  pose proof (proj1 (pending_from_sorted (Z.of_nat (length songs)) songs pi 1))
    as Hsorted.
  apply StronglySorted_lt_NoDup in Hsorted.
  apply (NoDup_lookup _ i j (id sg) Hsorted).
  - unfold songs_to_process in Hi. by rewrite list_lookup_fmap, Hi.
  - unfold songs_to_process in Hj. by rewrite list_lookup_fmap, Hj, Hid.
Qed.

Lemma pending_from_mono n queries pi pi' : forall i sg,
  sg ∈ pending_from n i queries pi ->
  id sg ∉ pi' ->
  sg ∈ pending_from n i queries pi'.
Proof.
  induction queries as [|q queries IH]; intros i sg; [done|].
  cbn [pending_from]. intros Hin Hid.
  assert (sg = Song i n q \/ sg ∈ pending_from n (i + 1) queries pi) as [->|H].
  { destruct (decide (i ∈ pi)); [by right|].
    by apply elem_of_cons in Hin. }
  - cbn [id] in Hid. rewrite decide_False by done. by left.
  - specialize (IH _ _ H Hid).
    destruct (decide (i ∈ pi')); [done|]. by right.
Qed.

(** The facts about a run that the next two properties share. *)
Lemma run_results songs su io now schedule fs r p :
  main songs su io now schedule fs = Some r ->
  batch r = Some p ->
  exists pi sd results,
    songs <> []
    /\ load_progress fs = Some (pi, sd)
    /\ created r = songs_to_process songs pi
    /\ gather_results (tasks p) = Some results
    /\ saved r = Some (merge_results results (pi, sd))
    /\ length results = length (created r)
    /\ (forall j o, results !! j = Some (Returned o) ->
          created r !! j = Some (song_of o))
    /\ (forall o o', Returned o ∈ results -> Returned o' ∈ results ->
          id (song_of o') = id (song_of o) -> o' = o)
    /\ (forall j sg, created r !! j = Some sg ->
          results !! j = Some Raised ->
          id sg ∉ (merge_results results (pi, sd)).1).
Proof.
  intros Hmain Hbatch.
  destruct (main_run _ _ _ _ _ _ _ _ Hmain Hbatch)
    as (pi & sd & results & Hsongs & _ & Hload & Hcreated & Hexec & Hres
        & Hsaved & _).
  destruct (results_in_task_order_aux _ _ _ _ _ Hexec Hres) as [Hlen Hown].
  assert (forall o o', Returned o ∈ results -> Returned o' ∈ results ->
            id (song_of o') = id (song_of o) -> o' = o) as Huniq.
  { intros o o' Ho Ho' Hid.
    apply list_elem_of_lookup in Ho as [i Hi], Ho' as [j Hj].
    pose proof (Hown _ _ Hi) as Hsi. pose proof (Hown _ _ Hj) as Hsj.
    rewrite Hcreated in Hsi, Hsj.
    pose proof (songs_to_process_distinct _ _ _ _ _ _ Hsj Hsi Hid) as ->.
    rewrite Hi in Hj. by injection Hj as ->. }
  exists pi, sd, results. repeat split; try done.
  intros j sg Hj Hraised Hin.
  apply merge_results_ids in Hin as [Hin | (o & Ho & Hid)].
  - rewrite Hcreated in Hj. apply list_elem_of_lookup_2 in Hj.
    by apply pending_from_song in Hj as (_ & Hnot & _).
  - apply list_elem_of_lookup in Ho as [i Hi].
    pose proof (Hown _ _ Hi) as Hsi. rewrite Hcreated in Hsi, Hj.
    pose proof (songs_to_process_distinct _ _ _ _ _ _ Hsi Hj Hid) as ->.
    rewrite Hi in Hraised. done.
Qed.

(** X8. The ledger a run hands to [save_progress] is the loaded one with
    the returned outcomes merged in, and nothing else: the processed set is
    the loaded set and the ids of the songs whose worker returned; the entry
    of such a song is the dictionary its worker returned; a song whose
    worker raised is not in the processed set and its entry is as loaded;
    and the entries of all other keys are as loaded. *)
Theorem ledger_after_run (songs : list string) (su : setup) (io : disk)
    (now : string) (schedule : list (nat * input)) (fs : files) (r : report)
    (p : pool) (pi : gset Z) (sd : gmap string json) :
  main songs su io now schedule fs = Some r ->
  batch r = Some p ->
  load_progress fs = Some (pi, sd) ->
  exists m results,
    saved r = Some m
    /\ gather_results (tasks p) = Some results
    /\ length results = length (created r)
    /\ (forall i, i ∈ m.1
          <-> i ∈ pi \/ exists o, Returned o ∈ results /\ id (song_of o) = i)
    /\ (forall j o, results !! j = Some (Returned o) ->
          created r !! j = Some (song_of o)
          /\ m.2 !! str (id (song_of o)) = Some (outcome_json o))
    /\ (forall j sg, created r !! j = Some sg -> results !! j = Some Raised ->
          (id sg ∉ m.1) /\ m.2 !! str (id sg) = sd !! str (id sg))
    /\ (forall k, (forall sg, sg ∈ created r -> str (id sg) <> k) ->
          m.2 !! k = sd !! k).
Proof.
  intros Hmain Hbatch Hload.
  destruct (run_results _ _ _ _ _ _ _ _ Hmain Hbatch)
    as (pi' & sd' & results & _ & Hload' & Hcreated & Hres & Hsaved & Hlen
        & Hown & Huniq & Hraised).
  rewrite Hload in Hload'. injection Hload' as <- <-.
  exists (merge_results results (pi, sd)), results.
  split; [done|]. split; [done|]. split; [done|].
  split; [intros i; apply merge_results_ids|].
  split; [|split].
  - intros j o Hj. split; [by apply Hown|].
    apply merge_results_own_entry; [by eapply list_elem_of_lookup_2|].
    intros o' Ho'. apply Huniq; [|done]. by eapply list_elem_of_lookup_2.
  - intros j sg Hj Hr. split; [by eapply Hraised|].
    apply (merge_results_other_key results (pi, sd)).
    intros o Ho Hkey. apply (inj str) in Hkey.
    apply list_elem_of_lookup in Ho as [i Hi].
    pose proof (Hown _ _ Hi) as Hsi. rewrite Hcreated in Hsi, Hj.
    pose proof (songs_to_process_distinct _ _ _ _ _ _ Hsi Hj Hkey) as ->.
    rewrite Hi in Hr. done.
  - intros k Hk. apply (merge_results_other_key results (pi, sd)).
    intros o Ho. apply list_elem_of_lookup in Ho as [i Hi].
    apply Hk. eapply list_elem_of_lookup_2. by apply Hown.
Qed.

(** X9. What the next run takes up.  When the ledger a run saved reads
    back, the next run over the same liked songs creates tasks for exactly
    the songs whose worker raised in this run: a song whose worker returned
    is not tried again, whatever its status, and a song whose worker raised
    is. *)
Theorem next_run_retries_raised (songs : list string) (su su' : setup)
    (io io' : disk) (now now' : string) (schedule schedule' : list (nat * input))
    (fs : files) (r r' : report) (p : pool) (results : list result) :
  main songs su io now schedule fs = Some r ->
  batch r = Some p ->
  gather_results (tasks p) = Some results ->
  save_reads_back now r ->
  setup_returns su' = true ->
  main songs su' io' now' schedule' (files_after r) = Some r' ->
  forall sg, sg ∈ created r'
    <-> exists j, created r !! j = Some sg /\ results !! j = Some Raised.
Proof.
  intros Hmain Hbatch Hres Hback Hsetup Hmain' sg.
  destruct (run_results _ _ _ _ _ _ _ _ Hmain Hbatch)
    as (pi & sd & results' & Hsongs & Hload & Hcreated & Hres' & Hsaved & Hlen
        & Hown & Huniq & Hraised).
  rewrite Hres in Hres'. injection Hres' as <-.
  unfold save_reads_back in Hback. rewrite Hsaved in Hback.
  destruct (merge_results results (pi, sd)) as [pi1 sd1] eqn:Hm.
  destruct Hback as [Hfile Hjson].
  pose proof (load_progress_document _ _ _ _ _ Hfile Hjson) as Hload1.
  rewrite <- (load_progress_ext (after_setup su' (files_after r)))
    in Hload1 by apply after_setup_progress.
  assert (created r' = songs_to_process songs pi1) as Hcreated'.
  { destruct (main_loaded _ _ _ _ _ _ _ _ _ Hsongs Hsetup Hload1 Hmain')
      as [[-> ->] | (p' & results' & _ & _ & _ & ->)]; done. }
  assert (forall i, i ∈ pi1
            <-> i ∈ pi \/ exists o, Returned o ∈ results /\ id (song_of o) = i)
    as Hids.
  { intros i. pose proof (merge_results_ids results (pi, sd) i) as H.
    by rewrite Hm in H. }
  rewrite Hcreated'. split.
  - intros Hin.
    pose proof (pending_from_song _ _ _ _ _ Hin) as (_ & Hnot & _).
    assert (id sg ∉ pi) as Hpi by (intros H; apply Hnot, Hids; by left).
    pose proof (pending_from_mono _ _ _ pi _ _ Hin Hpi) as Hin0.
    fold (songs_to_process songs pi) in Hin0. rewrite <- Hcreated in Hin0.
    apply list_elem_of_lookup in Hin0 as [j Hj]. exists j. split; [done|].
    destruct (results !! j) as [[o|]|] eqn:Hrj; [|done|].
    + exfalso. apply Hnot, Hids. right. exists o.
      split; [by eapply list_elem_of_lookup_2|].
      pose proof (Hown _ _ Hrj) as Ho. rewrite Hj in Ho. by injection Ho as ->.
    + apply lookup_ge_None in Hrj. apply lookup_lt_Some in Hj. lia.
  - intros (j & Hj & Hrj).
    pose proof (Hraised _ _ Hj Hrj) as Hnot.
    apply list_elem_of_lookup_2 in Hj. rewrite Hcreated in Hj.
    by eapply pending_from_mono.
Qed.

(** The run over [five_songs] in which the worker of song 4 raises. *)
Lemma ledger_after_run_witness :
  exists r p,
    main five_songs (Setup None true) Completes "2026-01-02 10:00:00"
      raise_schedule files_1_2 = Some r
    /\ batch r = Some p
    /\ exists m results,
         saved r = Some m
         /\ gather_results (tasks p) = Some results
         /\ length results = length (created r)
         /\ (forall i, i ∈ m.1
               <-> i ∈ ({[1; 2]} : gset Z)
                   \/ exists o, Returned o ∈ results /\ id (song_of o) = i)
         /\ (forall j o, results !! j = Some (Returned o) ->
               created r !! j = Some (song_of o)
               /\ m.2 !! str (id (song_of o)) = Some (outcome_json o))
         /\ (forall j sg, created r !! j = Some sg ->
               results !! j = Some Raised ->
               (id sg ∉ m.1) /\ m.2 !! str (id sg) = ledger_1_2.2 !! str (id sg))
         /\ (forall k, (forall sg, sg ∈ created r -> str (id sg) <> k) ->
               m.2 !! k = ledger_1_2.2 !! k).
Proof.
  eexists. eexists.
  split; [vm_compute; reflexivity|]. split; [reflexivity|].
  eapply (ledger_after_run five_songs (Setup None true) Completes
            "2026-01-02 10:00:00" raise_schedule files_1_2).
  - vm_compute. reflexivity.
  - reflexivity.
  - vm_compute. reflexivity.
Defined.

(** After that run, the next one creates a task for song 4 alone. *)
Lemma next_run_retries_raised_witness :
  exists r r2 (results : list result),
    main five_songs (Setup None true) Completes "2026-01-02 10:00:00"
      raise_schedule files_1_2 = Some r
    /\ main five_songs (Setup None true) Completes "2026-01-03 10:00:00"
         retry_schedule (files_after r) = Some r2
    /\ id <$> created r2 = [4]
    /\ forall sg, sg ∈ created r2
         <-> exists j, created r !! j = Some sg /\ results !! j = Some Raised.
Proof.
  eexists. eexists. eexists.
  split; [vm_compute; reflexivity|]. split; [vm_compute; reflexivity|].
  split; [vm_compute; reflexivity|].
  eapply (next_run_retries_raised five_songs (Setup None true)
            (Setup None true) Completes Completes "2026-01-02 10:00:00"
            "2026-01-03 10:00:00" raise_schedule retry_schedule files_1_2).
  - vm_compute. reflexivity.
  - reflexivity.
  - vm_compute. reflexivity.
  - split; vm_compute; reflexivity.
  - reflexivity.
  - vm_compute. reflexivity.
Defined.

(** ** The liked songs *)

Lemma fetch_library saved : forall fuel offset results,
  (length saved - offset + 50 <= 50 * fuel)%nat ->
  fetch_saved_tracks fuel (library saved) offset results
  = Some (results ++ drop offset saved).
Proof.
  induction fuel as [|fuel IH]; intros offset results Hfuel; [lia|].
  cbn [fetch_saved_tracks]. unfold library at 1.
  destruct (take 50 (drop offset saved)) as [|x page] eqn:Hpage.
  - destruct (drop offset saved) as [|y l]; [|done].
    by rewrite app_nil_r.
  - assert (offset < length saved)%nat.
    { apply (f_equal length) in Hpage.
      rewrite length_take, length_drop in Hpage. cbn [length] in Hpage. lia. }
    rewrite IH by lia. rewrite <- Hpage, <- app_assoc.
    rewrite <- drop_drop, take_drop. done.
Qed.

(** X10. Against a service that pages through the library fifty tracks at
    a time, the function returns the query of every saved track that has a
    name, once and in the order of the library, the last of its requests
    being the one answered with no items; the tracks without a track object or without a
    name are left out. *)
Theorem liked_tracks_all_fetched (saved : list saved_track_object)
    (fuel : nat) :
  (length saved + 50 <= 50 * fuel)%nat ->
  get_spotify_liked_tracks fuel (library saved)
  = Some (omap song_query saved).
Proof.
  intros Hfuel. unfold get_spotify_liked_tracks.
  rewrite fetch_library by lia. done.
Qed.

Lemma liked_tracks_all_fetched_witness :
  get_spotify_liked_tracks 4 (library (numbered_library 120))
  = Some (omap song_query (numbered_library 120)).
Proof.
  apply (liked_tracks_all_fetched (numbered_library 120) 4).
  unfold numbered_library. rewrite length_fmap, length_seq. lia.
Defined.

Lemma fetch_library_failing saved k sp : forall n fuel results,
  (n <= k)%nat ->
  (50 * k <= length saved)%nat ->
  (forall j, (j < k)%nat -> sp (50 * j)%nat = library saved (50 * j)%nat) ->
  sp (50 * k)%nat = None \/ sp (50 * k)%nat = Some [] ->
  (n < fuel)%nat ->
  fetch_saved_tracks fuel sp (50 * (k - n)) results
  = Some (results ++ take (50 * n) (drop (50 * (k - n)) saved)).
Proof.
  induction n as [|n IH]; intros fuel results Hn Hlen Hsp Hend Hfuel;
    (destruct fuel as [|fuel]; [lia|]); cbn [fetch_saved_tracks].
  - rewrite Nat.sub_0_r. rewrite Nat.mul_0_r, take_0, app_nil_r.
    by destruct Hend as [-> | ->].
  - rewrite Hsp by lia. unfold library.
    destruct (take 50 (drop (50 * (k - S n)) saved)) as [|x page] eqn:Hpage.
    { apply (f_equal length) in Hpage. rewrite length_take, length_drop in Hpage.
      cbn [length] in Hpage. lia. }
    replace (50 * (k - S n) + 50)%nat with (50 * (k - n))%nat by lia.
    rewrite IH by (done || lia). rewrite <- Hpage, <- app_assoc. do 2 f_equal.
    replace (50 * S n)%nat with (50 + 50 * n)%nat by lia.
    rewrite <- (take_drop 50 (drop (50 * (k - S n)) saved)) at 2.
    rewrite take_app_add'
      by (rewrite length_take, length_drop; lia).
    rewrite drop_drop. do 3 f_equal. lia.
Qed.

(** X11. A failure cuts the list short, silently.  When the first [k]
    requests are answered with full pages and the next one raises, or is
    answered with no items, the function returns the queries of the first
    [50 * k] saved tracks as if they were the whole library. *)
Theorem liked_tracks_cut_at_failure (saved : list saved_track_object)
    (sp : spotify) (k fuel : nat) :
  (50 * k <= length saved)%nat ->
  (forall j, (j < k)%nat -> sp (50 * j)%nat = library saved (50 * j)%nat) ->
  sp (50 * k)%nat = None \/ sp (50 * k)%nat = Some [] ->
  (k < fuel)%nat ->
  get_spotify_liked_tracks fuel sp
  = Some (omap song_query (take (50 * k) saved)).
Proof.
  intros Hlen Hsp Hend Hfuel. unfold get_spotify_liked_tracks.
  pose proof (fetch_library_failing saved k sp k fuel []) as H.
  rewrite Nat.sub_diag, Nat.mul_0_r in H. rewrite H by (done || lia).
  by rewrite drop_0.
Qed.

(** Of 120 saved tracks, the first hundred when the third request raises. *)
Lemma liked_tracks_cut_at_failure_witness :
  get_spotify_liked_tracks 3 (library_failing 2 (numbered_library 120))
  = Some (omap song_query (take 100 (numbered_library 120))).
Proof.
  apply (liked_tracks_cut_at_failure (numbered_library 120)
           (library_failing 2 (numbered_library 120)) 2 3).
  - unfold numbered_library. rewrite length_fmap, length_seq. lia.
  - intros j Hj. unfold library_failing.
    by assert ((50 * j <? 50 * 2)%nat = true) as -> by (apply Nat.ltb_lt; lia).
  - left. reflexivity.
  - lia.
Defined.

(** X12. The loop ends only on an empty page or an exception: against a
    service that answers every request with items, the function does not
    return, however many iterations it is given. *)
Theorem liked_tracks_needs_an_end (sp : spotify) (fuel : nat) :
  (forall offset, exists x page, sp offset = Some (x :: page)) ->
  get_spotify_liked_tracks fuel sp = None.
Proof.
  intros Hsp. unfold get_spotify_liked_tracks.
  assert (forall offset results,
            fetch_saved_tracks fuel sp offset results = None) as ->; [|done].
  induction fuel as [|fuel IH]; intros offset results; [done|].
  cbn [fetch_saved_tracks]. destruct (Hsp offset) as (x & page & ->).
  apply IH.
Qed.

(** A service that ignores the offset. *)
Lemma liked_tracks_needs_an_end_witness :
  get_spotify_liked_tracks 1000 (fun _ => Some (numbered_library 1)) = None.
Proof.
  apply (liked_tracks_needs_an_end (fun _ => Some (numbered_library 1)) 1000).
  intros offset. by eexists _, _.
Defined.

(** ** The playlist *)

Lemma find_app_first {A} (f : A -> bool) (l1 l2 : list A) :
  List.find f (l1 ++ l2)
  = match List.find f l1 with
    | Some x => Some x
    | None => List.find f l2
    end.
Proof.
  induction l1 as [|x l1 IH]; [done|]. simpl. by destruct (f x).
Qed.

Lemma scan_playlists_served normalize yt title pages : forall token fuel,
  served yt token pages ->
  (length pages <= fuel)%nat ->
  exists calls,
    Forall (fun c => is_list_call c = true) calls
    /\ (length calls <= length pages)%nat
    /\ scan_playlists normalize fuel yt title token
       = Some (match List.find (same_title normalize title)
                       (concat (page_items <$> pages)) with
               | Some item => Existing (playlist_id item)
               | None => NoSuchPlaylist
               end, calls)
    /\ (List.find (same_title normalize title) (concat (page_items <$> pages))
        = None -> length calls = length pages).
Proof.
  intros token fuel Hserved. revert fuel.
  induction Hserved as [token page Hpage Hlast
                       |token page token' rest Hpage Hnext Hrest IH];
    intros [|fuel] Hfuel; simpl in Hfuel; try lia;
    cbn [scan_playlists fmap list_fmap concat]; rewrite Hpage.
  - rewrite app_nil_r, Hlast.
    exists [ListCall token].
    split; [by repeat constructor|]. split; [done|]. split; [|done].
    by destruct (List.find _ _).
  - rewrite find_app_first.
    destruct (List.find (same_title normalize title) (page_items page))
      as [item|] eqn:Hfind.
    + exists [ListCall token].
      split; [by repeat constructor|]. split; [simpl; lia|]. by split.
    + rewrite Hnext.
      destruct (IH fuel) as (calls & Hcalls & Hlen & -> & Hnone); [lia|].
      exists (ListCall token :: calls).
      split; [by constructor|]. split; [simpl; lia|]. split; [done|].
      intros H. simpl. by rewrite Hnone.
Qed.

(** X13. When the listing of the playlists goes through without an error,
    the function returns the id of the first playlist, in the order of the
    listing over all its pages, whose title is the wanted one up to case
    and surrounding blanks, and it sends no insert; when there is none it
    sends one insert, for the title as given, after the last page, and
    returns the id of the new playlist. *)
Theorem playlist_found_or_created (normalize : string -> string)
    (yt : youtube) (title : string) (pages : list playlists_page)
    (fuel : nat) :
  served yt None pages ->
  (length pages <= fuel)%nat ->
  exists calls,
    Forall (fun c => is_list_call c = true) calls
    /\ (length calls <= length pages)%nat
    /\ get_or_create_youtube_playlist normalize fuel yt title
       = match List.find (same_title normalize title)
                 (concat (page_items <$> pages)) with
         | Some item => Some (Some (playlist_id item), calls)
         | None => Some (playlists_insert yt title, calls ++ [InsertCall title])
         end
    /\ (List.find (same_title normalize title) (concat (page_items <$> pages))
        = None -> length calls = length pages).
Proof.
  intros Hserved Hfuel.
  destruct (scan_playlists_served normalize yt title pages None fuel
              Hserved Hfuel) as (calls & Hcalls & Hlen & Hscan & Hnone).
  exists calls. repeat split; try done.
  unfold get_or_create_youtube_playlist. rewrite Hscan.
  by destruct (List.find _ _).
Qed.

(** The wanted playlist is on the second page, in another case: it is
    found, and the playlist of the same name after it is not looked at. *)
Lemma playlist_found_or_created_witness :
  exists calls,
    Forall (fun c => is_list_call c = true) calls
    /\ (length calls <= 2)%nat
    /\ get_or_create_youtube_playlist lower 5 two_pages "Spotify Liked Songs"
       = Some (Some "p2", calls)
    /\ (List.find (same_title lower "Spotify Liked Songs")
          (concat (page_items <$>
             [PlaylistsPage [Playlist "p1" "Workout"] (Some "t2");
              PlaylistsPage [Playlist "p2" "spotify liked songs";
                             Playlist "p3" "Spotify Liked Songs"] None]))
        = None -> length calls = 2%nat).
Proof.
  apply (playlist_found_or_created lower two_pages "Spotify Liked Songs"
           [PlaylistsPage [Playlist "p1" "Workout"] (Some "t2");
            PlaylistsPage [Playlist "p2" "spotify liked songs";
                           Playlist "p3" "Spotify Liked Songs"] None] 5).
  - eapply served_next; [reflexivity|reflexivity|].
    apply served_last; reflexivity.
  - simpl. lia.
Defined.

(** ** How long a worker sleeps *)

Lemma backoff_within k :
  (S k < RETRY_ATTEMPTS)%nat ->
  sleep_within (Sleep (RETRY_DELAY * 2 ^ Z.of_nat k)) = true.
Proof.
  intros Hk. unfold sleep_within, longest_sleep.
  assert (0 < RETRY_DELAY) by done.
  assert (0 < 2 ^ Z.of_nat k) by (apply Z.pow_pos_nonneg; lia).
  assert (2 ^ Z.of_nat k <= 2 ^ Z.of_nat (RETRY_ATTEMPTS - 2))
    by (apply Z.pow_le_mono_r; lia).
  apply andb_true_iff. split; apply Z.leb_le; nia.
Qed.

Lemma delay_within :
  (1 < RETRY_ATTEMPTS)%nat -> sleep_within (Sleep RETRY_DELAY) = true.
Proof.
  intros HR. pose proof (backoff_within 0 HR) as H.
  by rewrite Z.mul_1_r in H.
Qed.

Lemma search_on_reply_sleeps k r s :
  (k < RETRY_ATTEMPTS)%nat ->
  exists evs, journal (search_on_reply k r s).2 = journal s ++ evs
    /\ Forall (fun e => sleep_within e = true) evs.
Proof.
  intros Hk. destruct s as [q j]. unfold search_on_reply.
  destruct r as [st items| |].
  - destruct (st =? 200).
    { exists []. rewrite app_nil_r. by destruct items. }
    destruct ((st =? 403) || (st =? 429)); [|exists []; by rewrite app_nil_r].
    destruct (k =? RETRY_ATTEMPTS - 1)%nat eqn:Ek.
    { exists []. by rewrite app_nil_r. }
    apply Nat.eqb_neq in Ek. eexists. split; [reflexivity|].
    constructor; [apply backoff_within; lia|constructor].
  - destruct (k <? RETRY_ATTEMPTS - 1)%nat eqn:Ek.
    + apply Nat.ltb_lt in Ek. eexists. split; [reflexivity|].
      constructor; [apply delay_within; lia|constructor].
    + apply Nat.ltb_ge in Ek. unfold search_attempt.
      assert ((S k <? RETRY_ATTEMPTS)%nat = false) as ->
        by (apply Nat.ltb_ge; lia).
      exists []. by rewrite app_nil_r.
  - exists []. by rewrite app_nil_r.
Qed.

Lemma add_on_reply_sleeps k r s :
  (k < RETRY_ATTEMPTS)%nat ->
  exists evs, journal (add_on_reply k r s).2 = journal s ++ evs
    /\ Forall (fun e => sleep_within e = true) evs.
Proof.
  intros Hk. destruct s as [q j]. unfold add_on_reply.
  destruct r as [st items| |].
  - destruct (st =? 200); [exists []; by rewrite app_nil_r|].
    destruct (st =? 409); [exists []; by rewrite app_nil_r|].
    destruct ((st =? 403) || (st =? 429)); [|exists []; by rewrite app_nil_r].
    destruct (k =? RETRY_ATTEMPTS - 1)%nat eqn:Ek.
    { exists []. by rewrite app_nil_r. }
    apply Nat.eqb_neq in Ek. eexists. split; [reflexivity|].
    constructor; [apply backoff_within; lia|constructor].
  - destruct (k <? RETRY_ATTEMPTS - 1)%nat eqn:Ek.
    + apply Nat.ltb_lt in Ek. eexists. split; [reflexivity|].
      constructor; [apply delay_within; lia|constructor].
    + apply Nat.ltb_ge in Ek. unfold add_attempt.
      assert ((S k <? RETRY_ATTEMPTS)%nat = false) as ->
        by (apply Nat.ltb_ge; lia).
      exists []. by rewrite app_nil_r.
  - exists []. by rewrite app_nil_r.
Qed.

Lemma search_attempt_sleeps k s :
  exists evs, journal (search_attempt k s).2 = journal s ++ evs
    /\ Forall (fun e => sleep_within e = true) evs.
Proof.
  destruct (search_attempt_cases k s) as [[_ ->] | [_ ->]].
  - eexists. split; [reflexivity|]. by repeat constructor.
  - exists []. by rewrite app_nil_r.
Qed.

Lemma add_attempt_sleeps k s :
  exists evs, journal (add_attempt k s).2 = journal s ++ evs
    /\ Forall (fun e => sleep_within e = true) evs.
Proof.
  destruct (add_attempt_cases k s) as [[_ ->] | [_ ->]].
  - eexists. split; [reflexivity|]. by repeat constructor.
  - exists []. by rewrite app_nil_r.
Qed.

Lemma after_search_sleeps sg v s :
  exists evs, journal (after_search sg v s).2 = journal s ++ evs
    /\ Forall (fun e => sleep_within e = true) evs.
Proof.
  destruct (after_search_cases sg v s)
    as [[_ ->] | [(_ & _ & ->) | (_ & w & _ & ->)]].
  - exists []. by rewrite app_nil_r.
  - exists []. by rewrite app_nil_r.
  - eexists. split; [reflexivity|]. by repeat constructor.
Qed.

Lemma continue_search_sleeps sg pr s :
  exists evs, journal (continue_search sg pr s).2 = journal s ++ evs
    /\ Forall (fun e => sleep_within e = true) evs.
Proof.
  destruct pr as [su|v|]; cbn [continue_search].
  - exists []. by rewrite app_nil_r.
  - apply after_search_sleeps.
  - exists []. by rewrite app_nil_r.
Qed.

Lemma continue_add_sleeps sg w pr s :
  exists evs, journal (continue_add sg w pr s).2 = journal s ++ evs
    /\ Forall (fun e => sleep_within e = true) evs.
Proof.
  destruct pr as [su|ok|]; cbn [continue_add].
  - exists []. by rewrite app_nil_r.
  - rewrite after_add_cases. exists []. by rewrite app_nil_r.
  - exists []. by rewrite app_nil_r.
Qed.

Lemma worker_step_sleeps sg st inp c f st' s' rq :
  worker_step sg st inp = Some c ->
  c (Shared f []) = (st', s') ->
  trace_ok st rq ->
  Forall (fun e => sleep_within e = true) (journal s').
Proof.
  intros Hstep Hc Hok. destruct st as [|su|w su|res]; [| | |done].
  - destruct inp; try discriminate. injection Hstep as <-.
    unfold worker_entry, bind, read_quota in Hc. cbn [quota_exceeded] in Hc.
    destruct f; [by injection Hc as <- <-|].
    rewrite search_entry_clear in Hc.
    destruct (search_attempt_sleeps 0 (Shared false [])) as (e1 & H1 & F1).
    destruct (search_attempt 0 (Shared false [])) as [pr s1].
    destruct (continue_search_sleeps sg pr s1) as (e2 & H2 & F2).
    rewrite Hc in H2. cbn [snd journal] in *. rewrite H2, H1.
    apply Forall_app. by split.
  - simpl in Hstep. destruct su as [k|k], inp as [|r|]; try discriminate;
      injection Hstep as <-; unfold bind in Hc; cbn [trace_ok] in Hok.
    + destruct (search_on_reply_sleeps k r (Shared f [])) as (e1 & H1 & F1);
        [by destruct Hok|].
      destruct (search_on_reply k r (Shared f [])) as [pr s1].
      destruct (continue_search_sleeps sg pr s1) as (e2 & H2 & F2).
      rewrite Hc in H2. cbn [snd journal] in *. rewrite H2, H1.
      apply Forall_app. by split.
    + destruct (search_attempt_sleeps (S k) (Shared f [])) as (e1 & H1 & F1).
      destruct (search_attempt (S k) (Shared f [])) as [pr s1].
      destruct (continue_search_sleeps sg pr s1) as (e2 & H2 & F2).
      rewrite Hc in H2. cbn [snd journal] in *. rewrite H2, H1.
      apply Forall_app. by split.
  - simpl in Hstep. destruct su as [k|k], inp as [|r|]; try discriminate;
      injection Hstep as <-; unfold bind in Hc; cbn [trace_ok] in Hok.
    + destruct (add_on_reply_sleeps k r (Shared f [])) as (e1 & H1 & F1);
        [by destruct Hok|].
      destruct (add_on_reply k r (Shared f [])) as [pr s1].
      destruct (continue_add_sleeps sg w pr s1) as (e2 & H2 & F2).
      rewrite Hc in H2. cbn [snd journal] in *. rewrite H2, H1.
      apply Forall_app. by split.
    + destruct (add_attempt_sleeps (S k) (Shared f [])) as (e1 & H1 & F1).
      destruct (add_attempt (S k) (Shared f [])) as [pr s1].
      destruct (continue_add_sleeps sg w pr s1) as (e2 & H2 & F2).
      rewrite Hc in H2. cbn [snd journal] in *. rewrite H2, H1.
      apply Forall_app. by split.
Qed.

Lemma pool_exec_sleeps schedule : forall p p',
  pool_exec schedule p = Some p' ->
  pool_traces_ok p ->
  Forall (fun ie => sleep_within ie.2 = true) (log p) ->
  Forall (fun ie => sleep_within ie.2 = true) (log p').
Proof.
  induction schedule as [|[i inp] schedule IH]; intros p p'.
  - by intros [= <-].
  - simpl. destruct (pool_step i inp p) as [p1|] eqn:Hstep; [|done].
    intros Hexec Hok Hlog. eapply IH; [done|by eapply pool_step_traces_ok|].
    destruct (pool_step_inv _ _ _ _ Hstep)
      as (sg & st & c & st' & s' & Hi & _ & Hw & Hc & ->).
    cbn [log]. apply Forall_app. split; [done|].
    apply Forall_fmap.
    apply (worker_step_sleeps _ _ _ _ _ _ _ _ Hw Hc (Hok _ _ _ Hi)).
Qed.

(** X14. No worker of a batch sleeps less than [RETRY_DELAY] seconds or
    more than [RETRY_DELAY * 2 ^ (RETRY_ATTEMPTS - 2)] seconds at a time,
    whatever the replies. *)
Theorem sleeps_within_bounds (q : bool) (songs : list song)
    (schedule : list (nat * input)) (p : pool) (i : nat) (seconds : Z) :
  pool_exec schedule (gather_start q songs) = Some p ->
  (i, Sleep seconds) ∈ log p ->
  RETRY_DELAY <= seconds <= longest_sleep.
Proof.
  intros Hexec Hin.
  pose proof (pool_exec_sleeps _ _ _ Hexec (gather_start_traces_ok q songs)
                (Forall_nil_2 _)) as Hall.
  rewrite Forall_forall in Hall. specialize (Hall _ Hin).
  cbn [snd sleep_within] in Hall.
  apply andb_true_iff in Hall as [H1 H2].
  apply Z.leb_le in H1, H2. done.
Qed.

(** The second sleep of the third task of [three_songs], ten seconds. *)
Lemma sleeps_within_bounds_witness : RETRY_DELAY <= 10 <= longest_sleep.
Proof.
  apply (sleeps_within_bounds false three_songs three_schedule three_pool_end
           2 10); [reflexivity|].
  unfold three_pool_end. cbn [log]. do 6 apply list_elem_of_further.
  apply list_elem_of_here.
Defined.

(** ** What is written is read back *)

Import Json.

Ltac div_lia := zify; Z.to_euclidean_division_equations; lia.

Lemma hex_value_digit d : (d < 16)%N -> hex_value (hex_digit d) = Some d.
Proof.
  intros Hd.
  assert (d = 0 \/ d = 1 \/ d = 2 \/ d = 3 \/ d = 4 \/ d = 5 \/ d = 6 \/ d = 7
          \/ d = 8 \/ d = 9 \/ d = 10 \/ d = 11 \/ d = 12 \/ d = 13 \/ d = 14
          \/ d = 15)%N as H by lia.
  repeat (destruct H as [-> | H]; [reflexivity|]). by subst.
Qed.

Lemma hex4_digits cp :
  (cp < 65536)%N ->
  hex4 (hex_digit (cp / 4096)) (hex_digit ((cp / 256) mod 16))
       (hex_digit ((cp / 16) mod 16)) (hex_digit (cp mod 16)) = Some cp.
Proof.
  intros Hcp. unfold hex4.
  rewrite !hex_value_digit by div_lia. f_equal. div_lia.
Qed.

Lemma read_string_u a b h l cp rest :
  hex4 a b h l = Some cp ->
  is_high_surrogate cp = false ->
  read_string true (String "u" (String a (String b (String h (String l rest)))))
  = match read_string false rest with
    | Some (t, r) => Some (utf8_encode cp +:+ t, r)
    | None => None
    end.
Proof.
  intros Hhex Hhigh. cbn [read_string]. 
  change (Ascii.eqb "u" "u") with true. cbv iota. rewrite Hhex, Hhigh.
  repeat match goal with
         | |- context [match ?x with _ => _ end] =>
             lazymatch x with
             | read_string _ _ => fail
             | _ => destruct x
             end
         end; reflexivity.
Qed.

Lemma read_string_pair a b h l a2 b2 h2 l2 hi lo rest :
  hex4 a b h l = Some hi -> is_high_surrogate hi = true ->
  hex4 a2 b2 h2 l2 = Some lo -> is_low_surrogate lo = true ->
  read_string true
    (String "u" (String a (String b (String h (String l
       (String "\" (String "u" (String a2 (String b2 (String h2 (String l2
          rest)))))))))))
  = match read_string false rest with
    | Some (t, r) => Some (utf8_encode (join_surrogates hi lo) +:+ t, r)
    | None => None
    end.
Proof.
  intros Hhi Hhigh Hlo Hlow. cbn [read_string].
  change (Ascii.eqb "u" "u") with true. cbv iota.
  by rewrite Hhi, Hhigh, Hlo, Hlow.
Qed.

Lemma read_u_escape16 cp rest :
  (cp < 65536)%N -> is_high_surrogate cp = false ->
  read_string false (u_escape16 cp +:+ rest)
  = match read_string false rest with
    | Some (t, r) => Some (utf8_encode cp +:+ t, r)
    | None => None
    end.
Proof.
  intros Hcp Hhigh. unfold u_escape16. cbn [String.append].
  rewrite <- (read_string_u _ _ _ _ cp rest (hex4_digits cp Hcp) Hhigh).
  reflexivity.
Qed.

Lemma read_u_escape cp rest :
  (cp < 1114112)%N -> is_high_surrogate cp = false ->
  read_string false (u_escape cp +:+ rest)
  = match read_string false rest with
    | Some (t, r) => Some (utf8_encode cp +:+ t, r)
    | None => None
    end.
Proof.
  intros Hcp Hhigh. unfold u_escape.
  destruct (cp <? 65536)%N eqn:E.
  - apply N.ltb_lt in E. by apply read_u_escape16.
  - apply N.ltb_ge in E. unfold u_escape16. cbn [String.append].
    set (hi := (55296 + (cp - 65536) / 1024)%N).
    set (lo := (56320 + (cp - 65536) mod 1024)%N).
    assert (hi < 65536)%N as Hhi by (unfold hi; div_lia).
    assert (lo < 65536)%N as Hlo by (unfold lo; div_lia).
    assert (is_high_surrogate hi = true) as Hh.
    { unfold is_high_surrogate. apply andb_true_iff.
      split; apply N.leb_le; unfold hi; div_lia. }
    assert (is_low_surrogate lo = true) as Hl.
    { unfold is_low_surrogate. apply andb_true_iff.
      split; apply N.leb_le; unfold lo; div_lia. }
    assert (join_surrogates hi lo = cp) as Hjoin
      by (unfold join_surrogates, hi, lo; div_lia).
    rewrite <- Hjoin.
    rewrite <- (read_string_pair _ _ _ _ _ _ _ _ hi lo rest
                  (hex4_digits hi Hhi) Hh (hex4_digits lo Hlo) Hl).
    reflexivity.
Qed.

Lemma ascii_of_code c : ascii_of_N (code c) = c.
Proof. apply ascii_N_embedding. Qed.

Lemma code_lt c : (code c < 256)%N.
Proof. apply N_ascii_bounded. Qed.

Lemma read_escape c rest :
  (code c < 128)%N ->
  read_string false (escape c +:+ rest)
  = match read_string false rest with
    | Some (t, r) => Some (String c t, r)
    | None => None
    end.
Proof.
  intros Hc.
  destruct c as [[] [] [] [] [] [] [] []];
    try (vm_compute in Hc; discriminate); clear Hc;
    first [ reflexivity
          | match goal with
            | |- read_string false (escape ?c +:+ _) = _ =>
                exact (read_u_escape (code c) rest eq_refl eq_refl)
            end ].
Qed.

Lemma append_cons x (a b : string) : String x a +:+ b = String x (a +:+ b).
Proof. reflexivity. Qed.

Lemma append_nil_l (b : string) : EmptyString +:+ b = b.
Proof. reflexivity. Qed.

Lemma append_assoc (a b c : string) : (a +:+ b) +:+ c = a +:+ (b +:+ c).
Proof.
  induction a as [|x a IH]; [done|]. rewrite !append_cons. by rewrite IH.
Qed.

Lemma append_nil_r (a : string) : a +:+ EmptyString = a.
Proof.
  induction a as [|x a IH]; [done|]. rewrite append_cons. by rewrite IH.
Qed.

Lemma length_append (a b : string) :
  String.length (a +:+ b) = (String.length a + String.length b)%nat.
Proof.
  induction a as [|x a IH]; [done|]. rewrite append_cons. simpl.
  by rewrite IH.
Qed.

(** The shapes of well-formed UTF-8: a character of one, two, three or four
    bytes, followed by well-formed UTF-8. *)
Lemma utf8_cases s :
  utf8 s = true ->
  s = EmptyString
  \/ (exists c s', s = String c s' /\ (code c < 128)%N /\ utf8 s' = true)
  \/ (exists c1 c2 s', s = String c1 (String c2 s')
        /\ (194 <= code c1 <= 223)%N /\ (128 <= code c2 <= 191)%N
        /\ utf8 s' = true)
  \/ (exists c1 c2 c3 s', s = String c1 (String c2 (String c3 s'))
        /\ (224 <= code c1 <= 239)%N /\ (128 <= code c2 <= 191)%N
        /\ (code c1 = 224 -> 160 <= code c2)%N
        /\ (code c1 = 237 -> code c2 <= 159)%N
        /\ (128 <= code c3 <= 191)%N
        /\ utf8 s' = true)
  \/ (exists c1 c2 c3 c4 s',
        s = String c1 (String c2 (String c3 (String c4 s')))
        /\ (240 <= code c1 <= 244)%N /\ (128 <= code c2 <= 191)%N
        /\ (code c1 = 240 -> 144 <= code c2)%N
        /\ (code c1 = 244 -> code c2 <= 143)%N
        /\ (128 <= code c3 <= 191)%N /\ (128 <= code c4 <= 191)%N
        /\ utf8 s' = true).
Proof.
  unfold utf8. intros H. destruct s as [|c1 s]; [by left|right].
  cbn [utf8_valid] in H.
  repeat match type of H with
         | context [if ?b then _ else _] => destruct b eqn:?
         end; try discriminate;
    repeat match goal with
           | E : (_ && _) = true |- _ => apply andb_true_iff in E as [? ?]
           | E : (_ && _) = false |- _ => apply andb_false_iff in E
           | E : (_ <? _)%N = true |- _ => apply N.ltb_lt in E
           | E : (_ <? _)%N = false |- _ => apply N.ltb_ge in E
           | E : (_ <=? _)%N = true |- _ => apply N.leb_le in E
           | E : (_ =? _)%N = true |- _ => apply N.eqb_eq in E
           | E : (_ =? _)%N = false |- _ => apply N.eqb_neq in E
           end.
  - left. by exists c1, s.
  - right; left. destruct s as [|c2 s]; [done|]. cbn [utf8_valid] in H.
    destruct ((128 <=? code c2) && (code c2 <=? 191))%N eqn:E2; [|done].
    apply andb_true_iff in E2 as [?%N.leb_le ?%N.leb_le].
    exists c1, c2, s. repeat split; try done; lia.
  - right; right; left. destruct s as [|c2 [|c3 s]]; cbn [utf8_valid] in H;
      try done.
    + by destruct ((160 <=? code c2) && (code c2 <=? 191))%N.
    + destruct ((160 <=? code c2) && (code c2 <=? 191))%N eqn:E2; [|done].
      destruct ((128 <=? code c3) && (code c3 <=? 191))%N eqn:E3; [|done].
      apply andb_true_iff in E2 as [?%N.leb_le ?%N.leb_le].
      apply andb_true_iff in E3 as [?%N.leb_le ?%N.leb_le].
      exists c1, c2, c3, s. repeat split; try done; lia.
  - right; right; left. destruct s as [|c2 [|c3 s]]; cbn [utf8_valid] in H;
      try done.
    + by destruct ((128 <=? code c2) && (code c2 <=? 159))%N.
    + destruct ((128 <=? code c2) && (code c2 <=? 159))%N eqn:E2; [|done].
      destruct ((128 <=? code c3) && (code c3 <=? 191))%N eqn:E3; [|done].
      apply andb_true_iff in E2 as [?%N.leb_le ?%N.leb_le].
      apply andb_true_iff in E3 as [?%N.leb_le ?%N.leb_le].
      exists c1, c2, c3, s. repeat split; try done; lia.
  - right; right; left. destruct s as [|c2 [|c3 s]]; cbn [utf8_valid] in H;
      try done.
    + by destruct ((128 <=? code c2) && (code c2 <=? 191))%N.
    + destruct ((128 <=? code c2) && (code c2 <=? 191))%N eqn:E2; [|done].
      destruct ((128 <=? code c3) && (code c3 <=? 191))%N eqn:E3; [|done].
      apply andb_true_iff in E2 as [?%N.leb_le ?%N.leb_le].
      apply andb_true_iff in E3 as [?%N.leb_le ?%N.leb_le].
      exists c1, c2, c3, s. repeat split; try done; lia.
  - right; right; right. destruct s as [|c2 [|c3 [|c4 s]]];
      cbn [utf8_valid] in H; try done.
    + by destruct ((144 <=? code c2) && (code c2 <=? 191))%N.
    + destruct ((144 <=? code c2) && (code c2 <=? 191))%N; [|done].
      by destruct ((128 <=? code c3) && (code c3 <=? 191))%N.
    + destruct ((144 <=? code c2) && (code c2 <=? 191))%N eqn:E2; [|done].
      destruct ((128 <=? code c3) && (code c3 <=? 191))%N eqn:E3; [|done].
      destruct ((128 <=? code c4) && (code c4 <=? 191))%N eqn:E4; [|done].
      apply andb_true_iff in E2 as [?%N.leb_le ?%N.leb_le].
      apply andb_true_iff in E3 as [?%N.leb_le ?%N.leb_le].
      apply andb_true_iff in E4 as [?%N.leb_le ?%N.leb_le].
      exists c1, c2, c3, c4, s. repeat split; try done; lia.
  - right; right; right. destruct s as [|c2 [|c3 [|c4 s]]];
      cbn [utf8_valid] in H; try done.
    + by destruct ((128 <=? code c2) && (code c2 <=? 191))%N.
    + destruct ((128 <=? code c2) && (code c2 <=? 191))%N; [|done].
      by destruct ((128 <=? code c3) && (code c3 <=? 191))%N.
    + destruct ((128 <=? code c2) && (code c2 <=? 191))%N eqn:E2; [|done].
      destruct ((128 <=? code c3) && (code c3 <=? 191))%N eqn:E3; [|done].
      destruct ((128 <=? code c4) && (code c4 <=? 191))%N eqn:E4; [|done].
      apply andb_true_iff in E2 as [?%N.leb_le ?%N.leb_le].
      apply andb_true_iff in E3 as [?%N.leb_le ?%N.leb_le].
      apply andb_true_iff in E4 as [?%N.leb_le ?%N.leb_le].
      exists c1, c2, c3, c4, s. repeat split; try done; lia.
  - right; right; right. destruct s as [|c2 [|c3 [|c4 s]]];
      cbn [utf8_valid] in H; try done.
    + by destruct ((128 <=? code c2) && (code c2 <=? 143))%N.
    + destruct ((128 <=? code c2) && (code c2 <=? 143))%N; [|done].
      by destruct ((128 <=? code c3) && (code c3 <=? 191))%N.
    + destruct ((128 <=? code c2) && (code c2 <=? 143))%N eqn:E2; [|done].
      destruct ((128 <=? code c3) && (code c3 <=? 191))%N eqn:E3; [|done].
      destruct ((128 <=? code c4) && (code c4 <=? 191))%N eqn:E4; [|done].
      apply andb_true_iff in E2 as [?%N.leb_le ?%N.leb_le].
      apply andb_true_iff in E3 as [?%N.leb_le ?%N.leb_le].
      apply andb_true_iff in E4 as [?%N.leb_le ?%N.leb_le].
      exists c1, c2, c3, c4, s. repeat split; try done; lia.
Qed.

Lemma ltb_false_ge a b : (b <= a)%N -> (a <? b)%N = false.
Proof. intros. by apply N.ltb_ge. Qed.

Lemma ltb_true_lt a b : (a < b)%N -> (a <? b)%N = true.
Proof. intros. by apply N.ltb_lt. Qed.

Lemma escape_all_1 c s :
  (code c < 128)%N ->
  escape_all 0 0 (String c s) = escape c +:+ escape_all 0 0 s.
Proof. intros H. cbn [escape_all]. by rewrite ltb_true_lt. Qed.

Lemma escape_all_2 c1 c2 s :
  (192 <= code c1 < 224)%N ->
  escape_all 0 0 (String c1 (String c2 s))
  = u_escape ((code c1 - 192) * 64 + code c2 mod 64) +:+ escape_all 0 0 s.
Proof.
  intros H. cbn [escape_all].
  rewrite (ltb_false_ge _ 128), (ltb_false_ge _ 192), (ltb_true_lt _ 224)
    by lia.
  reflexivity.
Qed.

Lemma escape_all_3 c1 c2 c3 s :
  (224 <= code c1 < 240)%N ->
  escape_all 0 0 (String c1 (String c2 (String c3 s)))
  = u_escape (((code c1 - 224) * 64 + code c2 mod 64) * 64 + code c3 mod 64)
    +:+ escape_all 0 0 s.
Proof.
  intros H. cbn [escape_all].
  rewrite (ltb_false_ge _ 128), (ltb_false_ge _ 192), (ltb_false_ge _ 224),
    (ltb_true_lt _ 240) by lia.
  reflexivity.
Qed.

Lemma escape_all_4 c1 c2 c3 c4 s :
  (240 <= code c1)%N ->
  escape_all 0 0 (String c1 (String c2 (String c3 (String c4 s))))
  = u_escape ((((code c1 - 240) * 64 + code c2 mod 64) * 64
               + code c3 mod 64) * 64 + code c4 mod 64)
    +:+ escape_all 0 0 s.
Proof.
  intros H. cbn [escape_all].
  rewrite (ltb_false_ge _ 128), (ltb_false_ge _ 192), (ltb_false_ge _ 224),
    (ltb_false_ge _ 240) by lia.
  reflexivity.
Qed.

Lemma ascii_of_eq c n : n = code c -> ascii_of_N n = c.
Proof. intros ->. apply ascii_of_code. Qed.

Lemma utf8_encode_2 c1 c2 :
  (194 <= code c1 <= 223)%N -> (128 <= code c2 <= 191)%N ->
  utf8_encode ((code c1 - 192) * 64 + code c2 mod 64)
  = String c1 (String c2 EmptyString).
Proof.
  intros H1 H2. unfold utf8_encode.
  rewrite (ltb_false_ge _ 128), (ltb_true_lt _ 2048) by div_lia.
  f_equal; [|f_equal]; apply ascii_of_eq; div_lia.
Qed.

Lemma utf8_encode_3 c1 c2 c3 :
  (224 <= code c1 <= 239)%N -> (128 <= code c2 <= 191)%N ->
  (code c1 = 224 -> 160 <= code c2)%N ->
  (128 <= code c3 <= 191)%N ->
  utf8_encode (((code c1 - 224) * 64 + code c2 mod 64) * 64 + code c3 mod 64)
  = String c1 (String c2 (String c3 EmptyString)).
Proof.
  intros H1 H2 H2' H3. unfold utf8_encode.
  rewrite (ltb_false_ge _ 128), (ltb_false_ge _ 2048), (ltb_true_lt _ 65536)
    by div_lia.
  f_equal; [|f_equal; [|f_equal]]; apply ascii_of_eq; div_lia.
Qed.

Lemma utf8_encode_4 c1 c2 c3 c4 :
  (240 <= code c1 <= 244)%N -> (128 <= code c2 <= 191)%N ->
  (code c1 = 240 -> 144 <= code c2)%N ->
  (128 <= code c3 <= 191)%N -> (128 <= code c4 <= 191)%N ->
  utf8_encode ((((code c1 - 240) * 64 + code c2 mod 64) * 64
                + code c3 mod 64) * 64 + code c4 mod 64)
  = String c1 (String c2 (String c3 (String c4 EmptyString))).
Proof.
  intros H1 H2 H2' H3 H4. unfold utf8_encode.
  rewrite (ltb_false_ge _ 128), (ltb_false_ge _ 2048), (ltb_false_ge _ 65536)
    by div_lia.
  f_equal; [|f_equal; [|f_equal; [|f_equal]]]; apply ascii_of_eq; div_lia.
Qed.

Lemma not_surrogate cp :
  (cp < 55296 \/ 57344 <= cp)%N -> is_high_surrogate cp = false.
Proof.
  intros H. unfold is_high_surrogate. apply andb_false_iff.
  destruct H; [left; apply N.leb_gt|right; apply N.leb_gt]; lia.
Qed.

(** A string literal reads back as the string it was written for. *)
Lemma read_string_quote n : forall s rest,
  (String.length s <= n)%nat ->
  utf8 s = true ->
  read_string false (escape_all 0 0 s +:+ String dquote rest) = Some (s, rest).
Proof.
  induction n as [|n IH]; intros s rest Hlen Hs;
    destruct (utf8_cases s Hs)
      as [-> | [(c & s' & -> & Hc & Hs')
         | [(c1 & c2 & s' & -> & H1 & H2 & Hs')
         | [(c1 & c2 & c3 & s' & -> & H1 & H2 & H2a & H2b & H3 & Hs')
         | (c1 & c2 & c3 & c4 & s' & -> & H1 & H2 & H2a & H2b & H3 & H4 & Hs')
         ]]]]; try done; simpl in Hlen; try lia.
  - rewrite escape_all_1, append_assoc, read_escape by done.
    rewrite IH by (done || lia). done.
  - rewrite escape_all_2, append_assoc by lia.
    rewrite read_u_escape by (try apply not_surrogate; div_lia).
    rewrite IH by (done || lia). by rewrite utf8_encode_2.
  - rewrite escape_all_3, append_assoc by lia.
    rewrite read_u_escape by (try apply not_surrogate; div_lia).
    rewrite IH by (done || lia). by rewrite utf8_encode_3.
  - rewrite escape_all_4, append_assoc by lia.
    rewrite read_u_escape by (try apply not_surrogate; div_lia).
    rewrite IH by (done || lia). by rewrite utf8_encode_4.
Qed.

(** *** Numbers *)

Lemma digit_cases c :
  is_digit c = true ->
  In c ["0"; "1"; "2"; "3"; "4"; "5"; "6"; "7"; "8"; "9"]%char.
Proof.
  destruct c as [[] [] [] [] [] [] [] []]; intros H;
    try (vm_compute in H; discriminate); simpl; tauto.
Qed.

Lemma pretty_N_char_digit d :
  (d < 10)%N ->
  is_digit (pretty_N_char d) = true
  /\ Z.of_nat (nat_of_ascii (pretty_N_char d) - 48) = Z.of_N d
  /\ (d <> 0%N -> pretty_N_char d <> "0"%char).
Proof.
  intros Hd.
  assert (d = 0 \/ d = 1 \/ d = 2 \/ d = 3 \/ d = 4 \/ d = 5 \/ d = 6 \/ d = 7
          \/ d = 8 \/ d = 9)%N as H by lia.
  repeat (destruct H as [-> | H]; [by repeat split|]). subst. by repeat split.
Qed.

Lemma pretty_N_go_app x : forall s,
  pretty_N_go x s = pretty_N_go x EmptyString +:+ s.
Proof.
  induction (N.lt_wf_0 x) as [x _ IH]; intros s.
  destruct (decide (x = 0%N)) as [->|Hx]; [done|].
  rewrite (pretty_N_go_step x s), (pretty_N_go_step x EmptyString) by lia.
  rewrite (IH (x / 10)%N) by (apply N.div_lt; lia).
  rewrite (IH (x / 10)%N ltac:(apply N.div_lt; lia) (String _ EmptyString)).
  by rewrite append_assoc.
Qed.

Lemma pretty_N_go_snoc x :
  (0 < x)%N ->
  pretty_N_go x EmptyString
  = pretty_N_go (x / 10) EmptyString
    +:+ String (pretty_N_char (x mod 10)) EmptyString.
Proof. intros Hx. rewrite pretty_N_go_step by done. apply pretty_N_go_app. Qed.

Lemma all_digits_app a b :
  all_digits (a +:+ b) = all_digits a && all_digits b.
Proof.
  induction a as [|c a IH]; [done|]. rewrite append_cons. simpl.
  by rewrite IH, andb_assoc.
Qed.

Lemma digits_value_app a : forall acc b,
  digits_value acc (a +:+ b) = digits_value (digits_value acc a) b.
Proof.
  induction a as [|c a IH]; intros acc b; [done|].
  rewrite append_cons. simpl. apply IH.
Qed.

Lemma pretty_N_go_digits x :
  all_digits (pretty_N_go x EmptyString) = true
  /\ digits_value 0 (pretty_N_go x EmptyString) = Z.of_N x.
Proof.
  induction (N.lt_wf_0 x) as [x _ IH].
  destruct (decide (x = 0%N)) as [->|Hx]; [done|].
  rewrite pretty_N_go_snoc by lia.
  destruct (IH (x / 10)%N) as [Hd Hv]; [apply N.div_lt; lia|].
  destruct (pretty_N_char_digit (x mod 10)) as (Hc & Hval & _); [div_lia|].
  split.
  - rewrite all_digits_app, Hd. simpl. by rewrite Hc.
  - rewrite digits_value_app, Hv. simpl. rewrite Hval. div_lia.
Qed.

Lemma pretty_N_go_head x :
  (0 < x)%N ->
  exists c t, pretty_N_go x EmptyString = String c t
    /\ is_digit c = true /\ c <> "0"%char.
Proof.
  induction (N.lt_wf_0 x) as [x _ IH]. intros Hx.
  rewrite pretty_N_go_snoc by done.
  destruct (decide (x / 10 = 0)%N) as [E|E].
  - rewrite E, pretty_N_go_0, append_nil_l.
    destruct (pretty_N_char_digit (x mod 10)) as (Hc & _ & Hnz); [div_lia|].
    eexists _, _. split; [done|]. split; [done|]. apply Hnz. div_lia.
  - destruct (IH (x / 10)%N) as (c & t & -> & Hc & Hnz);
      [apply N.div_lt; lia|div_lia|].
    rewrite append_cons. by eexists _, _.
Qed.

Lemma span_digits_app ds : forall rest,
  all_digits ds = true ->
  match rest with String c _ => is_digit c = false | EmptyString => True end ->
  span_digits (ds +:+ rest) = (ds, rest).
Proof.
  induction ds as [|c ds IH]; intros rest Hds Hrest.
  - rewrite append_nil_l. destruct rest as [|c r]; [done|].
    simpl. by rewrite Hrest.
  - simpl in Hds. apply andb_true_iff in Hds as [Hc Hds].
    rewrite append_cons. simpl. rewrite Hc, IH by done. done.
Qed.

Lemma delimited_cases rest :
  delimited rest = true ->
  rest = EmptyString
  \/ (exists r, rest = String "," r)
  \/ (exists r, rest = String (ascii_of_nat 10) r).
Proof.
  destruct rest as [|c r]; [by left|]. simpl.
  intros [H|H]%orb_true_iff; apply Ascii.eqb_eq in H as ->; eauto.
Qed.

(** The text of a natural number, read as a number. *)
Lemma read_number_N x rest :
  delimited rest = true ->
  read_number (pretty x +:+ rest) = Some (JInt (Z.of_N x), rest).
Proof.
  intros Hrest. unfold pretty, pretty_N.
  assert (match rest with
          | String c _ => is_digit c = false
          | EmptyString => True
          end) as Hnd.
  { destruct (delimited_cases rest Hrest) as [-> | [[r ->] | [r ->]]]; done. }
  destruct (decide (x = 0%N)) as [->|Hx].
  - destruct (delimited_cases rest Hrest) as [-> | [[r ->] | [r ->]]]; done.
  - destruct (pretty_N_go_digits x) as [Hd Hv].
    destruct (pretty_N_go_head x) as (c & t & E & Hc & Hnz); [lia|].
    rewrite E in *. rewrite append_cons.
    simpl in Hd. apply andb_true_iff in Hd as [_ Hd].
    assert (read_int_part (String c (t +:+ rest)) = Some (String c t, rest))
      as Hint.
    { unfold read_int_part.
      assert (Ascii.eqb c "0" = false) as -> by by apply Ascii.eqb_neq.
      by rewrite Hc, span_digits_app. }
    unfold read_number.
    assert ((match String c (t +:+ rest) with
             | String "-" r => (true, r)
             | _ => (false, String c (t +:+ rest))
             end) = (false, String c (t +:+ rest))) as ->.
    { destruct (digit_cases c Hc) as [<-|[<-|[<-|[<-|[<-|[<-|[<-|[<-|[<-|[<-|[]
        ]]]]]]]]]]; reflexivity. }
    rewrite Hint.
    destruct (delimited_cases rest Hrest) as [-> | [[r ->] | [r ->]]];
      cbn [read_frac read_exp is_empty andb]; by rewrite Hv.
Qed.

Lemma read_number_Z z rest :
  delimited rest = true ->
  read_number (pretty z +:+ rest) = Some (JInt z, rest).
Proof.
  intros Hrest. destruct z as [|p|p].
  - apply (read_number_N 0 rest Hrest).
  - apply (read_number_N (Npos p) rest Hrest).
  - pose proof (read_number_N (Npos p) rest Hrest) as H.
    change (pretty (Z.neg p))
      with ("-" +:+ pretty_N_go (N.pos p) EmptyString).
    rewrite append_cons, append_nil_l.
    unfold read_number in *.
    change (pretty (N.pos p)) with (pretty_N_go (N.pos p) EmptyString) in *.
    destruct (pretty_N_go_head (N.pos p)) as (c & t & E & Hc & Hnz); [lia|].
    rewrite E in *. rewrite append_cons in H.
    assert ((match String c (t +:+ rest) with
             | String "-" r => (true, r)
             | _ => (false, String c (t +:+ rest))
             end) = (false, String c (t +:+ rest))) as Hm.
    { destruct (digit_cases c Hc) as [<-|[<-|[<-|[<-|[<-|[<-|[<-|[<-|[<-|[<-|[]
        ]]]]]]]]]]; reflexivity. }
    rewrite Hm in H. rewrite !append_cons.
    destruct (read_int_part (String c (t +:+ rest))) as [[ip s2]|]; [|done].
    destruct (read_frac s2) as [fr s3]. destruct (read_exp s3) as [ex s4].
    destruct (is_empty fr && is_empty ex); [|done].
    injection H as H ->. by rewrite H.
Qed.

(** *** Values *)

Lemma skip_ws_spaces n s : skip_ws (spaces n +:+ s) = skip_ws s.
Proof.
  induction n as [|n IH]; [done|]. cbn [spaces]. rewrite append_cons.
  cbn [skip_ws]. change (is_ws " ") with true. cbv iota. exact IH.
Qed.

Lemma skip_ws_indent lvl s : skip_ws (newline_indent lvl +:+ s) = skip_ws s.
Proof.
  unfold newline_indent. rewrite append_cons.
  cbn [skip_ws]. change (is_ws (ascii_of_nat 10)) with true. cbv iota.
  apply skip_ws_spaces.
Qed.

Lemma skip_ws_head c t : is_ws c = false -> skip_ws (String c t) = String c t.
Proof. intros H. cbn [skip_ws]. by rewrite H. Qed.

Lemma encode_list lvl x xs :
  encode lvl (JList (x :: xs))
  = "[" +:+ newline_indent (S lvl) +:+ encode (S lvl) x
    +:+ more_elements lvl xs +:+ newline_indent lvl +:+ "]".
Proof.
  cbn [encode]. do 3 f_equal. f_equal.
  induction xs as [|y xs IH]; [done|]. cbn [more_elements]. by rewrite <- IH.
Qed.

Lemma encode_dict lvl k x xs :
  encode lvl (JDict ((k, x) :: xs))
  = "{" +:+ newline_indent (S lvl) +:+ quote k +:+ ": " +:+ encode (S lvl) x
    +:+ more_members lvl xs +:+ newline_indent lvl +:+ "}".
Proof.
  cbn [encode]. do 5 f_equal. f_equal.
  induction xs as [|[k' y] xs IH]; [done|]. cbn [more_members].
  by rewrite <- IH.
Qed.

Lemma quote_app s rest :
  quote s +:+ rest = String dquote (escape_all 0 0 s +:+ String dquote rest).
Proof. unfold quote. by rewrite append_cons, append_assoc. Qed.

Lemma strip_prefix_head a p c t :
  Ascii.eqb a c = false -> strip_prefix (String a p) (String c t) = None.
Proof. intros H. cbn [strip_prefix]. by rewrite H. Qed.

Lemma number_start c :
  is_digit c = true \/ c = "-"%char ->
  Ascii.eqb c dquote = false /\ Ascii.eqb c "{" = false
  /\ Ascii.eqb c "[" = false /\ Ascii.eqb "n" c = false
  /\ Ascii.eqb "t" c = false /\ Ascii.eqb "f" c = false.
Proof.
  intros [H | ->]; [|done].
  destruct (digit_cases c H) as [<-|[<-|[<-|[<-|[<-|[<-|[<-|[<-|[<-|[<-|[]
    ]]]]]]]]]]; done.
Qed.

Lemma read_value_number fuel c t res :
  is_digit c = true \/ c = "-"%char ->
  read_number (String c t) = Some res ->
  read_value (S fuel) (String c t) = Some res.
Proof.
  intros Hc Hnum.
  destruct (number_start c Hc) as (H1 & H2 & H3 & H4 & H5 & H6).
  cbn [read_value]. rewrite H1, H2, H3. unfold read_literal.
  rewrite !strip_prefix_head by done. by rewrite Hnum.
Qed.

Lemma pretty_Z_head (z : Z) :
  exists c t, pretty z = String c t /\ (is_digit c = true \/ c = "-"%char).
Proof.
  destruct z as [|p|p].
  - exists "0"%char, EmptyString. by split; [|left].
  - destruct (pretty_N_go_head (N.pos p)) as (c & t & E & Hc & _); [lia|].
    exists c, t. split; [exact E|by left].
  - eexists "-"%char, _. split; [reflexivity|by right].
Qed.

Lemma read_value_int fuel (z : Z) rest :
  delimited rest = true ->
  read_value (S fuel) (pretty z +:+ rest) = Some (JInt z, rest).
Proof.
  intros Hrest. pose proof (read_number_Z z rest Hrest) as H.
  destruct (pretty_Z_head z) as (c & t & E & Hc). rewrite E in *.
  rewrite append_cons in *. by apply read_value_number.
Qed.

Lemma read_value_str fuel s rest :
  utf8 s = true ->
  read_value (S fuel) (quote s +:+ rest) = Some (JStr s, rest).
Proof.
  intros Hs. rewrite quote_app. cbn [read_value].
  rewrite Ascii.eqb_refl.
  by rewrite (read_string_quote (String.length s)).
Qed.

(** The first character of the text of a value. *)
Lemma encode_head lvl v :
  plain v = true ->
  exists c t, encode lvl v = String c t
    /\ is_ws c = false /\ Ascii.eqb c "]" = false.
Proof.
  intros Hv. destruct v as [|[]|z| |s|[|x xs]|[|[k x] xs]]; try done;
    try (by eexists _, _).
  destruct (pretty_Z_head z) as (c & t & E & [Hc | ->]).
  - exists c, t. split; [exact E|].
    destruct (digit_cases c Hc) as [<-|[<-|[<-|[<-|[<-|[<-|[<-|[<-|[<-|[<-|[]
      ]]]]]]]]]]; done.
  - by exists "-"%char, t.
Qed.

Lemma delimited_comma s : delimited (String "," s) = true.
Proof. reflexivity. Qed.

Lemma delimited_indent lvl s : delimited (newline_indent lvl +:+ s) = true.
Proof. reflexivity. Qed.

(** The elements of an array, read by a reader that reads each of them. *)
Lemma read_elements_encoded read lvl : forall xs x n rest,
  (forall y r, y ∈ x :: xs -> delimited r = true ->
     read (encode (S lvl) y +:+ r) = Some (y, r)) ->
  (forall y, y ∈ x :: xs -> plain y = true) ->
  (length xs < n)%nat ->
  read_elements read n
    (encode (S lvl) x +:+ more_elements lvl xs +:+ newline_indent lvl
     +:+ String "]" rest)
  = Some (x :: xs, rest).
Proof.
  induction xs as [|y xs IH]; intros x n rest Hread Hplain Hn;
    (destruct n as [|n]; [simpl in Hn; lia|]); cbn [read_elements].
  - cbn [more_elements]. rewrite append_nil_l.
    rewrite Hread by (apply list_elem_of_here || apply delimited_indent).
    by rewrite skip_ws_indent.
  - cbn [more_elements]. rewrite !append_assoc, append_cons, append_nil_l.
    rewrite Hread by (apply list_elem_of_here || apply delimited_comma).
    cbn [skip_ws]. change (is_ws ",") with false. cbv iota.
    rewrite skip_ws_indent.
    destruct (encode_head (S lvl) y) as (c & t & E & Hws & _).
    { apply Hplain. apply list_elem_of_further, list_elem_of_here. }
    rewrite <- !append_assoc. rewrite E at 1. rewrite !append_cons.
    rewrite skip_ws_head by done. rewrite <- !append_cons, <- E.
    rewrite !append_assoc.
    rewrite IH; [done| | |simpl in Hn; lia].
    + intros z r Hz. apply Hread. by apply list_elem_of_further.
    + intros z Hz. apply Hplain. by apply list_elem_of_further.
Qed.

Lemma skip_ws_space s : skip_ws (String " " s) = skip_ws s.
Proof. reflexivity. Qed.

(** The members of an object, likewise. *)
Lemma read_members_encoded read lvl : forall xs k x n rest,
  (forall kv r, kv ∈ (k, x) :: xs -> delimited r = true ->
     read (encode (S lvl) kv.2 +:+ r) = Some (kv.2, r)) ->
  (forall kv, kv ∈ (k, x) :: xs -> utf8 kv.1 = true /\ plain kv.2 = true) ->
  (length xs < n)%nat ->
  read_members read n
    (quote k +:+ ": " +:+ encode (S lvl) x +:+ more_members lvl xs
     +:+ newline_indent lvl +:+ String "}" rest)
  = Some ((k, x) :: xs, rest).
Proof.
  induction xs as [|[k' y] xs IH]; intros k x n rest Hread Hplain Hn;
    (destruct n as [|n]; [simpl in Hn; lia|]);
    destruct (Hplain (k, x) (list_elem_of_here _ _)) as [Hk Hx];
    cbn [fst snd] in Hk, Hx;
    destruct (encode_head (S lvl) x Hx) as (c & t & E & Hws & _);
    rewrite quote_app; cbn [read_members]; rewrite Ascii.eqb_refl;
    rewrite (read_string_quote (String.length k)) by done;
    rewrite !append_cons, append_nil_l;
    rewrite (skip_ws_head ":"%char) by done; rewrite skip_ws_space;
    rewrite E at 1; rewrite !append_cons; rewrite skip_ws_head by done;
    rewrite <- !append_cons, <- E.
  - cbn [more_members]. rewrite append_nil_l.
    rewrite (Hread (k, x)) by (apply list_elem_of_here || apply delimited_indent).
    by rewrite skip_ws_indent.
  - cbn [more_members]. rewrite !append_assoc, append_cons, append_nil_l.
    rewrite (Hread (k, x)) by (apply list_elem_of_here || apply delimited_comma).
    rewrite (skip_ws_head ","%char) by done.
    rewrite skip_ws_indent.
    rewrite (quote_app k').
    rewrite skip_ws_head by done. rewrite <- quote_app.
    rewrite IH; [done| | |simpl in Hn; lia].
    + intros kv r Hkv. apply Hread. by apply list_elem_of_further.
    + intros kv Hkv. apply Hplain. by apply list_elem_of_further.
Qed.

Lemma dict_set_fresh k v d :
  k ∉ d.*1 -> dict_set k v d = d ++ [(k, v)].
Proof.
  induction d as [|[k' v'] d IH]; intros Hk; [done|].
  cbn [dict_set]. apply not_elem_of_cons in Hk as [Hne Hk].
  assert (String.eqb k k' = false) as Hf by by apply String.eqb_neq.
  rewrite Hf. by rewrite IH.
Qed.

Lemma dict_of_members_nodup kvs :
  NoDup kvs.*1 -> dict_of_members kvs = kvs.
Proof.
  unfold dict_of_members.
  assert (forall acc, NoDup (acc.*1 ++ kvs.*1) ->
            fold_left (fun d kv => dict_set kv.1 kv.2 d) kvs acc = acc ++ kvs)
    as H; [|intros Hn; by apply (H [])].
  induction kvs as [|[k v] kvs IH]; intros acc Hn.
  - by rewrite app_nil_r.
  - cbn [fold_left fst snd]. 
    rewrite dict_set_fresh.
    + rewrite IH; [by rewrite <- app_assoc|].
      rewrite fmap_app. cbn [fmap list_fmap fst]. by rewrite <- app_assoc.
    + apply NoDup_app in Hn as (_ & Hn & _). intros Hk.
      apply (Hn k Hk). apply list_elem_of_here.
Qed.

Lemma read_value_list fuel lvl c t :
  is_ws c = false -> Ascii.eqb c "]" = false ->
  read_value (S fuel) (String "[" (newline_indent lvl +:+ String c t))
  = match read_elements (read_value fuel) (String.length (String c t))
            (String c t) with
    | Some (vs, r) => Some (JList vs, r)
    | None => None
    end.
Proof.
  intros Hws Hc.
  change (read_value (S fuel) (String "[" (newline_indent lvl +:+ String c t)))
    with (match skip_ws (newline_indent lvl +:+ String c t) with
          | String "]" r => Some (JList [], r)
          | s1 =>
              match read_elements (read_value fuel) (String.length s1) s1 with
              | Some (vs, r) => Some (JList vs, r)
              | None => None
              end
          end).
  rewrite skip_ws_indent, skip_ws_head by done.
  destruct c as [[] [] [] [] [] [] [] []]; try discriminate Hc; reflexivity.
Qed.

Lemma read_value_dict fuel lvl t :
  read_value (S fuel) (String "{" (newline_indent lvl +:+ String dquote t))
  = match read_members (read_value fuel) (String.length (String dquote t))
            (String dquote t) with
    | Some (kvs, r) => Some (JDict (dict_of_members kvs), r)
    | None => None
    end.
Proof.
  change (read_value (S fuel)
            (String "{" (newline_indent lvl +:+ String dquote t)))
    with (match skip_ws (newline_indent lvl +:+ String dquote t) with
          | String "}" r => Some (JDict [], r)
          | s1 =>
              match read_members (read_value fuel) (String.length s1) s1 with
              | Some (kvs, r) => Some (JDict (dict_of_members kvs), r)
              | None => None
              end
          end).
  by rewrite skip_ws_indent, skip_ws_head.
Qed.

Lemma json_nested_ind (P : json -> Prop) :
  P JNull -> (forall b, P (JBool b)) -> (forall n, P (JInt n)) ->
  (forall l, P (JFloat l)) -> (forall s, P (JStr s)) ->
  (forall l, Forall P l -> P (JList l)) ->
  (forall d, Forall (fun kv => P kv.2) d -> P (JDict d)) ->
  forall v, P v.
Proof.
  intros Hnull Hbool Hint Hfloat Hstr Hlist Hdict.
  fix IH 1. intros [|b|n|l|s|l|d].
  - exact Hnull.
  - apply Hbool.
  - apply Hint.
  - apply Hfloat.
  - apply Hstr.
  - apply Hlist. induction l as [|x l IHl]; constructor; [apply IH|exact IHl].
  - apply Hdict. induction d as [|[k x] d IHd]; constructor;
      [apply IH|exact IHd].
Qed.

Lemma more_elements_length lvl xs :
  (length xs <= String.length (more_elements lvl xs))%nat
  /\ forall y, y ∈ xs ->
       (String.length (encode (S lvl) y)
        < String.length (more_elements lvl xs))%nat.
Proof.
  induction xs as [|x xs [IH1 IH2]].
  - split; [done|]. intros y Hy. by apply elem_of_nil in Hy.
  - cbn [more_elements]. rewrite !length_append. cbn [length].
    split; [simpl; lia|].
    intros y [->|Hy]%elem_of_cons; [simpl; lia|].
    specialize (IH2 y Hy). simpl. lia.
Qed.

Lemma more_members_length lvl xs :
  (length xs <= String.length (more_members lvl xs))%nat
  /\ forall kv, kv ∈ xs ->
       (String.length (encode (S lvl) kv.2)
        < String.length (more_members lvl xs))%nat.
Proof.
  induction xs as [|[k x] xs [IH1 IH2]].
  - split; [done|]. intros y Hy. by apply elem_of_nil in Hy.
  - cbn [more_members]. rewrite !length_append. cbn [length].
    split; [simpl; lia|].
    intros y [->|Hy]%elem_of_cons; [simpl; lia|].
    specialize (IH2 y Hy). simpl. lia.
Qed.

Lemma plain_list l :
  plain (JList l) = true -> forall y, y ∈ l -> plain y = true.
Proof.
  cbn [plain]. intros H y Hy. rewrite forallb_forall in H.
  by apply H, list_elem_of_In.
Qed.

Lemma plain_dict d :
  plain (JDict d) = true ->
  NoDup d.*1
  /\ forall kv, kv ∈ d -> utf8 kv.1 = true /\ plain kv.2 = true.
Proof.
  cbn [plain]. intros [Hn H]%andb_true_iff.
  split; [by apply bool_decide_eq_true in Hn|].
  intros kv Hkv. rewrite forallb_forall in H.
  by apply andb_true_iff, H, list_elem_of_In.
Qed.

(** The text of a value, read as a value. *)
Lemma read_value_encode v :
  plain v = true ->
  forall lvl fuel rest,
    (String.length (encode lvl v) <= fuel)%nat ->
    delimited rest = true ->
    read_value fuel (encode lvl v +:+ rest) = Some (v, rest).
Proof.
  induction v as [|b|n|l|s|l IH|d IH] using json_nested_ind;
    intros Hv lvl fuel rest Hfuel Hrest;
    (destruct fuel as [|fuel];
     [destruct (encode_head lvl _ Hv) as (c & t & E & _);
      rewrite E in Hfuel; simpl in Hfuel; lia|]).
  - reflexivity.
  - by destruct b.
  - by apply read_value_int.
  - done.
  - by apply read_value_str.
  - destruct l as [|x xs]; [reflexivity|].
    rewrite encode_list in *. rewrite !length_append in Hfuel.
    pose proof (more_elements_length lvl xs) as [Hlen Hlt].
    destruct (encode_head (S lvl) x) as (c & t & E & Hws & Hc).
    { apply (plain_list _ Hv). apply list_elem_of_here. }
    rewrite !append_assoc, append_cons, append_nil_l.
    change ("]" +:+ rest) with (String "]" rest).
    rewrite E at 1. rewrite append_cons.
    rewrite read_value_list by done.
    rewrite <- append_cons, <- E.
    rewrite read_elements_encoded; [done| |by apply plain_list|].
    + intros y r Hy Hr. rewrite Forall_forall in IH.
      apply IH; [done|by eapply plain_list|
                 |done].
      apply elem_of_cons in Hy as [->|Hy]; [simpl in Hfuel; lia|].
      specialize (Hlt y Hy). simpl in Hfuel. lia.
    + rewrite !length_append. rewrite E. simpl. lia.
  - destruct d as [|[k x] xs]; [reflexivity|].
    rewrite encode_dict in *. rewrite !length_append in Hfuel.
    pose proof (more_members_length lvl xs) as [Hlen Hlt].
    destruct (plain_dict _ Hv) as [Hnodup Hplain].
    rewrite !append_assoc, append_cons, append_nil_l.
    change ("}" +:+ rest) with (String "}" rest).
    rewrite (quote_app k). rewrite read_value_dict.
    rewrite <- quote_app.
    rewrite read_members_encoded; [by rewrite dict_of_members_nodup| |done|].
    + intros kv r Hkv Hr. rewrite Forall_forall in IH.
      apply IH; [done|by apply Hplain| |done].
      apply elem_of_cons in Hkv as [->|Hkv]; [simpl in *; lia|].
      specialize (Hlt kv Hkv). simpl in Hfuel. lia.
    + rewrite quote_app. cbn [String.length]. rewrite length_append.
      cbn [String.length]. rewrite !length_append. lia.
Qed.

(** *** The text is ASCII *)

Lemma ascii_only_app a b :
  ascii_only (a +:+ b) = ascii_only a && ascii_only b.
Proof.
  induction a as [|c a IH]; [done|]. rewrite append_cons. simpl.
  by rewrite IH, andb_assoc.
Qed.

Lemma ascii_only_utf8 s : ascii_only s = true -> utf8 s = true.
Proof.
  unfold utf8. induction s as [|c s IH]; [done|]. simpl.
  intros [Hc Hs]%andb_true_iff. rewrite Hc. by apply IH.
Qed.

Lemma hex_digit_ascii d : (d < 16)%N -> (code (hex_digit d) <? 128)%N = true.
Proof.
  intros Hd.
  assert (d = 0 \/ d = 1 \/ d = 2 \/ d = 3 \/ d = 4 \/ d = 5 \/ d = 6 \/ d = 7
          \/ d = 8 \/ d = 9 \/ d = 10 \/ d = 11 \/ d = 12 \/ d = 13 \/ d = 14
          \/ d = 15)%N as H by lia.
  repeat (destruct H as [-> | H]; [reflexivity|]). by subst.
Qed.

Lemma u_escape16_ascii cp : (cp < 65536)%N -> ascii_only (u_escape16 cp) = true.
Proof.
  intros Hcp. unfold u_escape16. cbn [ascii_only].
  rewrite !hex_digit_ascii by div_lia. reflexivity.
Qed.

Lemma u_escape_ascii cp : (cp < 1114112)%N -> ascii_only (u_escape cp) = true.
Proof.
  intros Hcp. unfold u_escape. destruct (cp <? 65536)%N eqn:E.
  - apply N.ltb_lt in E. by apply u_escape16_ascii.
  - apply N.ltb_ge in E. rewrite ascii_only_app.
    rewrite !u_escape16_ascii by div_lia. reflexivity.
Qed.

Lemma escape_ascii c : (code c < 128)%N -> ascii_only (escape c) = true.
Proof.
  intros Hc.
  destruct c as [[] [] [] [] [] [] [] []];
    try (vm_compute in Hc; discriminate); reflexivity.
Qed.

Lemma escape_all_ascii n : forall s,
  (String.length s <= n)%nat -> utf8 s = true ->
  ascii_only (escape_all 0 0 s) = true.
Proof.
  induction n as [|n IH]; intros s Hlen Hs;
    destruct (utf8_cases s Hs)
      as [-> | [(c & s' & -> & Hc & Hs')
         | [(c1 & c2 & s' & -> & H1 & H2 & Hs')
         | [(c1 & c2 & c3 & s' & -> & H1 & H2 & H2a & H2b & H3 & Hs')
         | (c1 & c2 & c3 & c4 & s' & -> & H1 & H2 & H2a & H2b & H3 & H4 & Hs')
         ]]]]; try done; simpl in Hlen; try lia.
  - rewrite escape_all_1, ascii_only_app, escape_ascii by done.
    apply IH; [lia|done].
  - rewrite escape_all_2, ascii_only_app, u_escape_ascii by div_lia.
    apply IH; [lia|done].
  - rewrite escape_all_3, ascii_only_app, u_escape_ascii by div_lia.
    apply IH; [lia|done].
  - rewrite escape_all_4, ascii_only_app, u_escape_ascii by div_lia.
    apply IH; [lia|done].
Qed.

Lemma quote_ascii s : utf8 s = true -> ascii_only (quote s) = true.
Proof.
  intros Hs. unfold quote. cbn [ascii_only].
  rewrite ascii_only_app, (escape_all_ascii (String.length s)) by done.
  reflexivity.
Qed.

Lemma digits_ascii s : all_digits s = true -> ascii_only s = true.
Proof.
  induction s as [|c s IH]; [done|]. simpl.
  intros [Hc Hs]%andb_true_iff. rewrite IH by done.
  destruct (digit_cases c Hc) as [<-|[<-|[<-|[<-|[<-|[<-|[<-|[<-|[<-|[<-|[]
    ]]]]]]]]]]; reflexivity.
Qed.

Lemma pretty_Z_ascii (z : Z) : ascii_only (pretty z) = true.
Proof.
  assert (forall x : N, ascii_only (pretty x) = true) as HN.
  { intros x. unfold pretty, pretty_N. destruct (decide (x = 0%N)); [done|].
    apply digits_ascii, pretty_N_go_digits. }
  destruct z as [|p|p]; [done|apply (HN (N.pos p))|].
  change (pretty (Z.neg p)) with ("-" +:+ pretty (N.pos p)).
  rewrite ascii_only_app, HN. reflexivity.
Qed.

Lemma spaces_ascii n : ascii_only (spaces n) = true.
Proof. induction n as [|n IH]; [done|]. exact IH. Qed.

Lemma newline_indent_ascii lvl : ascii_only (newline_indent lvl) = true.
Proof. unfold newline_indent. cbn [ascii_only]. apply spaces_ascii. Qed.

Lemma more_elements_ascii lvl xs :
  (forall y, y ∈ xs -> ascii_only (encode (S lvl) y) = true) ->
  ascii_only (more_elements lvl xs) = true.
Proof.
  induction xs as [|y xs IH]; intros H; [done|]. cbn [more_elements].
  rewrite !ascii_only_app, newline_indent_ascii.
  rewrite (H y) by apply list_elem_of_here.
  rewrite IH; [done|]. intros z Hz. by apply H, list_elem_of_further.
Qed.

Lemma more_members_ascii lvl xs :
  (forall kv, kv ∈ xs ->
     utf8 kv.1 = true /\ ascii_only (encode (S lvl) kv.2) = true) ->
  ascii_only (more_members lvl xs) = true.
Proof.
  induction xs as [|[k y] xs IH]; intros H; [done|]. cbn [more_members].
  destruct (H (k, y) (list_elem_of_here _ _)) as [Hk Hy].
  rewrite !ascii_only_app, newline_indent_ascii, quote_ascii by done.
  cbn [snd] in Hy. rewrite Hy.
  rewrite IH; [done|]. intros z Hz. by apply H, list_elem_of_further.
Qed.

Lemma encode_ascii v :
  plain v = true -> forall lvl, ascii_only (encode lvl v) = true.
Proof.
  induction v as [|b|n|l|s|l IH|d IH] using json_nested_ind; intros Hv lvl.
  - reflexivity.
  - by destruct b.
  - apply pretty_Z_ascii.
  - done.
  - by apply quote_ascii.
  - destruct l as [|x xs]; [reflexivity|]. rewrite encode_list.
    pose proof (plain_list _ Hv) as Hplain. rewrite Forall_forall in IH.
    rewrite !ascii_only_app, !newline_indent_ascii.
    rewrite (IH x) by (apply list_elem_of_here || apply Hplain, list_elem_of_here).
    rewrite more_elements_ascii; [done|].
    intros y Hy. apply IH; [|apply Hplain]; by apply list_elem_of_further.
  - destruct d as [|[k x] xs]; [reflexivity|]. rewrite encode_dict.
    destruct (plain_dict _ Hv) as [_ Hplain]. rewrite Forall_forall in IH.
    destruct (Hplain (k, x) (list_elem_of_here _ _)) as [Hk Hx].
    rewrite !ascii_only_app, !newline_indent_ascii, quote_ascii by done.
    rewrite (IH (k, x)) by (apply list_elem_of_here || done).
    rewrite more_members_ascii; [done|].
    intros kv Hkv. apply list_elem_of_further with (y := (k, x)) in Hkv.
    split; [by apply Hplain|]. apply IH; [done|by apply Hplain].
Qed.

Lemma loads_dumps v : plain v = true -> Json.loads (Json.dumps v) = Some v.
Proof.
  intros Hv. unfold loads, dumps.
  destruct (encode_head 0 v Hv) as (c & t & E & Hws & _).
  rewrite E at 2. rewrite skip_ws_head by done. rewrite <- E.
  rewrite <- (append_nil_r (encode 0 v)) at 2.
  rewrite read_value_encode; [reflexivity|done|lia|reflexivity].
Qed.

(** X15. What [json.dump] writes, [json.load] reads back: for a value whose
    strings are UTF-8, whose objects have no key twice and which holds no
    number with a fraction or an exponent, the text written with
    [indent=4] is ASCII, it parses, and to the value it was written for. *)
Theorem json_round_trip (v : json) :
  plain v = true ->
  ascii_only (Json.dumps v) = true /\ Json.load (Json.dumps v) = Some v.
Proof.
  intros Hv. pose proof (encode_ascii v Hv 0) as Hascii.
  split; [exact Hascii|].
  unfold load. apply ascii_only_utf8 in Hascii. unfold utf8 in Hascii.
  fold (dumps v) in Hascii. rewrite Hascii.
  by apply loads_dumps.
Qed.

Lemma json_round_trip_witness :
  ascii_only (Json.dumps sample_value) = true
  /\ Json.load (Json.dumps sample_value) = Some sample_value.
Proof. apply (json_round_trip sample_value). vm_compute. reflexivity. Defined.

Lemma plain_ints l : forallb plain (JInt <$> l) = true.
Proof. induction l as [|z l IH]; [done|]. exact IH. Qed.

Lemma ledger_document_plain now pi sd :
  utf8 now = true -> ledger_plain sd ->
  plain (ledger_document now pi sd) = true.
Proof.
  intros Hnow Hsd. unfold ledger_document. cbn [plain forallb fst snd].
  rewrite Hnow, plain_ints.
  assert (bool_decide (NoDup (map_to_list sd).*1) = true) as ->
    by apply bool_decide_eq_true, NoDup_fst_map_to_list.
  assert (forallb (fun kv => utf8 kv.1 && plain kv.2) (map_to_list sd) = true)
    as ->.
  { apply forallb_forall. intros [k v] Hkv. cbn [fst snd].
    apply list_elem_of_In, elem_of_map_to_list, Hsd in Hkv as [-> ->]. done. }
  rewrite !andb_true_r. reflexivity.
Qed.

Lemma ledger_text_loads now pi sd :
  utf8 now = true -> ledger_plain sd ->
  Json.load (ledger_text now pi sd) = Some (ledger_document now pi sd).
Proof.
  intros Hnow Hsd.
  pose proof (ledger_document_plain now pi sd Hnow Hsd) as Hplain.
  unfold ledger_text, load.
  pose proof (encode_ascii _ Hplain 0) as Hascii.
  apply ascii_only_utf8 in Hascii. unfold utf8 in Hascii.
  fold (dumps (ledger_document now pi sd)) in Hascii. rewrite Hascii.
  by apply loads_dumps.
Qed.

(** X16. A ledger that is saved loads back as it was.  When the time stamp
    and the keys and strings of the song data are UTF-8 and the song data
    holds no number with a fraction or an exponent, the text [save_progress]
    writes parses to the document it was written for, and [load_progress]
    after a save that completes returns the processed set and the song data
    that were saved. *)
Theorem saved_ledger_loads_back (now : string) (pi : gset Z)
    (sd : gmap string json) (fs : files) :
  utf8 now = true -> ledger_plain sd ->
  Json.load (ledger_text now pi sd) = Some (ledger_document now pi sd)
  /\ load_progress (save_progress Completes now pi sd fs) = Some (pi, sd).
Proof.
  intros Hnow Hsd.
  pose proof (ledger_text_loads now pi sd Hnow Hsd) as Hload.
  split; [done|].
  eapply load_progress_document; [|exact Hload].
  unfold save_progress. rewrite during_save_ledger_file.
  by rewrite substring_all.
Qed.

Lemma ledger_plain_forallb sd :
  forallb (fun kv => utf8 kv.1 && plain kv.2) (map_to_list sd) = true ->
  ledger_plain sd.
Proof.
  intros H k v Hkv. rewrite forallb_forall in H.
  apply elem_of_map_to_list, list_elem_of_In, H in Hkv.
  by apply andb_true_iff in Hkv.
Qed.

Lemma saved_ledger_loads_back_witness :
  load_progress
    (save_progress Completes "2026-01-02 10:00:00" ledger_1_2_3.1
       ledger_1_2_3.2 files_1_2)
  = Some (ledger_1_2_3.1, ledger_1_2_3.2).
Proof.
  refine (proj2 (saved_ledger_loads_back "2026-01-02 10:00:00" ledger_1_2_3.1
                   ledger_1_2_3.2 files_1_2 _ _)).
  - reflexivity.
  - apply ledger_plain_forallb. vm_compute. reflexivity.
Defined.

(** ** A text cut short *)

Lemma read_string_nil b : read_string b EmptyString = None.
Proof. by destruct b. Qed.

(** Reading a string literal does not depend on what follows it. *)
Lemma read_string_ext y n : forall q b t r,
  (String.length q <= n)%nat ->
  read_string b q = Some (t, r) ->
  read_string b (q +:+ y) = Some (t, r +:+ y).
Proof.
  induction n as [|n IH]; intros q b t r Hlen H;
    (destruct q as [|c rest]; [by rewrite read_string_nil in H|]);
    simpl in Hlen; [lia|].
  rewrite append_cons. destruct b.
  - (* after a backslash *)
    cbn [read_string] in H |- *.
    destruct (Ascii.eqb c "u") eqn:Eu.
    + destruct rest as [|a [|b [|h [|l rest1]]]]; try discriminate H.
      rewrite !append_cons. cbn [String.length] in Hlen.
      destruct (hex4 a b h l) as [cp|]; [|discriminate H].
      assert (forall t r, read_string false rest1 = Some (t, r) ->
                read_string false (rest1 +:+ y) = Some (t, r +:+ y)) as IH1
        by (intros; apply IH; [lia|done]).
      destruct rest1 as [|c1 r1].
      { by rewrite read_string_nil in H. }
      rewrite append_cons in *.
      destruct (Ascii.eqb c1 "\") eqn:E1.
      * apply Ascii.eqb_eq in E1. subst c1.
        destruct r1 as [|c2 r2]; [discriminate H|].
        rewrite append_cons in *.
        destruct (Ascii.eqb c2 "u") eqn:E2.
        -- apply Ascii.eqb_eq in E2. subst c2.
           destruct r2 as [|a2 [|b2 [|h2 [|l2 rest2]]]]; try discriminate H.
           rewrite !append_cons in *. cbn [String.length] in Hlen.
           destruct (is_high_surrogate cp).
           ++ destruct (hex4 a2 b2 h2 l2) as [cp2|]; [|discriminate H].
              destruct (is_low_surrogate cp2).
              ** destruct (read_string false rest2) as [[t2 r2]|] eqn:E;
                   [|discriminate H].
                 injection H as <- <-.
                 by rewrite (IH rest2 false t2 r2) by (lia || done).
              ** destruct (read_string false
                             (String "\" (String "u" (String a2 (String b2
                                (String h2 (String l2 rest2)))))))
                   as [[t2 r2']|] eqn:E; [|discriminate H].
                 injection H as <- <-. by rewrite (IH1 _ _ eq_refl).
           ++ destruct (read_string false
                          (String "\" (String "u" (String a2 (String b2
                             (String h2 (String l2 rest2)))))))
                as [[t2 r2']|] eqn:E; [|discriminate H].
              injection H as <- <-. by rewrite (IH1 _ _ eq_refl).
        -- destruct c2 as [[] [] [] [] [] [] [] []]; try discriminate E2;
             cbv beta iota in H |- *;
             (destruct (read_string false (String "\" (String _ r2)))
                as [[t2 r2']|] eqn:E; [|discriminate H]);
             injection H as <- <-; by rewrite (IH1 _ _ eq_refl).
      * destruct c1 as [[] [] [] [] [] [] [] []]; try discriminate E1;
          cbv beta iota in H |- *;
          (destruct (read_string false (String _ r1))
             as [[t2 r2']|] eqn:E; [|discriminate H]);
          injection H as <- <-; by rewrite (IH1 _ _ eq_refl).
    + destruct (unescape c) as [c'|]; [|discriminate H].
      destruct (read_string false rest) as [[t2 r2]|] eqn:E; [|discriminate H].
      injection H as <- <-. by rewrite (IH rest false t2 r2) by (lia || done).
  - cbn [read_string] in H |- *.
    destruct (Ascii.eqb c dquote); [by injection H as <- <-|].
    destruct (Ascii.eqb c "\"); [apply IH; [lia|done]|].
    destruct (code c <? 32)%N; [discriminate H|].
    destruct (read_string false rest) as [[t2 r2]|] eqn:E; [|discriminate H].
    injection H as <- <-. by rewrite (IH rest false t2 r2) by (lia || done).
Qed.

Lemma span_digits_ext y s : forall ds r,
  span_digits s = (ds, r) -> r <> EmptyString ->
  span_digits (s +:+ y) = (ds, r +:+ y).
Proof.
  induction s as [|c s IH]; intros ds r H Hr.
  - by injection H as <- <-.
  - rewrite append_cons. cbn [span_digits] in H |- *.
    destruct (is_digit c).
    + destruct (span_digits s) as [ds' r'] eqn:E. injection H as <- <-.
      by rewrite (IH ds' r').
    + injection H as <- <-. by rewrite append_cons.
Qed.

Lemma read_int_part_ext y s ip s2 :
  read_int_part s = Some (ip, s2) -> s2 <> EmptyString ->
  read_int_part (s +:+ y) = Some (ip, s2 +:+ y).
Proof.
  destruct s as [|c s]; [done|]. rewrite append_cons. unfold read_int_part.
  destruct (Ascii.eqb c "0"); [by intros [= <- <-]|].
  destruct (is_digit c); [|done].
  destruct (span_digits s) as [ds r] eqn:E. intros [= <- <-] Hr.
  by rewrite (span_digits_ext y s ds r).
Qed.

Lemma read_exp_ext y s3 ex s4 :
  read_exp s3 = (ex, s4) -> stops s4 = true ->
  read_exp (s3 +:+ y) = (ex, s4 +:+ y)
  /\ match s3 with
     | String c _ => Ascii.eqb c "." = false
     | EmptyString => False
     end.
Proof.
  destruct s3 as [|e rest]; [by intros [= <- <-]|].
  rewrite append_cons. unfold read_exp.
  destruct (Ascii.eqb e "e" || Ascii.eqb e "E") eqn:Ee.
  - assert (Ascii.eqb e "." = false) as Hdot.
    { apply orb_true_iff in Ee as [E|E]; apply Ascii.eqb_eq in E; by subst. }
    assert (number_char e = true) as Hnum.
    { apply orb_true_iff in Ee as [E|E]; apply Ascii.eqb_eq in E; by subst. }
    destruct rest as [|g r'].
    + cbn [span_digits is_empty]. intros [= <- <-]. simpl. by rewrite Hnum.
    + rewrite append_cons.
      destruct (Ascii.eqb g "+" || Ascii.eqb g "-").
      * destruct (span_digits r') as [ds r4] eqn:E.
        destruct (is_empty ds) eqn:Eds.
        { intros [= <- <-]. simpl. by rewrite Hnum. }
        intros [= <- <-] Hs.
        rewrite (span_digits_ext y r' ds r4) by (done || by destruct r4).
        by rewrite Eds.
      * destruct (span_digits (String g r')) as [ds r4] eqn:E.
        destruct (is_empty ds) eqn:Eds.
        { intros [= <- <-]. simpl. by rewrite Hnum. }
        intros [= <- <-] Hs. rewrite <- append_cons.
        rewrite (span_digits_ext y _ ds r4) by (done || by destruct r4).
        by rewrite Eds.
  - intros [= <- <-] Hs. split; [by rewrite append_cons|].
    simpl in Hs. unfold number_char in Hs.
    destruct (Ascii.eqb e "."); [|done].
    by rewrite orb_true_r in Hs.
Qed.

Lemma read_frac_ext y s2 fr s3 :
  read_frac s2 = (fr, s3) ->
  match s3 with
  | String c _ => Ascii.eqb c "." = false
  | EmptyString => False
  end ->
  read_frac (s2 +:+ y) = (fr, s3 +:+ y) /\ s2 <> EmptyString.
Proof.
  destruct s2 as [|c rest]; [by intros [= <- <-]|].
  rewrite append_cons. intros H Hs3. split; [|done]. revert H.
  destruct (Ascii.eqb c ".") eqn:Ec.
  - apply Ascii.eqb_eq in Ec. subst c. cbn [read_frac].
    destruct (span_digits rest) as [ds r3] eqn:E.
    destruct (is_empty ds) eqn:Eds.
    { intros [= <- <-]. done. }
    intros [= <- <-].
    rewrite (span_digits_ext y rest ds r3) by (done || by destruct r3).
    by rewrite Eds.
  - destruct c as [[] [] [] [] [] [] [] []]; try discriminate Ec;
      intros [= <- <-]; by rewrite append_cons.
Qed.

Lemma sign_ext y c s :
  match String c s +:+ y with
  | String "-" r => (true, r)
  | _ => (false, String c s +:+ y)
  end
  = (let (neg, s1) := match String c s with
                      | String "-" r => (true, r)
                      | _ => (false, String c s)
                      end in
     (neg, s1 +:+ y)).
Proof.
  rewrite append_cons.
  destruct c as [[] [] [] [] [] [] [] []]; by rewrite ?append_cons.
Qed.

(** Reading a number does not depend on what follows it, when it is
    followed by a character that cannot go on a number. *)
Lemma read_number_ext y s v r :
  read_number s = Some (v, r) -> stops r = true ->
  read_number (s +:+ y) = Some (v, r +:+ y).
Proof.
  destruct s as [|c s]; [done|]. unfold read_number. rewrite sign_ext.
  destruct (match String c s with
            | String "-" r0 => (true, r0)
            | _ => (false, String c s)
            end) as [neg s1].
  destruct (read_int_part s1) as [[ip s2]|] eqn:Eint; [|done].
  destruct (read_frac s2) as [fr s3] eqn:Efrac.
  destruct (read_exp s3) as [ex s4] eqn:Eexp.
  intros H Hr.
  assert (s4 = r) as -> by (destruct (is_empty fr && is_empty ex); by injection H).
  destruct (read_exp_ext y s3 ex r Eexp Hr) as [Hexp Hs3].
  destruct (read_frac_ext y s2 fr s3 Efrac Hs3) as [Hfrac Hs2].
  rewrite (read_int_part_ext y s1 ip s2 Eint Hs2), Hfrac, Hexp.
  destruct (is_empty fr && is_empty ex); by injection H as <-.
Qed.

Lemma strip_prefix_Some p : forall s r,
  strip_prefix p s = Some r -> s = p +:+ r.
Proof.
  induction p as [|a p IH]; intros s r; [by intros [= <-]|].
  destruct s as [|b s]; [done|]. cbn [strip_prefix].
  destruct (Ascii.eqb a b) eqn:E; [|done].
  apply Ascii.eqb_eq in E as <-. intros H. rewrite append_cons.
  by rewrite (IH s r H).
Qed.

Lemma read_number_head s res :
  read_number s = Some res ->
  exists c s', s = String c s' /\ (is_digit c = true \/ c = "-"%char).
Proof.
  destruct s as [|c s]; [done|]. intros H. exists c, s. split; [done|].
  destruct (Ascii.eqb c "-") eqn:Ec; [right; by apply Ascii.eqb_eq|left].
  unfold read_number in H.
  assert (match String c s with
          | String "-" r0 => (true, r0)
          | _ => (false, String c s)
          end = (false, String c s)) as Hm.
  { destruct c as [[] [] [] [] [] [] [] []]; try discriminate Ec; reflexivity. }
  rewrite Hm in H. unfold read_int_part in H.
  destruct (Ascii.eqb c "0") eqn:E0; [by apply Ascii.eqb_eq in E0 as ->|].
  by destruct (is_digit c).
Qed.

(** Reading a literal or a number, likewise. *)
Lemma read_literal_ext y s v r :
  read_literal s = Some (v, r) ->
  self_delimiting v = true \/ stops r = true ->
  read_literal (s +:+ y) = Some (v, r +:+ y).
Proof.
  unfold read_literal at 1.
  destruct (strip_prefix "null" s) as [r0|] eqn:E1.
  { intros [= <- <-] _. apply strip_prefix_Some in E1 as ->. reflexivity. }
  destruct (strip_prefix "true" s) as [r0|] eqn:E2.
  { intros [= <- <-] _. apply strip_prefix_Some in E2 as ->. reflexivity. }
  destruct (strip_prefix "false" s) as [r0|] eqn:E3.
  { intros [= <- <-] _. apply strip_prefix_Some in E3 as ->. reflexivity. }
  destruct (read_number s) as [[v0 r0]|] eqn:En.
  { intros [= <- <-] Hs.
    destruct (read_number_head s _ En) as (c & s' & -> & Hc).
    destruct (number_start c Hc) as (_ & _ & _ & H4 & H5 & H6).
    assert (stops r0 = true) as Hstop.
    { destruct Hs as [Hs|Hs]; [|done]. unfold read_number in En.
      repeat match type of En with
             | context [match ?x with _ => _ end] => destruct x
             end;
        first [discriminate En | injection En as <- <-; discriminate Hs]. }
    unfold read_literal. rewrite append_cons.
    rewrite !strip_prefix_head by done. rewrite <- append_cons.
    by rewrite (read_number_ext y _ v0 r0). }
  destruct (strip_prefix "NaN" s) as [r0|] eqn:E4.
  { intros [= <- <-] _. apply strip_prefix_Some in E4 as ->. reflexivity. }
  destruct (strip_prefix "Infinity" s) as [r0|] eqn:E5.
  { intros [= <- <-] _. apply strip_prefix_Some in E5 as ->. reflexivity. }
  destruct (strip_prefix "-Infinity" s) as [r0|] eqn:E6; [|done].
  intros [= <- <-] _. apply strip_prefix_Some in E6 as ->. reflexivity.
Qed.

Lemma skip_ws_ext y s c r :
  skip_ws s = String c r -> skip_ws (s +:+ y) = String c r +:+ y.
Proof.
  induction s as [|a s IH]; [done|]. rewrite append_cons. cbn [skip_ws].
  destruct (is_ws a); [exact IH|]. intros [= -> ->]. by rewrite append_cons.
Qed.

Lemma is_ws_not_number c : is_ws c = true -> number_char c = false.
Proof.
  destruct c as [[] [] [] [] [] [] [] []]; intros H;
    try (vm_compute in H; discriminate); reflexivity.
Qed.

Lemma skip_ws_stops s c r :
  skip_ws s = String c r -> number_char c = false -> stops s = true.
Proof.
  destruct s as [|a s]; [done|]. cbn [skip_ws stops].
  destruct (is_ws a) eqn:Ea.
  - intros _ _. by rewrite is_ws_not_number.
  - intros [= -> ->] ->. done.
Qed.

Section Extension.
Variable y : string.
Variable read : string -> option (json * string).
Hypothesis read_nil : read EmptyString = None.
Hypothesis read_ext : forall s v r,
  read s = Some (v, r) ->
  self_delimiting v = true \/ stops r = true ->
  read (s +:+ y) = Some (v, r +:+ y).

Lemma read_after_ws s v r :
  read (skip_ws s) = Some (v, r) ->
  self_delimiting v = true \/ stops r = true ->
  read (skip_ws (s +:+ y)) = Some (v, r +:+ y).
Proof.
  intros H Hs. destruct (skip_ws s) as [|c t] eqn:E.
  - by rewrite read_nil in H.
  - rewrite (skip_ws_ext y s c t E). by apply read_ext.
Qed.

Lemma read_elements_ext n : forall n' s vs r,
  read_elements read n s = Some (vs, r) -> (n <= n')%nat ->
  read_elements read n' (s +:+ y) = Some (vs, r +:+ y).
Proof.
  induction n as [|n IH]; intros n' s vs r H Hn; [done|].
  destruct n' as [|n']; [lia|]. cbn [read_elements] in H |- *.
  destruct (read s) as [[v s1]|] eqn:Er; [|done].
  destruct (skip_ws s1) as [|c1 r1] eqn:Ews; [done|].
  destruct (Ascii.eqb c1 ",") eqn:E1.
  - apply Ascii.eqb_eq in E1. subst c1.
    rewrite (read_ext s v s1 Er) by (right; by eapply skip_ws_stops).
    rewrite (skip_ws_ext y s1 _ _ Ews), append_cons.
    destruct (read_elements read n (skip_ws r1)) as [[vs' r']|] eqn:E;
      [|done].
    injection H as <- <-.
    destruct (skip_ws r1) as [|c2 r2] eqn:E2.
    { destruct n; [done|]. cbn [read_elements] in E. by rewrite read_nil in E. }
    rewrite (skip_ws_ext y r1 c2 r2 E2).
    by rewrite (IH n' _ _ _ E) by lia.
  - destruct (Ascii.eqb c1 "]") eqn:E2.
    + apply Ascii.eqb_eq in E2. subst c1. injection H as <- <-.
      rewrite (read_ext s v s1 Er) by (right; by eapply skip_ws_stops).
      by rewrite (skip_ws_ext y s1 _ _ Ews), append_cons.
    + destruct c1 as [[] [] [] [] [] [] [] []];
        try discriminate E1; try discriminate E2; discriminate H.
Qed.

Lemma read_members_ext n : forall n' s kvs r,
  read_members read n s = Some (kvs, r) -> (n <= n')%nat ->
  read_members read n' (s +:+ y) = Some (kvs, r +:+ y).
Proof.
  induction n as [|n IH]; intros n' s kvs r H Hn; [done|].
  destruct n' as [|n']; [lia|]. cbn [read_members] in H |- *.
  destruct s as [|c s0]; [done|]. rewrite append_cons.
  destruct (Ascii.eqb c dquote); [|done].
  destruct (read_string false s0) as [[k s1]|] eqn:Ek; [|done].
  rewrite (read_string_ext y (String.length s0) s0 false k s1) by done.
  destruct (skip_ws s1) as [|c0 s2] eqn:Ews1; [done|].
  rewrite (skip_ws_ext y s1 _ _ Ews1), append_cons.
  destruct (Ascii.eqb c0 ":") eqn:E0;
    [apply Ascii.eqb_eq in E0; subst c0
    |destruct c0 as [[] [] [] [] [] [] [] []];
       try discriminate E0; discriminate H].
  destruct (read (skip_ws s2)) as [[v s3]|] eqn:Er; [|done].
  destruct (skip_ws s3) as [|c1 r1] eqn:Ews; [done|].
  destruct (Ascii.eqb c1 ",") eqn:E1.
  - apply Ascii.eqb_eq in E1. subst c1.
    rewrite (read_after_ws s2 v s3 Er) by (right; by eapply skip_ws_stops).
    rewrite (skip_ws_ext y s3 _ _ Ews), append_cons.
    destruct (read_members read n (skip_ws r1)) as [[kvs' r']|] eqn:E;
      [|done].
    injection H as <- <-.
    destruct (skip_ws r1) as [|c2 r2] eqn:E2.
    { destruct n; done. }
    rewrite (skip_ws_ext y r1 c2 r2 E2).
    by rewrite (IH n' _ _ _ E) by lia.
  - destruct (Ascii.eqb c1 "}") eqn:E2.
    + apply Ascii.eqb_eq in E2. subst c1. injection H as <- <-.
      rewrite (read_after_ws s2 v s3 Er) by (right; by eapply skip_ws_stops).
      by rewrite (skip_ws_ext y s3 _ _ Ews), append_cons.
    + destruct c1 as [[] [] [] [] [] [] [] []];
        try discriminate E1; try discriminate E2; discriminate H.
Qed.
End Extension.

Lemma read_value_nil fuel : read_value fuel EmptyString = None.
Proof. by destruct fuel. Qed.

(** Reading a value does not depend on what follows it, when the value is
    not a number or is followed by a character that cannot go on a
    number. *)
Lemma read_value_ext y fuel : forall s v r,
  read_value fuel s = Some (v, r) ->
  self_delimiting v = true \/ stops r = true ->
  read_value fuel (s +:+ y) = Some (v, r +:+ y).
Proof.
  induction fuel as [|fuel IH]; intros s v r H Hs; [done|].
  destruct s as [|c rest]; [done|]. rewrite append_cons.
  cbn [read_value] in H |- *.
  destruct (Ascii.eqb c dquote).
  { destruct (read_string false rest) as [[t r0]|] eqn:E; [|done].
    injection H as <- <-.
    by rewrite (read_string_ext y (String.length rest) rest false t r0). }
  destruct (Ascii.eqb c "{").
  { destruct (skip_ws rest) as [|c1 r1] eqn:Ews; [done|].
    rewrite (skip_ws_ext y rest _ _ Ews), append_cons.
    destruct (Ascii.eqb c1 "}") eqn:E1.
    - apply Ascii.eqb_eq in E1. subst c1. by injection H as <- <-.
    - pose proof (read_members_ext y (read_value fuel) (read_value_nil fuel)
                    (IH) (String.length (String c1 r1))
                    (String.length (String c1 (r1 +:+ y))) (String c1 r1))
        as Hm.
      rewrite append_cons in Hm.
      destruct c1 as [[] [] [] [] [] [] [] []]; try discriminate E1;
        cbv beta iota in H |- *;
        (destruct (read_members (read_value fuel) _ (String _ r1))
           as [[kvs r']|] eqn:E; [|discriminate H]);
        injection H as <- <-;
        (rewrite (Hm kvs r' eq_refl);
         [reflexivity|cbn [String.length]; rewrite length_append; lia]). }
  destruct (Ascii.eqb c "[").
  { destruct (skip_ws rest) as [|c1 r1] eqn:Ews; [done|].
    rewrite (skip_ws_ext y rest _ _ Ews), append_cons.
    destruct (Ascii.eqb c1 "]") eqn:E1.
    - apply Ascii.eqb_eq in E1. subst c1. by injection H as <- <-.
    - pose proof (read_elements_ext y (read_value fuel) (read_value_nil fuel)
                    (IH) (String.length (String c1 r1))
                    (String.length (String c1 (r1 +:+ y))) (String c1 r1))
        as Hm.
      rewrite append_cons in Hm.
      destruct c1 as [[] [] [] [] [] [] [] []]; try discriminate E1;
        cbv beta iota in H |- *;
        (destruct (read_elements (read_value fuel) _ (String _ r1))
           as [[vs r']|] eqn:E; [|discriminate H]);
        injection H as <- <-;
        (rewrite (Hm vs r' eq_refl);
         [reflexivity|cbn [String.length]; rewrite length_append; lia]). }
  rewrite <- append_cons. by apply read_literal_ext.
Qed.

Lemma read_elements_mono read read' n :
  (forall s res, read s = Some res -> read' s = Some res) ->
  forall s res, read_elements read n s = Some res ->
    read_elements read' n s = Some res.
Proof.
  intros Hread. induction n as [|n IH]; intros s res H; [done|].
  cbn [read_elements] in H |- *.
  destruct (read s) as [[v s1]|] eqn:Er; [|done]. rewrite (Hread _ _ Er).
  repeat match type of H with
         | context [match ?x with _ => _ end] =>
             lazymatch x with
             | read_elements _ _ _ => fail
             | _ => destruct x
             end
         end; try discriminate H; try exact H.
  all: destruct (read_elements read n _) as [[vs r]|] eqn:E; [|discriminate H].
  all: by rewrite (IH _ _ E).
Qed.

Lemma read_members_mono read read' n :
  (forall s res, read s = Some res -> read' s = Some res) ->
  forall s res, read_members read n s = Some res ->
    read_members read' n s = Some res.
Proof.
  intros Hread. induction n as [|n IH]; intros s res H; [done|].
  cbn [read_members] in H |- *.
  destruct s as [|c s0]; [done|].
  destruct (Ascii.eqb c dquote); [|done].
  destruct (read_string false s0) as [[k s1]|]; [|done].
  destruct (skip_ws s1) as [|c0 s2]; [done|].
  destruct (Ascii.eqb c0 ":") eqn:E0;
    [apply Ascii.eqb_eq in E0; subst c0
    |destruct c0 as [[] [] [] [] [] [] [] []];
       try discriminate E0; discriminate H].
  destruct (read (skip_ws s2)) as [[v s3]|] eqn:Er; [|done].
  rewrite (Hread _ _ Er).
  repeat match type of H with
         | context [match ?x with _ => _ end] =>
             lazymatch x with
             | read_members _ _ _ => fail
             | _ => destruct x
             end
         end; try discriminate H; try exact H.
  all: destruct (read_members read n _) as [[vs r]|] eqn:E; [|discriminate H].
  all: by rewrite (IH _ _ E).
Qed.

(** More fuel does not change what is read. *)
Lemma read_value_mono fuel : forall fuel' s res,
  read_value fuel s = Some res -> (fuel <= fuel')%nat ->
  read_value fuel' s = Some res.
Proof.
  induction fuel as [|fuel IH]; intros fuel' s res H Hle; [done|].
  destruct fuel' as [|fuel']; [lia|].
  assert (forall s res, read_value fuel s = Some res ->
            read_value fuel' s = Some res) as Hread
    by (intros; apply (IH fuel'); [done|lia]).
  destruct s as [|c rest]; [done|]. cbn [read_value] in H |- *.
  destruct (Ascii.eqb c dquote); [done|].
  destruct (Ascii.eqb c "{").
  { destruct (skip_ws rest) as [|c1 r1].
    - by destruct (read_members (read_value fuel) _ _) as [[? ?]|] eqn:E;
        [rewrite (read_members_mono _ _ _ Hread _ _ E)|].
    - destruct (Ascii.eqb c1 "}") eqn:E1;
        [apply Ascii.eqb_eq in E1; by subst c1|].
      destruct c1 as [[] [] [] [] [] [] [] []]; try discriminate E1;
        cbv beta iota in H |- *;
        (destruct (read_members (read_value fuel) _ _) as [[? ?]|] eqn:E;
         [|discriminate H]);
        by rewrite (read_members_mono _ _ _ Hread _ _ E). }
  destruct (Ascii.eqb c "[").
  { destruct (skip_ws rest) as [|c1 r1].
    - by destruct (read_elements (read_value fuel) _ _) as [[? ?]|] eqn:E;
        [rewrite (read_elements_mono _ _ _ Hread _ _ E)|].
    - destruct (Ascii.eqb c1 "]") eqn:E1;
        [apply Ascii.eqb_eq in E1; by subst c1|].
      destruct c1 as [[] [] [] [] [] [] [] []]; try discriminate E1;
        cbv beta iota in H |- *;
        (destruct (read_elements (read_value fuel) _ _) as [[? ?]|] eqn:E;
         [|discriminate H]);
        by rewrite (read_elements_mono _ _ _ Hread _ _ E). }
  done.
Qed.

Lemma read_value_container fuel c s v r :
  c = "{"%char \/ c = "["%char ->
  read_value fuel (String c s) = Some (v, r) -> self_delimiting v = true.
Proof.
  intros Hc H. destruct fuel as [|fuel]; [done|].
  destruct Hc as [-> | ->].
  - change (read_value (S fuel) (String "{" s))
      with (match skip_ws s with
            | String "}" r => Some (JDict [], r)
            | s1 =>
                match read_members (read_value fuel) (String.length s1) s1 with
                | Some (kvs, r) => Some (JDict (dict_of_members kvs), r)
                | None => None
                end
            end) in H.
    destruct (skip_ws s) as [|c1 r1]; [done|].
    destruct c1 as [[] [] [] [] [] [] [] []]; cbv beta iota zeta in H;
      try (by injection H as <- _);
      match type of H with
      | context [read_members ?a ?b ?c] =>
          destruct (read_members a b c) as [[? ?]|]; [|discriminate H]
      end;
      by injection H as <- _.
  - change (read_value (S fuel) (String "[" s))
      with (match skip_ws s with
            | String "]" r => Some (JList [], r)
            | s1 =>
                match read_elements (read_value fuel) (String.length s1) s1
                with
                | Some (vs, r) => Some (JList vs, r)
                | None => None
                end
            end) in H.
    destruct (skip_ws s) as [|c1 r1]; [done|].
    destruct c1 as [[] [] [] [] [] [] [] []]; cbv beta iota zeta in H;
      try (by injection H as <- _);
      match type of H with
      | context [read_elements ?a ?b ?c] =>
          destruct (read_elements a b c) as [[? ?]|]; [|discriminate H]
      end;
      by injection H as <- _.
Qed.

Lemma substring_split n : forall s,
  exists y, s = substring 0 n s +:+ y
    /\ ((n < String.length s)%nat -> y <> EmptyString).
Proof.
  induction n as [|n IH]; intros [|c s].
  - exists EmptyString. split; [done|]. simpl. lia.
  - exists (String c s). split; [done|]. done.
  - exists EmptyString. split; [done|]. simpl. lia.
  - destruct (IH s) as (y & Hy & Hne). exists y. split.
    + simpl. rewrite append_cons. by rewrite <- Hy.
    + simpl. intros H. apply Hne. lia.
Qed.

Lemma append_eq_nil (a b : string) :
  a +:+ b = EmptyString -> b = EmptyString.
Proof. by destruct a. Qed.

(** No text that stops short of the end of the text of an object
    parses. *)
Lemma cut_object_does_not_load k x d p y :
  plain (JDict ((k, x) :: d)) = true ->
  Json.dumps (JDict ((k, x) :: d)) = p +:+ y -> y <> EmptyString ->
  Json.loads p = None.
Proof.
  intros Hv Ht Hy. set (v := JDict ((k, x) :: d)) in *.
  assert (String.length p <= String.length (dumps v))%nat as Hlen
    by (rewrite Ht, length_append; lia).
  assert (read_value (S (String.length (dumps v))) (dumps v)
          = Some (v, EmptyString)) as Hread.
  { rewrite <- (append_nil_r (dumps v)) at 2. unfold dumps.
    apply read_value_encode; [done|lia|done]. }
  unfold loads. destruct p as [|c p']; [done|].
  assert (c = "{"%char) as ->.
  { unfold dumps, v in Ht. rewrite encode_dict, !append_cons in Ht.
    by injection Ht as <- _. }
  rewrite skip_ws_head by done.
  destruct (read_value _ (String "{" p')) as [[v' r']|] eqn:E; [|done].
  exfalso.
  pose proof (read_value_container _ _ _ _ _ (or_introl eq_refl) E) as Hsd.
  apply (read_value_ext y) in E; [|by left].
  apply (read_value_mono _ (S (String.length (dumps v)))) in E; [|lia].
  rewrite <- Ht, Hread in E. injection E as _ E. symmetry in E.
  by apply append_eq_nil in E.
Qed.

(** X17. A save that stops part-way loses the ledger.  With the time stamp
    and the keys and strings of the song data in UTF-8 and no number with a
    fraction or an exponent in the song data: no text that stops short of
    the end of the text [save_progress] writes parses, so when the save
    stops after any number of characters less than the whole text,
    [load_progress] finds a file it cannot read and returns the empty
    ledger, with no song of any earlier run in it. *)
Theorem interrupted_save_loads_empty (now : string) (pi : gset Z)
    (sd : gmap string json) (fs : files) (n : nat) :
  utf8 now = true -> ledger_plain sd ->
  (n < String.length (ledger_text now pi sd))%nat ->
  Json.load (substring 0 n (ledger_text now pi sd)) = None
  /\ load_progress (during_save (Written n) now pi sd fs) = Some (∅, ∅).
Proof.
  intros Hnow Hsd Hn.
  assert (Json.load (substring 0 n (ledger_text now pi sd)) = None) as Hload.
  { destruct (substring_split n (ledger_text now pi sd)) as (y & Ht & Hy).
    unfold load.
    destruct (utf8_valid 128 191 0 (substring 0 n (ledger_text now pi sd)));
      [|done].
    pose proof (ledger_document_plain now pi sd Hnow Hsd) as Hplain.
    unfold ledger_text in Ht. unfold ledger_document in Ht at 1, Hplain.
    eapply cut_object_does_not_load; [exact Hplain|exact Ht|by apply Hy]. }
  split; [done|].
  eapply load_progress_unreadable; [|exact Hload].
  apply during_save_ledger_file.
Qed.

(** The ledger with three songs, cut after 40 characters. *)
Lemma interrupted_save_loads_empty_witness :
  load_progress
    (during_save (Written 40) "2026-01-02 10:00:00" ledger_1_2_3.1
       ledger_1_2_3.2 files_1_2) = Some (∅, ∅).
Proof.
  refine (proj2 (interrupted_save_loads_empty "2026-01-02 10:00:00"
                   ledger_1_2_3.1 ledger_1_2_3.2 files_1_2 40 _ _ _)).
  - reflexivity.
  - apply ledger_plain_forallb. vm_compute. reflexivity.
  - vm_compute. lia.
Defined.

(** ** Every completed save is read back *)

Lemma max_by_score_utf8 rest : forall x,
  utf8 (videoId x) = true ->
  forallb (fun it => utf8 (videoId it)) rest = true ->
  utf8 (videoId (max_by_score x rest)) = true.
Proof.
  induction rest as [|y rest IH]; intros x Hx Hrest; [done|].
  cbn [max_by_score]. simpl in Hrest.
  apply andb_true_iff in Hrest as [Hy Hrest].
  destruct (score x <? score y)%nat; by apply IH.
Qed.

Lemma resume_search_utf8 su inp c s pr s' :
  resume_search su inp = Some c -> c s = (pr, s') ->
  input_utf8 inp = true ->
  match pr with
  | Return (Some v) => utf8 v = true
  | _ => True
  end.
Proof.
  destruct su as [k|k], inp as [|r|]; try discriminate; intros [= <-] Hc Hr.
  - destruct r as [st items| |]; unfold search_on_reply in Hc.
    + destruct (st =? 200).
      { destruct items as [|x rest]; injection Hc as <- _; [done|].
        simpl in Hr. apply andb_true_iff in Hr as [Hx Hrest].
        by apply max_by_score_utf8. }
      destruct ((st =? 403) || (st =? 429)); [|by injection Hc as <- _].
      destruct (k =? RETRY_ATTEMPTS - 1)%nat; by injection Hc as <- _.
    + destruct (k <? RETRY_ATTEMPTS - 1)%nat; [by injection Hc as <- _|].
      destruct (search_attempt_cases (S k) s) as [[_ H] | [_ H]];
        rewrite H in Hc; by injection Hc as <- _.
    + by injection Hc as <- _.
  - destruct (search_attempt_cases (S k) s) as [[_ H] | [_ H]];
      rewrite H in Hc; by injection Hc as <- _.
Qed.

Lemma after_search_utf8 sg v s st' s' :
  after_search sg v s = (st', s') ->
  match v with Some w => utf8 w = true | None => True end ->
  wstate_utf8 st'.
Proof.
  intros Hc Hv.
  destruct (after_search_cases sg v s)
    as [[_ H] | [(_ & _ & H) | (_ & w & Hw & H)]];
    rewrite H in Hc; injection Hc as <- _; try done.
  cbn [wstate_utf8]. destruct v as [[|a v]|]; try done.
  by injection Hw as <-.
Qed.

Lemma worker_step_utf8 sg st inp c s st' s' :
  worker_step sg st inp = Some c -> c s = (st', s') ->
  input_utf8 inp = true -> wstate_utf8 st -> wstate_utf8 st'.
Proof.
  intros Hstep Hc Hinp Hst. destruct st as [|su|v su|res]; [| | |done].
  - destruct inp; try discriminate. injection Hstep as <-.
    destruct s as [q j]. unfold worker_entry, bind, read_quota in Hc.
    cbn [quota_exceeded] in Hc.
    destruct q; [by injection Hc as <- _|].
    rewrite search_entry_clear in Hc.
    destruct (search_attempt_cases 0 (Shared false j)) as [[_ H] | [_ H]];
      rewrite H in Hc; cbn [continue_search] in Hc.
    + by injection Hc as <- _.
    + by eapply after_search_utf8.
  - simpl in Hstep. destruct (resume_search su inp) as [c0|] eqn:Hres; [|done].
    injection Hstep as <-. unfold bind in Hc.
    destruct (c0 s) as [pr s0] eqn:Hc0.
    pose proof (resume_search_utf8 _ _ _ _ _ _ Hres Hc0 Hinp) as Hpr.
    destruct pr as [su'|v|]; cbn [continue_search] in Hc.
    + by injection Hc as <- _.
    + by eapply after_search_utf8.
    + by injection Hc as <- _.
  - simpl in Hstep. destruct (resume_add su inp) as [c0|]; [|done].
    injection Hstep as <-. unfold bind in Hc.
    destruct (c0 s) as [pr s0]. cbn [wstate_utf8] in Hst.
    destruct pr as [su'|ok|]; cbn [continue_add] in Hc.
    + by injection Hc as <- _.
    + rewrite after_add_cases in Hc. by injection Hc as <- _.
    + by injection Hc as <- _.
Qed.

Lemma pool_exec_utf8 schedule : forall p p',
  pool_exec schedule p = Some p' ->
  Forall (fun step => input_utf8 step.2 = true) schedule ->
  (forall j sg st, tasks p !! j = Some (sg, st) -> wstate_utf8 st) ->
  forall j sg st, tasks p' !! j = Some (sg, st) -> wstate_utf8 st.
Proof.
  induction schedule as [|[i inp] schedule IH]; intros p p'.
  - by intros [= <-].
  - simpl. destruct (pool_step i inp p) as [p1|] eqn:Hstep; [|done].
    intros Hexec Hall Hok. apply Forall_cons in Hall as [Hinp Hall].
    eapply IH; [done|done|].
    destruct (pool_step_inv _ _ _ _ Hstep)
      as (sg0 & st0 & c & st' & s' & Hi & _ & Hw & Hc & ->).
    cbn [tasks]. intros j sg st Hj.
    destruct (decide (i = j)) as [->|Hne].
    + rewrite list_lookup_insert_eq in Hj by (by eapply lookup_lt_Some).
      injection Hj as <- <-.
      eapply worker_step_utf8; [done..|]. by eapply Hok.
    + rewrite list_lookup_insert_ne in Hj by done. by eapply Hok.
Qed.

Lemma outcome_json_plain o :
  utf8 (query (song_of o)) = true ->
  match video_id_of o with Some v => utf8 v = true | None => True end ->
  plain (outcome_json o) = true.
Proof.
  intros Hq Hv. unfold outcome_json. cbn [plain forallb fst snd].
  rewrite Hq.
  assert (utf8 (status_str (status_of o)) = true) as ->
    by by destruct (status_of o).
  assert (plain match video_id_of o with
                | Some v => JStr v
                | None => JNull
                end = true) as ->
    by by destruct (video_id_of o).
  reflexivity.
Qed.

Lemma str_utf8 (i : Z) : utf8 (str i) = true.
Proof. apply ascii_only_utf8, pretty_Z_ascii. Qed.

Lemma merge_results_plain results : forall ledger,
  ledger_plain ledger.2 ->
  (forall o, Returned o ∈ results -> plain (outcome_json o) = true) ->
  ledger_plain (merge_results results ledger).2.
Proof.
  induction results as [|res results IH] using rev_ind; intros ledger Hl Ho;
    [done|].
  rewrite merge_results_snoc.
  assert (ledger_plain (merge_results results ledger).2) as Hm.
  { apply IH; [done|]. intros o Hin. apply Ho. apply elem_of_app. by left. }
  destruct res as [o|]; [|done]. cbn [merge_result snd].
  intros k v Hkv. apply lookup_insert_Some in Hkv as [[<- <-] | [_ Hkv]].
  - split; [apply str_utf8|]. apply Ho. apply elem_of_app. right. by left.
  - by apply Hm in Hkv.
Qed.

Lemma ledger_plain_empty : ledger_plain ∅.
Proof. intros k v H. by rewrite lookup_empty in H. Qed.

(** X18. Every completed save is read back.  When the ledger a run loads
    is one that reads back, the queries of the liked songs, the video ids
    in the replies and the time stamp are UTF-8, and the save goes through,
    the ledger the run saves reads back as well: the next run loads exactly
    the processed set and the song data this run saved.  From a start
    without a ledger file this holds run after run. *)
Theorem completed_save_reads_back (songs : list string) (su : setup)
    (now : string) (schedule : list (nat * input)) (fs : files) (r : report)
    (pi : gset Z) (sd : gmap string json) :
  main songs su Completes now schedule fs = Some r ->
  load_progress fs = Some (pi, sd) -> ledger_plain sd ->
  Forall (fun q => utf8 q = true) songs ->
  Forall (fun step => input_utf8 step.2 = true) schedule ->
  utf8 now = true ->
  save_reads_back now r
  /\ exists pi' sd',
       load_progress (files_after r) = Some (pi', sd')
       /\ ledger_plain sd'
       /\ forall m, saved r = Some m -> m = (pi', sd').
Proof.
  intros Hmain Hload Hsd Hsongs Hsched Hnow.
  destruct (batch r) as [p|] eqn:Hbatch.
  - destruct (main_run _ _ _ _ _ _ _ _ Hmain Hbatch)
      as (pi0 & sd0 & results & _ & _ & Hload0 & Hcreated & Hexec & Hres
          & Hsaved & Hfiles).
    rewrite Hload in Hload0. injection Hload0 as <- <-.
    destruct (results_in_task_order_aux _ _ _ _ _ Hexec Hres) as [_ Hown].
    destruct (gather_results_Some _ _ Hres) as [_ Hrs].
    assert (forall o, Returned o ∈ results -> plain (outcome_json o) = true)
      as Hplain.
    { intros o Ho. apply list_elem_of_lookup in Ho as [j Hj].
      apply outcome_json_plain.
      - pose proof (Hown _ _ Hj) as Hsg. rewrite Hcreated in Hsg.
        apply list_elem_of_lookup_2, pending_from_song in Hsg
          as (_ & _ & Hq & _).
        rewrite Forall_forall in Hsongs. apply Hsongs.
        by eapply list_elem_of_lookup_2.
      - apply Hrs in Hj as [sg Hj].
        apply (pool_exec_utf8 _ _ _ Hexec Hsched) in Hj; [done|].
        intros i sg' st Hi. unfold gather_start in Hi. cbn [tasks] in Hi.
        by apply list_lookup_fmap_Some in Hi as (? & [= _ ->] & _). }
    pose proof (merge_results_plain results (pi, sd) Hsd Hplain) as Hm.
    destruct (merge_results results (pi, sd)) as [pi' sd'] eqn:Em.
    cbn [fst snd] in *.
    pose proof (ledger_text_loads now pi' sd' Hnow Hm) as Htext.
    assert (files_after r !! PROGRESS_FILE = Some (ledger_text now pi' sd'))
      as Hfile.
    { rewrite Hfiles. unfold save_progress.
      by rewrite during_save_ledger_file, substring_all. }
    split.
    + unfold save_reads_back. by rewrite Hsaved.
    + exists pi', sd'. split; [by eapply load_progress_document|].
      split; [done|]. intros m Hsm. rewrite Hsaved in Hsm. by injection Hsm.
  - destruct (main_cases _ _ _ _ _ _ _ Hmain)
      as [(Hsaved & _ & _ & Hfile) | (? & ? & p & ? & _ & _ & Hb & _)];
      [|by rewrite Hbatch in Hb].
    split.
    + unfold save_reads_back. by rewrite Hsaved.
    + exists pi, sd. split; [by rewrite (load_progress_ext _ fs)|].
      split; [done|]. intros m Hsm. by rewrite Hsaved in Hsm.
Qed.

(** The run over [five_songs] from the ledger with two songs. *)
Lemma completed_save_reads_back_witness :
  exists r,
    main five_songs (Setup None true) Completes "2026-01-02 10:00:00"
      raise_schedule files_1_2 = Some r
    /\ save_reads_back "2026-01-02 10:00:00" r
    /\ exists pi' sd',
         load_progress (files_after r) = Some (pi', sd')
         /\ ledger_plain sd'
         /\ forall m, saved r = Some m -> m = (pi', sd').
Proof.
  eexists. split; [vm_compute; reflexivity|].
  eapply (completed_save_reads_back five_songs (Setup None true)
            "2026-01-02 10:00:00" raise_schedule files_1_2 _
            ledger_1_2.1 ledger_1_2.2).
  - vm_compute. reflexivity.
  - vm_compute. reflexivity.
  - apply ledger_plain_forallb. vm_compute. reflexivity.
  - repeat constructor.
  - repeat constructor.
  - reflexivity.
Defined.

(** ** The ledger goes by position *)

Lemma filter_seqZ_all_but_last (processed : gset Z) (n : nat) :
  (forall i, 1 <= i <= Z.of_nat n -> i ∈ processed) ->
  Z.of_nat n + 1 ∉ processed ->
  filter (fun i => i ∉ processed) (seqZ 1 (Z.of_nat (S n)))
  = [Z.of_nat n + 1].
Proof.
  intros Hall Hlast. rewrite seqZ_S, filter_app.
  assert (filter (fun i => i ∉ processed) (seqZ 1 (Z.of_nat n)) = []) as ->.
  { destruct (filter _ (seqZ 1 (Z.of_nat n))) as [|i l] eqn:E; [done|].
    assert (i ∈ filter (fun i => i ∉ processed) (seqZ 1 (Z.of_nat n))) as Hi
      by (rewrite E; apply list_elem_of_here).
    apply list_elem_of_filter in Hi as [Hnot Hi].
    apply elem_of_seqZ in Hi. exfalso. apply Hnot, Hall. lia. }
  replace (1 + Z.of_nat n) with (Z.of_nat n + 1) by lia.
  by rewrite filter_cons_True.
Qed.

(** X19. The ledger goes by the position of a song in the list, not by the
    song.  When the list of liked songs has gained a song at its front
    since the run that processed them all, the next run creates one task
    only, for the last position: the search is for the last song of the
    list, which was processed before, and the new song, at a position the
    ledger holds, is not searched for. *)
Theorem new_like_shifts_positions (new : string) (songs : list string)
    (su : setup) (io : disk) (now : string) (schedule : list (nat * input))
    (fs : files) (processed : gset Z) (song_data : gmap string json)
    (r : report) (oldest : string) :
  setup_returns su = true ->
  load_progress (after_setup su fs) = Some (processed, song_data) ->
  (forall i, 1 <= i <= Z.of_nat (length songs) -> i ∈ processed) ->
  Z.of_nat (length songs) + 1 ∉ processed ->
  last songs = Some oldest ->
  main (new :: songs) su io now schedule fs = Some r ->
  created r
  = [Song (Z.of_nat (length songs) + 1) (Z.of_nat (length songs) + 1) oldest].
Proof.
  intros Hsetup Hload Hall Hlast Hold Hmain.
  assert (created r = songs_to_process (new :: songs) processed) as ->.
  { assert (new :: songs <> []) as Hne by done.
    destruct (main_loaded _ _ _ _ _ _ _ _ _ Hne Hsetup Hload Hmain)
      as [[-> ->] | (p & results & _ & _ & _ & ->)]; done. }
  unfold songs_to_process.
  pose proof (pending_from_ids (Z.of_nat (length (new :: songs)))
                (new :: songs) processed 1) as Hids.
  change (length (new :: songs)) with (S (length songs)) in Hids at 2.
  rewrite (filter_seqZ_all_but_last processed (length songs) Hall Hlast)
    in Hids.
  destruct (pending_from _ 1 (new :: songs) processed) as [|sg [|sg' l]] eqn:E;
    try discriminate Hids.
  injection Hids as Hid.
  assert (sg ∈ pending_from (Z.of_nat (length (new :: songs))) 1
                  (new :: songs) processed) as Hin
    by (rewrite E; apply list_elem_of_here).
  apply pending_from_song in Hin as (Htotal & _ & Hq & _).
  rewrite Hid in Hq. destruct sg as [i n q]. cbn [id total query] in *.
  subst i n. f_equal. f_equal; [cbn [length]; lia|].
  replace (Z.to_nat (Z.of_nat (length songs) + 1 - 1)) with (length songs)
    in Hq by lia.
  destruct songs as [|q0 songs'] using rev_ind; [done|].
  rewrite last_snoc in Hold. injection Hold as <-.
  rewrite length_app in Hq. cbn [length] in Hq.
  replace (length songs' + 1)%nat with (S (length songs')) in Hq by lia.
  rewrite lookup_cons in Hq.
  rewrite lookup_app_r, Nat.sub_diag in Hq by lia. by injection Hq.
Qed.

(** Two songs processed, then a third one liked. *)
Lemma new_like_shifts_positions_witness :
  exists r,
    main ["new"; "one a"; "two b"] (Setup None true) Completes
      "2026-01-02 10:00:00" retry_schedule files_1_2 = Some r
    /\ created r = [Song 3 3 "two b"].
Proof.
  eexists. split; [vm_compute; reflexivity|].
  apply (new_like_shifts_positions "new" ["one a"; "two b"] (Setup None true)
           Completes "2026-01-02 10:00:00" retry_schedule files_1_2
           {[1; 2]} ledger_1_2.2 _ "two b").
  - reflexivity.
  - vm_compute. reflexivity.
  - intros i Hi. simpl in Hi.
    assert (i = 1 \/ i = 2) as [-> | ->] by lia; set_unfold; tauto.
  - simpl. set_unfold. lia.
  - reflexivity.
  - vm_compute. reflexivity.
Defined.
